(** * A WebSocket RPC service: protocol, registry and connection handler

    Shallow embedding of [protocol.py], [functions.py], [server.py] and the
    request construction of [client.py].

    - Python values are an inductive type; a [dict] is the list of its
      entries in insertion order, an [int] is unbounded, a [float] is a
      binary64 number.
    - A raised exception is the [Raise] branch of a result type; an
      exception instance carries the classes it is an instance of, which is
      what the [except] clauses test.
    - [json.loads] and [json.dumps] are parameters (class [Json]): each
      returns a value or raises.  Module [RefJson] gives an executable
      instance with the interpreter's limits, proved to read back what it
      writes and to read nothing but the texts of the JSON grammar.
    - The connection handler is a loop over the events of one WebSocket; it
      returns the effects it performed, in order, and the exception that
      ends the task, if any. *)

From Stdlib Require Import ZArith String Ascii List Bool Lia Floats.
From Stdlib Require Import DecimalString.
From Stdlib Require Decimal DecimalPos.
Import ListNotations.

Set Warnings "-register-all,-inexact-float".

Local Open Scope string_scope.
Local Open Scope list_scope.
Local Open Scope Z_scope.

(** ** Results of computations that may raise *)

Inductive result (E A : Type) : Type :=
| Ok (a : A)
| Raise (e : E).

Arguments Ok {E A} a.
Arguments Raise {E A} e.

(** ** Python values *)

Module Py.

(** The values [json.loads] produces and [json.dumps] accepts.  A [dict]
    keeps its entries in insertion order; keys are strings. *)
Inductive value : Type :=
| PNone
| PBool (b : bool)
| PInt (n : Z)
| PFloat (x : float)
| PStr (s : string)
| PList (items : list value)
| PDict (entries : list (string * value)).

Definition dict : Type := list (string * value).

(** The entry of a dictionary with string keys under [key], if any. *)
Fixpoint lookup {A : Type} (key : string) (d : list (string * A)) : option A :=
  match d with
  | [] => None
  | (k, v) :: rest => if String.eqb key k then Some v else lookup key rest
  end.

(** [d.get(key, default)]. *)
Definition get_default (key : string) (default : value) (d : dict) : value :=
  match lookup key d with
  | Some v => v
  | None => default
  end.

(** [d.get(key)]: the default is [None]. *)
Definition get (key : string) (d : dict) : value :=
  get_default key PNone d.

(** [d[key] = v]: an existing key keeps its position, a new key is
    appended. *)
Fixpoint set (key : string) (v : value) (d : dict) : dict :=
  match d with
  | [] => [(key, v)]
  | (k, w) :: rest =>
      if String.eqb key k then (k, v) :: rest else (k, w) :: set key v rest
  end.

Definition keys (d : dict) : list string := map fst d.

Definition contains (key : string) (d : dict) : bool :=
  match lookup key d with
  | Some _ => true
  | None => false
  end.

(** Truth value of an object, as [not x] and [if x] test it. *)
Definition truthy (v : value) : bool :=
  match v with
  | PNone => false
  | PBool b => b
  | PInt n => negb (n =? 0)
  | PFloat x => negb (PrimFloat.eqb x PrimFloat.zero)
  | PStr s => match s with EmptyString => false | String _ _ => true end
  | PList items => match items with [] => false | _ :: _ => true end
  | PDict entries => match entries with [] => false | _ :: _ => true end
  end.

(** [isinstance(v, str)]. *)
Definition isinstance_str (v : value) : bool :=
  match v with PStr _ => true | _ => false end.

(** [isinstance(v, dict)]. *)
Definition isinstance_dict (v : value) : bool :=
  match v with PDict _ => true | _ => false end.

(** [isinstance(v, (int, float))]; [bool] is a subclass of [int]. *)
Definition isinstance_int_float (v : value) : bool :=
  match v with
  | PBool _ | PInt _ | PFloat _ => true
  | _ => false
  end.

(** *** Exceptions

    An exception instance is its class, given by the names of the classes
    in its method resolution order, and the text [str(e)] returns. *)
Record exn : Type := mk_exn { exn_mro : list string; exn_str : string }.

Definition isinstance_exn (e : exn) (cls : string) : bool :=
  existsb (String.eqb cls) (exn_mro e).

Definition TypeError (msg : string) : exn :=
  mk_exn ["TypeError"; "Exception"; "BaseException"; "object"] msg.

Definition OverflowError (msg : string) : exn :=
  mk_exn ["OverflowError"; "ArithmeticError"; "Exception";
          "BaseException"; "object"] msg.

Definition ValueError (msg : string) : exn :=
  mk_exn ["ValueError"; "Exception"; "BaseException"; "object"] msg.

Definition RecursionError (msg : string) : exn :=
  mk_exn ["RecursionError"; "RuntimeError"; "Exception"; "BaseException";
          "object"] msg.

(** *** Numbers *)

(** The integer a [bool] or [int] object stands for in arithmetic. *)
Definition Z_of_bool (b : bool) : Z := if b then 1 else 0.

(** [float(n)] for an [int]: rounded to nearest, ties to even; an [int]
    whose rounding is not finite raises [OverflowError]. *)
Definition float_of_int (n : Z) : result exn float :=
  match binary_normalize prec emax n 0 false with
  | S754_infinity _ => Raise (OverflowError "int too large to convert to float")
  | sf => Ok (SF2Prim sf)
  end.

Inductive number : Type :=
| NInt (n : Z)
| NFloat (x : float).

(** The numeric view of an [int], [bool] or [float] object. *)
Definition as_number (v : value) : option number :=
  match v with
  | PBool b => Some (NInt (Z_of_bool b))
  | PInt n => Some (NInt n)
  | PFloat x => Some (NFloat x)
  | _ => None
  end.

Definition of_number (n : number) : value :=
  match n with
  | NInt z => PInt z
  | NFloat x => PFloat x
  end.

(** Binary arithmetic on numbers: two integers stay integers, a mixed
    pair converts the integer to [float] first. *)
Definition arith (opZ : Z -> Z -> Z) (opF : float -> float -> float)
           (a b : number) : result exn value :=
  match a, b with
  | NInt x, NInt y => Ok (PInt (opZ x y))
  | NFloat x, NFloat y => Ok (PFloat (opF x y))
  | NInt x, NFloat y =>
      match float_of_int x with
      | Ok fx => Ok (PFloat (opF fx y))
      | Raise e => Raise e
      end
  | NFloat x, NInt y =>
      match float_of_int y with
      | Ok fy => Ok (PFloat (opF x fy))
      | Raise e => Raise e
      end
  end.

Definition add : number -> number -> result exn value :=
  arith Z.add PrimFloat.add.

Definition mul : number -> number -> result exn value :=
  arith Z.mul PrimFloat.mul.

End Py.

Import Py.

(** ** The [json] module

    [json.loads] and [json.dumps] belong to Python's standard library, not to
    this repository: the development is parametric in them.  Each returns
    or raises: [json.loads] raises [JSONDecodeError] on a text that is no
    JSON document, and [ValueError] or [RecursionError] at the limits of the
    interpreter; [json.dumps] raises at the same limits. *)
Class Json : Type := {
  json_loads : string -> result exn value;
  json_dumps : value -> result exn string
}.

(** [json.JSONDecodeError], a [ValueError]. *)
Definition JSONDecodeError (msg : string) : exn :=
  mk_exn ["JSONDecodeError"; "ValueError"; "Exception"; "BaseException";
          "object"] msg.

(** ** [protocol.py] *)

Module Protocol.

(** [RPCError]: a dataclass that is also an exception. *)
Record RPCError : Type := mk_RPCError {
  request_id : value;
  code : string;
  message : string
}.

(** [RPCError.to_dict]. *)
Definition to_dict (self : RPCError) : dict :=
  [ ("request_id", request_id self);
    ("status", PStr "error");
    ("error", PDict [ ("code", PStr (code self));
                      ("message", PStr (message self)) ]) ].

(** The dictionary [parse_request] returns: always the three keys
    [request_id], [action] and [params]. *)
Record Request : Type := mk_Request {
  req_request_id : value;
  req_action : string;
  req_params : dict
}.

(** What [parse_request] raises: an [RPCError] of its own, or whatever
    [json.loads] raises that is no [JSONDecodeError], which the [except]
    clause of lines 52 to 54 lets through. *)
Inductive raised : Type :=
| RPC (err : RPCError)
| Exn (e : exn).

Section WithJson.
Context {J : Json}.

(** [parse_request]. *)
Definition parse_request (raw : string) : result raised Request :=
  match json_loads raw with
  | Raise e =>
      if isinstance_exn e "JSONDecodeError" then
        Raise (RPC (mk_RPCError PNone "invalid_json" "Payload is not valid JSON"))
      else Raise (Exn e)
  | Ok payload =>
      match payload with
      | PDict payload =>
          let request_id := get "request_id" payload in
          let action := get "action" payload in
          if negb (truthy action) || negb (isinstance_str action) then
            Raise (RPC (mk_RPCError request_id "invalid_action"
                                    "Missing or invalid 'action'"))
          else
            let params := get_default "params" (PDict []) payload in
            match action, params with
            | PStr action, PDict params =>
                Ok (mk_Request request_id action params)
            | PStr _, _ =>
                Raise (RPC (mk_RPCError request_id "invalid_params"
                                        "'params' must be a dictionary"))
            | _, _ =>
                (* not reached: the guard above leaves only strings *)
                Raise (RPC (mk_RPCError request_id "invalid_action"
                                        "Missing or invalid 'action'"))
            end
      | _ =>
          Raise (RPC (mk_RPCError PNone "invalid_payload"
                                  "Payload must be a JSON object"))
      end
  end.

End WithJson.

(** [make_response]. *)
Definition make_response (request_id : value) (status : string)
           (result : value) : dict :=
  let base := [ ("request_id", request_id); ("status", PStr status) ] in
  if String.eqb status "ok" then set "result" result base
  else set "error" result base.

End Protocol.

(** ** [functions.py] *)

Module Functions.

(** A callable of the registry: what [asyncio.iscoroutinefunction] answers
    for it, and the outcome of calling it with keyword arguments (for a
    coroutine function, of running the coroutine it returns to its end). *)
Record callable : Type := mk_callable {
  iscoroutinefunction : bool;
  call : dict -> result exn value
}.

Definition quoted (name : string) : string := "'" ++ name ++ "'".

(** The list of names in the interpreter's message for missing arguments. *)
Definition enumerate_names (names : list string) : string :=
  match rev (map quoted names) with
  | [] => EmptyString
  | [only] => only
  | [second; first] => first ++ " and " ++ second
  | last :: before => String.concat ", " (rev before) ++ ", and " ++ last
  end.

Definition decimal (n : nat) : string :=
  NilEmpty.string_of_uint (Nat.to_uint n).

(** Binding of [**kwargs] to the parameters of a function declared
    [def name(p1, ..., pn)]: a keyword that is no parameter, or a parameter
    left without argument, raises [TypeError] before the body runs. *)
Definition bind_keywords (name : string) (parameters : list string)
           (kwargs : dict) : result exn (string -> value) :=
  match find (fun k => negb (existsb (String.eqb k) parameters)) (keys kwargs) with
  | Some k =>
      Raise (TypeError (name ++ "() got an unexpected keyword argument "
                             ++ quoted k))
  | None =>
      match filter (fun p => negb (contains p kwargs)) parameters with
      | [] => Ok (fun p => get p kwargs)
      | missing =>
          Raise (TypeError
                   (name ++ "() missing " ++ decimal (length missing)
                         ++ " required positional argument"
                         ++ (if (length missing =? 1)%nat then EmptyString else "s")
                         ++ ": " ++ enumerate_names missing))
      end
  end.

(** [def name(p1, ..., pn): body], an ordinary (not [async]) function; the
    body reads its parameters from the local variables. *)
Definition def (name : string) (parameters : list string)
           (body : (string -> value) -> result exn value) : callable :=
  mk_callable false
    (fun kwargs =>
       match bind_keywords name parameters kwargs with
       | Ok locals => body locals
       | Raise e => Raise e
       end).

(** [add_numbers]. *)
Definition add_numbers (a b : value) : result exn value :=
  if negb (isinstance_int_float a) || negb (isinstance_int_float b) then
    Raise (TypeError "'a' and 'b' must be numbers")
  else
    match as_number a, as_number b with
    | Some x, Some y => Py.add x y
    | _, _ =>
        (* not reached: the guard above leaves only numbers *)
        Raise (TypeError "'a' and 'b' must be numbers")
    end.

(** [multiply_numbers]. *)
Definition multiply_numbers (a b : value) : result exn value :=
  if negb (isinstance_int_float a) || negb (isinstance_int_float b) then
    Raise (TypeError "'a' and 'b' must be numbers")
  else
    match as_number a, as_number b with
    | Some x, Some y => Py.mul x y
    | _, _ =>
        (* not reached: the guard above leaves only numbers *)
        Raise (TypeError "'a' and 'b' must be numbers")
    end.

(** [echo]. *)
Definition echo (message : value) : result exn value :=
  if negb (isinstance_str message) then
    Raise (TypeError "'message' must be a string")
  else Ok message.

(** [FUNCTION_REGISTRY]. *)
Definition FUNCTION_REGISTRY : list (string * callable) :=
  [ ("add_numbers",
     def "add_numbers" ["a"; "b"]
         (fun locals => add_numbers (locals "a") (locals "b")));
    ("multiply_numbers",
     def "multiply_numbers" ["a"; "b"]
         (fun locals => multiply_numbers (locals "a") (locals "b")));
    ("echo",
     def "echo" ["message"] (fun locals => echo (locals "message"))) ].

End Functions.

(** ** [server.py] *)

Module Server.
Import Protocol Functions.

(** What the iteration [async for raw in ws] does next: it yields a message,
    or raises.  The end of the list is the end of the iteration. *)
Inductive ws_event : Type :=
| Recv (raw : string)
| Fail (e : exn).

(** [websockets.ConnectionClosed]. *)
Definition ConnectionClosed (msg : string) : exn :=
  mk_exn ["ConnectionClosed"; "InvalidState"; "WebSocketException";
          "Exception"; "BaseException"; "object"] msg.

(** The effects of the handler on its collaborators, the logger and the
    connection.  [ws.send] is taken to succeed: the end of a connection shows
    at the next step of the iteration. *)
Inductive effect : Type :=
| LogInfo (text : string)
| LogDebug (text : string)
| LogException (text : string) (e : exn)
| Send (frame : string).

(** The frames written on the connection, in order. *)
Fixpoint sent (trace : list effect) : list string :=
  match trace with
  | [] => []
  | Send frame :: rest => frame :: sent rest
  | _ :: rest => sent rest
  end.

(** [await c]: the connection's task resumes with the outcome of [c] once
    [c] has run to its end. *)
Definition await {A : Type} (c : A) : A := c.

Section Handler.
Context {J : Json}.

(** The registry the handler looks actions up in; the server passes
    [FUNCTION_REGISTRY]. *)
Variable registry : list (string * callable).

(** [ws.remote_address], as the log prints it. *)
Variable peer : string.

(** [await ws.send(json.dumps(d))] where no [except] clause of the loop
    body applies: the frame is written, or the exception of the encoder
    leaves the loop. *)
Definition send_json (d : dict) : list effect * option exn :=
  match json_dumps (PDict d) with
  | Ok frame => ([Send frame], None)
  | Raise e => ([], Some e)
  end.

(** Lines 54 to 94 of [handle_connection], the dispatcher of the
    specification: the effects performed for a validated request and the
    exception that leaves the loop body, if any.  The call of the function,
    [make_response] and the encoding of the response are the [try] block of
    lines 72 to 83; what any of them raises goes to the [except] clauses. *)
Definition dispatch (request : Request) : list effect * option exn :=
  let request_id := req_request_id request in
  let action := req_action request in
  let params := req_params request in
  match lookup action registry with
  | None =>
      let err := mk_RPCError request_id "unknown_action"
                             ("Unknown action '" ++ action ++ "'") in
      send_json (to_dict err)
  | Some func =>
      let attempt :=
        match (if iscoroutinefunction func then await (call func params)
               else call func params) with
        | Ok result => json_dumps (PDict (make_response request_id "ok" result))
        | Raise e => Raise e
        end in
      match attempt with
      | Ok frame => ([Send frame], None)
      | Raise e =>
          if isinstance_exn e "TypeError" then
            let err := mk_RPCError request_id "invalid_params" (exn_str e) in
            send_json (to_dict err)
          else if isinstance_exn e "Exception" then
            let err := mk_RPCError request_id "server_error" (exn_str e) in
            let (done, exc) := send_json (to_dict err) in
            (LogException ("Unhandled error while executing '" ++ action ++ "'") e
               :: done, exc)
          else ([], Some e)
      end
  end.

(** The body of the loop, lines 43 to 94, for one message.  What
    [parse_request] raises that is no [RPCError] leaves the loop. *)
Definition handle_message (raw : string) : list effect * option exn :=
  let (done, exc) :=
    match parse_request raw with
    | Raise (RPC e) => send_json (to_dict e)
    | Raise (Exn e) => ([], Some e)
    | Ok request => dispatch request
    end in
  (LogDebug ("Raw message from " ++ peer ++ ": " ++ raw) :: done, exc).

(** The loop [async for raw in ws], lines 42 to 94. *)
Fixpoint message_loop (events : list ws_event) : list effect * option exn :=
  match events with
  | [] => ([], None)
  | Recv raw :: rest =>
      match handle_message raw with
      | (done, Some e) => (done, Some e)
      | (done, None) =>
          let (more, exc) := message_loop rest in (done ++ more, exc)
      end
  | Fail e :: _ => ([], Some e)
  end.

(** [handle_connection]: the effects of one connection's task, and the
    exception that ends the task, if any. *)
Definition handle_connection (events : list ws_event)
  : list effect * option exn :=
  let connected := LogInfo ("Client connected: " ++ peer) in
  match message_loop events with
  | (done, None) => (connected :: done, None)
  | (done, Some e) =>
      if isinstance_exn e "ConnectionClosed" then
        (connected :: (done ++ [LogInfo ("Client disconnected: " ++ peer)])%list,
         None)
      else if isinstance_exn e "Exception" then
        (connected
           :: (done ++ [LogException
                          ("Unexpected connection-level error for client "
                             ++ peer) e])%list,
         None)
      else (connected :: done, Some e)
  end.

End Handler.

End Server.

(** ** [client.py] *)

Module Client.
Import Protocol.

Section WithJson.
Context {J : Json}.

(** The payload [call_action] builds.  [call_action] takes a fresh UUID as
    identifier; the identifier is any value here. *)
Definition request_payload (request : Request) : dict :=
  [ ("request_id", req_request_id request);
    ("action", PStr (req_action request));
    ("params", PDict (req_params request)) ].

(** The text [call_action] sends, when the encoder returns one. *)
Definition encode_request (request : Request) : result exn string :=
  json_dumps (PDict (request_payload request)).

End WithJson.

(** [RuntimeError]. *)
Definition RuntimeError (msg : string) : exn :=
  mk_exn ["RuntimeError"; "Exception"; "BaseException"; "object"] msg.

(** [AttributeError]. *)
Definition AttributeError (msg : string) : exn :=
  mk_exn ["AttributeError"; "Exception"; "BaseException"; "object"] msg.

(** [type(v).__name__]. *)
Definition type_name (v : value) : string :=
  match v with
  | PNone => "NoneType"
  | PBool _ => "bool"
  | PInt _ => "int"
  | PFloat _ => "float"
  | PStr _ => "str"
  | PList _ => "list"
  | PDict _ => "dict"
  end.

(** [v != s] for a string [s]: only the same string is equal to it. *)
Definition ne_str (v : value) (s : string) : bool :=
  match v with
  | PStr t => negb (String.eqb t s)
  | _ => true
  end.

Section CallAction.
Context {J : Json}.

(** What [websockets.connect] raises, if anything. *)
Variable connect : option exn.

(** The connection, once open, from the client's side: for the frame sent,
    the first message received, or the exception that [ws.send] or the
    awaited [ws.recv] raises ([TimeoutError] after [timeout] seconds). *)
Variable exchange : string -> result exn string.

(** [str(uuid.uuid4())]. *)
Variable request_id : string.

(** [call_action]. *)
Definition call_action (action : string) (params : dict) : result exn dict :=
  let payload :=
    [ ("request_id", PStr request_id);
      ("action", PStr action);
      ("params", PDict params) ] in
  match connect with
  | Some e => Raise e
  | None =>
      match json_dumps (PDict payload) with
      | Raise e => Raise e
      | Ok frame =>
          match exchange frame with
          | Raise e => Raise e
          | Ok raw =>
              match json_loads raw with
              | Raise e => Raise e
              | Ok (PDict response) =>
                  if ne_str (get "request_id" response) request_id then
                    Raise (RuntimeError "Unexpected response ID")
                  else Ok response
              | Ok response =>
                  Raise (AttributeError
                           ("'" ++ type_name response
                                ++ "' object has no attribute 'get'"))
              end
          end
      end
  end.

End CallAction.

End Client.

(** ** A reference codec

    An executable instance of [Json], written after the [json] module of
    CPython with its default options ([ensure_ascii], separators [", "] and
    [": "], [NaN] and [Infinity] accepted and produced) and with the two
    limits of the interpreter that make it raise something else than
    [JSONDecodeError]: an integer of more than 4300 digits is neither read
    nor written ([ValueError]), and nested arrays and objects are entered
    only as deep as the recursion limit allows ([RecursionError]).  That
    depth depends on the stack of the caller; it is a parameter of the
    decoder and one of the encoder, and so is the text of a
    [JSONDecodeError].

    A Python string is a sequence of code points; the strings of this
    development hold the code points below 256, one per character.  An
    escape [\uXXXX] that denotes a larger one has no value here, and the
    decoder treats it as malformed. *)

Module RefJson.

Definition code (c : ascii) : nat := nat_of_ascii c.

Definition is_whitespace (c : ascii) : bool :=
  (code c =? 32)%nat || (code c =? 9)%nat || (code c =? 10)%nat
  || (code c =? 13)%nat.

Fixpoint skip_whitespace (s : string) : string :=
  match s with
  | String c rest => if is_whitespace c then skip_whitespace rest else s
  | EmptyString => s
  end.

Definition is_digit (c : ascii) : bool :=
  (48 <=? code c)%nat && (code c <=? 57)%nat.

Definition digit_value (c : ascii) : Z := Z.of_nat (code c) - 48.

(** The longest prefix of digits, and what follows it. *)
Fixpoint span_digits (s : string) : string * string :=
  match s with
  | String c rest =>
      if is_digit c then
        let (ds, rest') := span_digits rest in (String c ds, rest')
      else (EmptyString, s)
  | EmptyString => (EmptyString, EmptyString)
  end.

Fixpoint digits_value (acc : Z) (ds : string) : Z :=
  match ds with
  | String c rest => digits_value (10 * acc + digit_value c) rest
  | EmptyString => acc
  end.

(** [2^k] for a natural [k], 1 for a negative one: [q < 2^k] for a
    fraction [q = num/den] is [num * pow2 (- k) < den * pow2 k]. *)
Definition pow2 (k : Z) : Z := 2 ^ Z.max k 0.

(** [num/den < 2^k]. *)
Definition below (num den k : Z) : bool := num * pow2 (- k) <? den * pow2 k.

(** The exponent of the binary64 numbers nearest to [num/den]: the [e] with
    [2^52 <= num/den / 2^e < 2^53], or -1074 for a subnormal number. *)
Definition binade (num den : Z) : Z :=
  let e0 := Z.log2 num - Z.log2 den - 53 in
  Z.max (if below num den (e0 + 53) then e0 else e0 + 1) (-1074).

(** The binary64 number nearest to the positive fraction [num/den], ties to
    even, [inf] beyond the largest one. *)
Definition nearest (neg : bool) (num den : Z) : spec_float :=
  let e := binade num den in
  if 971 <? e then S754_infinity neg
  else
    let sn := num * 2 ^ (971 - e) in
    let sd := den * 2 ^ 971 in
    let n := sn / sd in
    let up :=
      match 2 * (sn mod sd) ?= sd with
      | Lt => false
      | Gt => true
      | Eq => Z.odd n
      end in
    match (if up then n + 1 else n) with
    | Zpos m =>
        if Zpos m =? 2 ^ 53 then
          if e <? 971 then S754_finite neg (2 ^ 52)%positive (e + 1)
          else S754_infinity neg
        else S754_finite neg m e
    | _ => S754_zero neg
    end.

(** [float(text)] for the decimal numeral [m * 10^e] with sign [neg]: the
    nearest binary64 number, ties to even. *)
Definition float_of_decimal (neg : bool) (m e : Z) : float :=
  SF2Prim
    (if m <=? 0 then S754_zero neg
     else if 0 <=? e then nearest neg (m * 10 ^ e) 1
     else nearest neg m (10 ^ (- e))).

(** The integer part of [NUMBER_RE], [0|[1-9][0-9]*]: its digits and what
    follows them. *)
Definition scan_int (s : string) : option (string * string) :=
  match s with
  | String c rest =>
      if (code c =? 48)%nat then Some ("0", rest)
      else if is_digit c then Some (span_digits s)
      else None
  | EmptyString => None
  end.

(** The optional fraction, [(\.[0-9]+)?]: its digits, none when there is no
    fraction. *)
Definition scan_frac (s : string) : string * string :=
  match s with
  | String c rest =>
      if (code c =? 46)%nat then
        match span_digits rest with
        | (EmptyString, _) => (EmptyString, s)
        | found => found
        end
      else (EmptyString, s)
  | EmptyString => (EmptyString, s)
  end.

(** The optional sign of an exponent, [[-+]?]. *)
Definition scan_sign (s : string) : bool * string :=
  match s with
  | String c rest =>
      if (code c =? 45)%nat then (true, rest)
      else if (code c =? 43)%nat then (false, rest)
      else (false, s)
  | EmptyString => (false, s)
  end.

(** The optional exponent, [([eE][-+]?[0-9]+)?]. *)
Definition scan_exp (s : string) : option Z * string :=
  match s with
  | String c rest =>
      if (code c =? 101)%nat || (code c =? 69)%nat then
        let (negative, unsigned) := scan_sign rest in
        match span_digits unsigned with
        | (EmptyString, _) => (None, s)
        | (ds, rest') =>
            (Some (if negative then - digits_value 0 ds else digits_value 0 ds),
             rest')
        end
      else (None, s)
  | EmptyString => (None, s)
  end.

(** What a scanner does at the start of a text: it finds a value and
    leaves the rest of the text, it finds none ([JSONDecodeError] in the
    end), or the interpreter raises. *)
Inductive scanned (A : Type) : Type :=
| Found (a : A) (rest : string)
| Malformed
| Failed (e : exn).

Arguments Found {A} a rest.
Arguments Malformed {A}.
Arguments Failed {A} e.

(** [sys.get_int_max_str_digits()]. *)
Definition max_str_digits : nat := 4300.

Definition digits_limit : string :=
  "Exceeds the limit (4300 digits) for integer string conversion".

(** [int(text)] for the digits of an integer. *)
Definition int_of_digits (neg : bool) (ds : string) : result exn value :=
  if (max_str_digits <? String.length ds)%nat then
    Raise (ValueError
             (digits_limit ++ ": value has " ++ Functions.decimal (String.length ds)
                ++ " digits; use sys.set_int_max_str_digits() to increase the limit"))
  else
    let n := digits_value 0 ds in Ok (PInt (if neg then - n else n)).

(** The match of [NUMBER_RE] after its optional sign, converted as the
    scanner converts it: to an [int] when there is neither fraction nor
    exponent, to a [float] otherwise. *)
Definition scan_unsigned (neg : bool) (unsigned : string) : scanned value :=
  match scan_int unsigned with
  | None => Malformed
  | Some (int_digits, after_int) =>
      let (frac_digits, after_frac) := scan_frac after_int in
      let (exponent, after_exp) := scan_exp after_frac in
      match frac_digits, exponent with
      | EmptyString, None =>
          match int_of_digits neg int_digits with
          | Ok n => Found n after_exp
          | Raise e => Failed e
          end
      | _, _ =>
          let m := digits_value 0 (int_digits ++ frac_digits) in
          let e := match exponent with Some e => e | None => 0 end in
          Found (PFloat (float_of_decimal neg m
                           (e - Z.of_nat (String.length frac_digits))))
                after_exp
      end
  end.

(** The match of [NUMBER_RE] at the start of [s]. *)
Definition scan_number (s : string) : scanned value :=
  match s with
  | String c rest =>
      if (code c =? 45)%nat then scan_unsigned true rest
      else scan_unsigned false s
  | EmptyString => Malformed
  end.

Definition hex_value (c : ascii) : option nat :=
  let n := code c in
  if (48 <=? n)%nat && (n <=? 57)%nat then Some (n - 48)%nat
  else if (65 <=? n)%nat && (n <=? 70)%nat then Some (n - 55)%nat
  else if (97 <=? n)%nat && (n <=? 102)%nat then Some (n - 87)%nat
  else None.

(** The character a two-character escape stands for ([BACKSLASH]). *)
Definition unescape (c : ascii) : option ascii :=
  let n := code c in
  if (n =? 34)%nat then Some (ascii_of_nat 34)
  else if (n =? 92)%nat then Some (ascii_of_nat 92)
  else if (n =? 47)%nat then Some (ascii_of_nat 47)
  else if (n =? 98)%nat then Some (ascii_of_nat 8)
  else if (n =? 102)%nat then Some (ascii_of_nat 12)
  else if (n =? 110)%nat then Some (ascii_of_nat 10)
  else if (n =? 114)%nat then Some (ascii_of_nat 13)
  else if (n =? 116)%nat then Some (ascii_of_nat 9)
  else None.

Definition cons_char (c : ascii) (r : option (string * string))
  : option (string * string) :=
  match r with
  | Some (s, rest) => Some (String c s, rest)
  | None => None
  end.

(** [py_scanstring] in strict mode, from the character after the opening
    quote: the string and what follows its closing quote. *)
Fixpoint scan_string (s : string) : option (string * string) :=
  match s with
  | EmptyString => None
  | String c rest =>
      if (code c =? 34)%nat then Some (EmptyString, rest)
      else if (code c =? 92)%nat then
        match rest with
        | String e rest1 =>
            if (code e =? 117)%nat then
              match rest1 with
              | String h1 (String h2 (String h3 (String h4 rest2))) =>
                  match hex_value h1, hex_value h2, hex_value h3, hex_value h4 with
                  | Some a, Some b, Some c, Some d =>
                      let n := (((a * 16 + b) * 16 + c) * 16 + d)%nat in
                      if (n <? 256)%nat then
                        cons_char (ascii_of_nat n) (scan_string rest2)
                      else None
                  | _, _, _, _ => None
                  end
              | _ => None
              end
            else
              match unescape e with
              | Some ch => cons_char ch (scan_string rest1)
              | None => None
              end
        | EmptyString => None
        end
      else if (code c <? 32)%nat then None
      else cons_char c (scan_string rest)
  end.

Definition scanner : Type := string -> scanned value.

(** The array after its opening bracket, at the first element. *)
Fixpoint scan_elements (scan : scanner) (fuel : nat) (s : string)
  : scanned (list value) :=
  match fuel with
  | O => Malformed
  | S fuel =>
      match scan s with
      | Malformed => Malformed
      | Failed e => Failed e
      | Found v rest =>
          match skip_whitespace rest with
          | String c rest' =>
              if (code c =? 93)%nat then Found [v] rest'
              else if (code c =? 44)%nat then
                match scan_elements scan fuel (skip_whitespace rest') with
                | Found vs rest'' => Found (v :: vs) rest''
                | Malformed => Malformed
                | Failed e => Failed e
                end
              else Malformed
          | EmptyString => Malformed
          end
      end
  end.

(** The object after its opening brace, at the first key. *)
Fixpoint scan_members (scan : scanner) (fuel : nat) (s : string)
  : scanned (list (string * value)) :=
  match fuel with
  | O => Malformed
  | S fuel =>
      match s with
      | String q rest =>
          match (if (code q =? 34)%nat then scan_string rest else None) with
          | None => Malformed
          | Some (key, rest1) =>
              match skip_whitespace rest1 with
              | String colon rest2 =>
                  if (code colon =? 58)%nat then
                    match scan (skip_whitespace rest2) with
                    | Malformed => Malformed
                    | Failed e => Failed e
                    | Found v rest3 =>
                        match skip_whitespace rest3 with
                        | String c rest4 =>
                            if (code c =? 125)%nat then Found [(key, v)] rest4
                            else if (code c =? 44)%nat then
                              match scan_members scan fuel
                                      (skip_whitespace rest4) with
                              | Found kvs rest5 => Found ((key, v) :: kvs) rest5
                              | Malformed => Malformed
                              | Failed e => Failed e
                              end
                            else Malformed
                        | EmptyString => Malformed
                        end
                    end
                  else Malformed
              | EmptyString => Malformed
              end
          end
      | EmptyString => Malformed
      end
  end.

(** [dict(pairs)]: a repeated key keeps its first position and its last
    value. *)
Definition dict_of_pairs (pairs : list (string * value)) : dict :=
  fold_left (fun d kv => Py.set (fst kv) (snd kv) d) pairs [].

(** What follows the prefix [p] in [s], if [s] starts with [p]. *)
Fixpoint strip_prefix (p s : string) : option string :=
  match p, s with
  | EmptyString, _ => Some s
  | String a p', String b s' => if Ascii.eqb a b then strip_prefix p' s' else None
  | String _ _, EmptyString => None
  end.

(** The cases of [scan_once] for the literals and the numbers. *)
Definition scan_atom (s : string) : scanned value :=
  match strip_prefix "null" s, strip_prefix "true" s,
        strip_prefix "false" s with
  | Some rest, _, _ => Found PNone rest
  | _, Some rest, _ => Found (PBool true) rest
  | _, _, Some rest => Found (PBool false) rest
  | None, None, None =>
      match scan_number s with
      | Found v rest => Found v rest
      | Failed e => Failed e
      | Malformed =>
          match strip_prefix "NaN" s, strip_prefix "Infinity" s,
                strip_prefix "-Infinity" s with
          | Some rest, _, _ => Found (PFloat nan) rest
          | _, Some rest, _ => Found (PFloat infinity) rest
          | _, _, Some rest => Found (PFloat neg_infinity) rest
          | None, None, None => Malformed
          end
      end
  end.

Definition decoding_depth (what : string) : exn :=
  RecursionError
    ("maximum recursion depth exceeded while decoding a JSON " ++ what
       ++ " from a unicode string").

(** [scan_once] of the scanner.  An array or an object is entered only
    when [depth] allows; [fuel] bounds the length of the text. *)
Fixpoint scan_once (fuel depth : nat) (s : string) : scanned value :=
  match fuel with
  | O => Malformed
  | S fuel =>
      match s with
      | EmptyString => Malformed
      | String c rest =>
          if (code c =? 34)%nat then
            match scan_string rest with
            | Some (str, rest') => Found (PStr str) rest'
            | None => Malformed
            end
          else if (code c =? 123)%nat then
            match depth with
            | O => Failed (decoding_depth "object")
            | S depth =>
                match skip_whitespace rest with
                | String c' rest' =>
                    if (code c' =? 125)%nat then Found (PDict []) rest'
                    else
                      match scan_members (scan_once fuel depth) fuel
                              (String c' rest') with
                      | Found pairs rest'' =>
                          Found (PDict (dict_of_pairs pairs)) rest''
                      | Malformed => Malformed
                      | Failed e => Failed e
                      end
                | EmptyString => Malformed
                end
            end
          else if (code c =? 91)%nat then
            match depth with
            | O => Failed (decoding_depth "array")
            | S depth =>
                match skip_whitespace rest with
                | String c' rest' =>
                    if (code c' =? 93)%nat then Found (PList []) rest'
                    else
                      match scan_elements (scan_once fuel depth) fuel
                              (String c' rest') with
                      | Found vs rest'' => Found (PList vs) rest''
                      | Malformed => Malformed
                      | Failed e => Failed e
                      end
                | EmptyString => Malformed
                end
            end
          else scan_atom s
      end
  end.

(** [json.loads].  [describe] gives the text of the [JSONDecodeError]
    raised on a text, [depth] the arrays and objects that can be entered,
    one inside the other. *)
Definition loads (describe : string -> string) (depth : nat) (s : string)
  : result exn value :=
  match scan_once (S (String.length s)) depth (skip_whitespace s) with
  | Found v rest =>
      match skip_whitespace rest with
      | EmptyString => Ok v
      | _ => Raise (JSONDecodeError (describe s))
      end
  | Malformed => Raise (JSONDecodeError (describe s))
  | Failed e => Raise e
  end.

(** *** Encoding *)

Definition decimal_Z (z : Z) : string := NilZero.string_of_int (Z.to_int z).

Definition char (n : nat) : string := String (ascii_of_nat n) EmptyString.

Definition hex_digit (n : nat) : string :=
  if (n <? 10)%nat then char (48 + n) else char (87 + n).

(** The replacement of one character in [py_encode_basestring_ascii]:
    everything but the printable ASCII characters is escaped. *)
Definition escape (c : ascii) : string :=
  let n := code c in
  if (n =? 34)%nat then char 92 ++ char 34
  else if (n =? 92)%nat then "\\"
  else if (n =? 10)%nat then "\n"
  else if (n =? 13)%nat then "\r"
  else if (n =? 9)%nat then "\t"
  else if (n =? 12)%nat then "\f"
  else if (n =? 8)%nat then "\b"
  else if (n <? 32)%nat || (126 <? n)%nat then
    "\u00" ++ hex_digit (n / 16) ++ hex_digit (n mod 16)
  else String c EmptyString.

Fixpoint escape_all (s : string) : string :=
  match s with
  | String c rest => escape c ++ escape_all rest
  | EmptyString => EmptyString
  end.

Definition encode_string (s : string) : string :=
  char 34 ++ escape_all s ++ char 34.

(** The positive number [m * 2^e] as a fraction. *)
Definition fraction (m : positive) (e : Z) : Z * Z :=
  if 0 <=? e then (Zpos m * 2 ^ e, 1) else (Zpos m, 2 ^ (- e)).

(** The least [j >= 1] with [den <= num * 10^j], for [num < den]. *)
Fixpoint scale_up (fuel : nat) (num den : Z) : Z :=
  match fuel with
  | O => 1
  | S fuel => if den <=? 10 * num then 1 else 1 + scale_up fuel (10 * num) den
  end.

(** The [k] with [10^(k-1) <= num/den < 10^k]. *)
Definition decimal_point (num den : Z) : Z :=
  if den <=? num then Z.of_nat (String.length (decimal_Z (num / den)))
  else 1 - scale_up 400 num den.

(** The two [n]-digit decimals next to [num/den], the nearer first. *)
Definition candidates (num den k n : Z) : list (Z * Z) :=
  let p := n - k in
  let (snum, sden) :=
    if 0 <=? p then (num * 10 ^ p, den) else (num, den * 10 ^ (- p)) in
  let lo := snum / sden in
  let r := snum mod sden in
  let lo_first :=
    match 2 * r ?= sden with
    | Lt => true
    | Gt => false
    | Eq => Z.even lo
    end in
  if lo_first then [(lo, - p); (lo + 1, - p)] else [(lo + 1, - p); (lo, - p)].

Fixpoint strip_zeros (s : string) : string :=
  match s with
  | String c rest =>
      match strip_zeros rest with
      | EmptyString =>
          if (code c =? 48)%nat then EmptyString else String c EmptyString
      | rest' => String c rest'
      end
  | EmptyString => EmptyString
  end.

Fixpoint zeros (n : nat) : string :=
  match n with
  | O => EmptyString
  | S n => String "0" (zeros n)
  end.

(** [float.__repr__] of a positive finite number with digits [ds] and
    decimal point at [decpt] (the value is [0.ds * 10^decpt]). *)
Definition format_repr (ds : string) (decpt : Z) : string :=
  let n := Z.of_nat (String.length ds) in
  if (decpt <=? -4) || (16 <? decpt) then
    let mantissa :=
      match ds with
      | String d EmptyString => String d EmptyString
      | String d more => String d ("." ++ more)
      | EmptyString => EmptyString
      end in
    let e := decpt - 1 in
    let digits := decimal_Z (Z.abs e) in
    mantissa ++ "e" ++ (if e <? 0 then "-" else "+")
             ++ (if (String.length digits <? 2)%nat then "0" ++ digits else digits)
  else if decpt <=? 0 then "0." ++ zeros (Z.to_nat (- decpt)) ++ ds
  else if n <=? decpt then ds ++ zeros (Z.to_nat (decpt - n)) ++ ".0"
  else String.substring 0 (Z.to_nat decpt) ds ++ "."
       ++ String.substring (Z.to_nat decpt) (Z.to_nat (n - decpt)) ds.

(** The text of the decimal [d * 10^e10] with sign [neg]. *)
Definition float_text (neg : bool) (d : Z * Z) : string :=
  let all := decimal_Z (fst d) in
  (if neg then "-" else EmptyString)
    ++ format_repr (strip_zeros all) (Z.of_nat (String.length all) + snd d).

(** [float(text) == x]. *)
Definition reads (x : float) (text : string) : bool :=
  match scan_number text with
  | Found (PFloat y) EmptyString => PrimFloat.Leibniz.eqb y x
  | _ => false
  end.

(** The shortest text among the decimals of [n], [n + 1], ... digits next
    to [x] that reads back as [x]. *)
Fixpoint shortest (x : float) (neg : bool) (num den k : Z) (last : string)
         (tries : nat) (n : Z) : string :=
  match find (reads x) (map (float_text neg) (candidates num den k n)) with
  | Some text => text
  | None =>
      match tries with
      | O => last
      | S tries => shortest x neg num den k last tries (n + 1)
      end
  end.

(** The exact value [m * 2^e] in decimal digits. *)
Definition exact_text (neg : bool) (m : positive) (e : Z) : string :=
  (if neg then "-" else EmptyString)
    ++ (if 0 <=? e then decimal_Z (Zpos m * 2 ^ e) ++ ".0"
        else decimal_Z (Zpos m * 5 ^ (- e)) ++ "e-" ++ decimal_Z (- e)).

(** [float.__repr__], which the encoder uses: the shortest decimal that
    reads back as [x], looked for among the decimals of 1 to 17 digits.
    One of these always reads back; if none did, the exact value would be
    written. *)
Definition floatstr (x : float) : string :=
  match Prim2SF x with
  | S754_nan => "NaN"
  | S754_infinity false => "Infinity"
  | S754_infinity true => "-Infinity"
  | S754_zero false => "0.0"
  | S754_zero true => "-0.0"
  | S754_finite neg m e =>
      let (num, den) := fraction m e in
      shortest x neg num den (decimal_point num den) (exact_text neg m e) 16 1
  end.

(** [int.__repr__], which the encoder uses. *)
Definition intstr (n : Z) : result exn string :=
  let text := decimal_Z (Z.abs n) in
  if (max_str_digits <? String.length text)%nat then
    Raise (ValueError
             (digits_limit
                ++ "; use sys.set_int_max_str_digits() to increase the limit"))
  else Ok (decimal_Z n).

(** The results of a list of computations, or what the first one that
    raises raises. *)
Fixpoint sequence {A : Type} (l : list (result exn A)) : result exn (list A) :=
  match l with
  | [] => Ok []
  | Ok a :: rest =>
      match sequence rest with
      | Ok more => Ok (a :: more)
      | Raise e => Raise e
      end
  | Raise e :: _ => Raise e
  end.

Definition encoding_depth : exn :=
  RecursionError "maximum recursion depth exceeded while encoding a JSON object".

(** The text of one member of an object, given the text of its value. *)
Definition member (k : string) (text : result exn string) : result exn string :=
  match text with
  | Ok t => Ok (encode_string k ++ ": " ++ t)%string
  | Raise e => Raise e
  end.

(** [json.dumps].  A list or a dictionary is entered only when [depth]
    allows. *)
Fixpoint dumps (depth : nat) (v : value) {struct v} : result exn string :=
  match v with
  | PNone => Ok "null"
  | PBool true => Ok "true"
  | PBool false => Ok "false"
  | PInt n => intstr n
  | PFloat x => Ok (floatstr x)
  | PStr s => Ok (encode_string s)
  | PList items =>
      match depth with
      | O => Raise encoding_depth
      | S depth =>
          match sequence (map (dumps depth) items) with
          | Ok parts => Ok ("[" ++ String.concat ", " parts ++ "]")%string
          | Raise e => Raise e
          end
      end
  | PDict entries =>
      match depth with
      | O => Raise encoding_depth
      | S depth =>
          match sequence (map (fun '(k, v) => member k (dumps depth v)) entries) with
          | Ok parts => Ok ("{" ++ String.concat ", " parts ++ "}")%string
          | Raise e => Raise e
          end
      end
  end.

(** The codec: the text of a [JSONDecodeError], the depth the decoder can
    reach and the depth the encoder can reach. *)
Definition codec (describe : string -> string) (decoding encoding : nat) : Json :=
  {| json_loads := loads describe decoding; json_dumps := dumps encoding |}.

(** JSON text written with single quotes in place of double quotes. *)
Fixpoint dq (s : string) : string :=
  match s with
  | String c rest =>
      String (if (code c =? 39)%nat then ascii_of_nat 34 else c) (dq rest)
  | EmptyString => EmptyString
  end.

(** JSON text written with backquotes in place of double quotes, for the
    texts that hold single quotes. *)
Fixpoint bq (s : string) : string :=
  match s with
  | String c rest =>
      String (if (code c =? 96)%nat then ascii_of_nat 34 else c) (bq rest)
  | EmptyString => EmptyString
  end.

(** *** Vocabulary for the round trip of the codec *)

(** What follows a value in an encoded text: the end of the text, or the
    character that ends an element or a member. *)
Inductive delimited : string -> Prop :=
| at_end : delimited EmptyString
| at_comma rest : delimited (String "," rest)
| at_bracket rest : delimited (String "]" rest)
| at_brace rest : delimited (String "}" rest).

(** A text that starts with neither whitespace nor a closing bracket. *)
Definition opens (s : string) : Prop :=
  match s with
  | String c _ => is_whitespace c = false /\ (code c =? 93)%nat = false
  | EmptyString => False
  end.

(** A text that does not go on with a digit. *)
Definition stops (s : string) : Prop :=
  match s with
  | String c _ => is_digit c = false
  | EmptyString => True
  end.

(** The mantissa and the exponent of a finite binary64 number other than
    zero: 53 bits at most, and exactly 53 unless the exponent is the least
    one. *)
Definition canonical (m : positive) (e : Z) : Prop :=
  Zpos m < 2 ^ 53 /\ -1074 <= e <= 971 /\ (2 ^ 52 <= Zpos m \/ e = -1074).

(** What a limit of the interpreter makes the decoder raise. *)
Inductive limit_error : exn -> Prop :=
| limit_digits n :
    limit_error
      (ValueError
         (digits_limit ++ ": value has " ++ Functions.decimal n
            ++ " digits; use sys.set_int_max_str_digits() to increase the limit"))
| limit_depth what : limit_error (decoding_depth what).

(** Decimal digits that start with a digit from 1 to 9. *)
Inductive leading : Decimal.uint -> Prop :=
| leading1 d : leading (Decimal.D1 d)
| leading2 d : leading (Decimal.D2 d)
| leading3 d : leading (Decimal.D3 d)
| leading4 d : leading (Decimal.D4 d)
| leading5 d : leading (Decimal.D5 d)
| leading6 d : leading (Decimal.D6 d)
| leading7 d : leading (Decimal.D7 d)
| leading8 d : leading (Decimal.D8 d)
| leading9 d : leading (Decimal.D9 d).

(** The number of nodes of a value. *)
Fixpoint size (v : value) : nat :=
  match v with
  | PList items => S (list_sum (map size items))
  | PDict entries => S (list_sum (map (fun '(_, v) => size v) entries))
  | _ => 1%nat
  end.

(** The values the codec exchanges at a given depth: the keys of a
    dictionary are distinct, as in every Python [dict], an integer has at
    most 4300 digits, and lists and dictionaries are nested no deeper than
    [depth]. *)
Inductive encodable : nat -> value -> Prop :=
| encodable_none depth : encodable depth PNone
| encodable_bool depth b : encodable depth (PBool b)
| encodable_int depth n :
    (String.length (decimal_Z (Z.abs n)) <= max_str_digits)%nat ->
    encodable depth (PInt n)
| encodable_float depth x : encodable depth (PFloat x)
| encodable_str depth s : encodable depth (PStr s)
| encodable_list depth items :
    Forall (encodable depth) items -> encodable (S depth) (PList items)
| encodable_dict depth entries :
    NoDup (keys entries) -> Forall (fun kv => encodable depth (snd kv)) entries ->
    encodable (S depth) (PDict entries).

(** *** The grammar of JSON texts

    The grammar of RFC 8259.  With [extended] set it also has the three
    constants [NaN], [Infinity] and [-Infinity], which are no JSON values
    and which [json.loads] accepts all the same. *)

Definition quote : ascii := Eval compute in ascii_of_nat 34.
Definition backslash : ascii := Eval compute in ascii_of_nat 92.

Inductive whitespace : string -> Prop :=
| ws_none : whitespace EmptyString
| ws_more c s : is_whitespace c = true -> whitespace s -> whitespace (String c s).

Inductive digits : string -> Prop :=
| digits_none : digits EmptyString
| digits_more c s : is_digit c = true -> digits s -> digits (String c s).

Inductive int_text : string -> Prop :=
| int_zero : int_text "0"
| int_nonzero c ds :
    is_digit c = true -> (code c =? 48)%nat = false -> digits ds ->
    int_text (String c ds).

Inductive frac_text : string -> Prop :=
| frac_none : frac_text EmptyString
| frac_some c ds :
    is_digit c = true -> digits ds -> frac_text (String "." (String c ds)).

Inductive sign_text : string -> Prop :=
| sign_none : sign_text EmptyString
| sign_plus : sign_text "+"
| sign_minus : sign_text "-".

Inductive exp_text : string -> Prop :=
| exp_none : exp_text EmptyString
| exp_some e sign c ds :
    e = "e"%char \/ e = "E"%char -> sign_text sign ->
    is_digit c = true -> digits ds ->
    exp_text (String e (sign ++ String c ds)).

Inductive number_text : string -> Prop :=
| number_plain i f e :
    int_text i -> frac_text f -> exp_text e -> number_text (i ++ f ++ e)
| number_minus i f e :
    int_text i -> frac_text f -> exp_text e ->
    number_text (String "-" (i ++ f ++ e)).

Definition is_hex (c : ascii) : bool :=
  match hex_value c with Some _ => true | None => false end.

Definition is_escape (c : ascii) : bool :=
  match unescape c with Some _ => true | None => false end.

Inductive chars_text : string -> Prop :=
| chars_none : chars_text EmptyString
| chars_plain c s :
    (code c <? 32)%nat = false -> (code c =? 34)%nat = false ->
    (code c =? 92)%nat = false ->
    chars_text s -> chars_text (String c s)
| chars_escape e s :
    is_escape e = true -> chars_text s ->
    chars_text (String backslash (String e s))
| chars_unicode h1 h2 h3 h4 s :
    is_hex h1 = true -> is_hex h2 = true -> is_hex h3 = true ->
    is_hex h4 = true -> chars_text s ->
    chars_text
      (String backslash (String "u" (String h1 (String h2 (String h3 (String h4 s)))))).

Section Grammar.
Variable extended : bool.

Inductive value_text : string -> Prop :=
| text_null : value_text "null"
| text_true : value_text "true"
| text_false : value_text "false"
| text_number s : number_text s -> value_text s
| text_string s :
    chars_text s -> value_text (String quote (s ++ String quote EmptyString))
| text_array_empty w : whitespace w -> value_text (String "[" (w ++ "]"))
| text_array es : elements_text es -> value_text (String "[" (es ++ "]"))
| text_object_empty w : whitespace w -> value_text (String "{" (w ++ "}"))
| text_object ms : members_text ms -> value_text (String "{" (ms ++ "}"))
| text_nan : extended = true -> value_text "NaN"
| text_infinity : extended = true -> value_text "Infinity"
| text_neg_infinity : extended = true -> value_text "-Infinity"
with elements_text : string -> Prop :=
| elements_one w1 v w2 :
    whitespace w1 -> value_text v -> whitespace w2 ->
    elements_text (w1 ++ v ++ w2)
| elements_more w1 v w2 es :
    whitespace w1 -> value_text v -> whitespace w2 -> elements_text es ->
    elements_text (w1 ++ v ++ w2 ++ String "," es)
with members_text : string -> Prop :=
| members_one w1 k w2 w3 v w4 :
    whitespace w1 -> chars_text k -> whitespace w2 -> whitespace w3 ->
    value_text v -> whitespace w4 ->
    members_text
      (w1 ++ String quote (k ++ String quote (w2 ++ String ":" (w3 ++ v ++ w4))))
| members_more w1 k w2 w3 v w4 ms :
    whitespace w1 -> chars_text k -> whitespace w2 -> whitespace w3 ->
    value_text v -> whitespace w4 -> members_text ms ->
    members_text
      (w1 ++ String quote
         (k ++ String quote
            (w2 ++ String ":" (w3 ++ v ++ w4 ++ String "," ms)))).

Definition json_text (s : string) : Prop :=
  exists w1 v w2,
    whitespace w1 /\ value_text v /\ whitespace w2 /\ s = (w1 ++ v ++ w2)%string.

End Grammar.

(** The characters a value can start with. *)
Definition starts_value (extended : bool) (c : ascii) : bool :=
  is_digit c
  || existsb (fun n => (code c =? n)%nat) [110; 116; 102; 34; 91; 123; 45]%nat
  || (extended && existsb (fun n => (code c =? n)%nat) [78; 73]%nat).

Definition starts_with_value (extended : bool) (s : string) : Prop :=
  match s with
  | String c _ => starts_value extended c = true
  | EmptyString => False
  end.

(** The last character of a text. *)
Fixpoint last_char (s : string) : option ascii :=
  match s with
  | EmptyString => None
  | String c EmptyString => Some c
  | String _ rest => last_char rest
  end.

(** The characters a value can end with. *)
Definition ends_value (c : ascii) : bool :=
  is_digit c
  || existsb (fun n => (code c =? n)%nat) [108; 101; 34; 93; 125; 78; 121]%nat.

End RefJson.

(** * Vocabulary of the specification *)

Import Protocol Functions Server Client.

(** The identifier extracted from a payload: the value under [request_id],
    null when there is none. *)
Definition extracted_id (payload : dict) : value :=
  match lookup "request_id" payload with
  | Some v => v
  | None => PNone
  end.

(** The Error response of the specification, field by field. *)
Definition error_response (request_id : value) (code message : string) : dict :=
  [ ("request_id", request_id);
    ("status", PStr "error");
    ("error", PDict [ ("code", PStr code); ("message", PStr message) ]) ].

(** The response that carries the result of a handler. *)
Definition ok_response (request_id result : value) : dict :=
  [ ("request_id", request_id); ("status", PStr "ok"); ("result", result) ].

(** Parameters that do not satisfy the contract of a handler: a name the
    handler does not declare, a declared name left out, or argument values
    the handler rejects with a [TypeError]. *)
Inductive contract_violation : callable -> dict -> Prop :=
| unexpected_name name parameters body params k :
    In k (keys params) -> ~ In k parameters ->
    contract_violation (def name parameters body) params
| missing_name name parameters body params p :
    In p parameters -> lookup p params = None ->
    contract_violation (def name parameters body) params
| rejected_values func params e :
    call func params = Raise e -> isinstance_exn e "TypeError" = true ->
    contract_violation func params.

(** The messages a connection yields before its iteration raises or ends. *)
Fixpoint received (events : list ws_event) : list string :=
  match events with
  | Recv raw :: rest => raw :: received rest
  | _ => []
  end.

(** The record the handler logs for a message. *)
Definition raw_message_record (peer raw : string) : effect :=
  LogDebug ("Raw message from " ++ peer ++ ": " ++ raw).

(** The connection stays open over the message [raw]: the handler performs
    [done] for it and goes on with whatever events follow. *)
Definition keeps_serving {J : Json} (registry : list (string * callable))
           (peer raw : string) (done : list effect) : Prop :=
  forall rest,
    message_loop registry peer (Recv raw :: rest)
    = (done ++ fst (message_loop registry peer rest),
       snd (message_loop registry peer rest)).

(** Every handler of a registry is synchronous. *)
Definition synchronous (registry : list (string * callable)) : Prop :=
  Forall (fun entry => iscoroutinefunction (snd entry) = false) registry.

(** A response to the request [request_id]: one that carries a result, or
    an Error. *)
Definition is_response (request_id : value) (resp : dict) : Prop :=
  (exists result, resp = ok_response request_id result)
  \/ (exists code message, resp = error_response request_id code message).

(** Whatever a handler of the registry raises is an [Exception]. *)
Definition raises_exceptions (registry : list (string * callable)) : Prop :=
  forall action func params e,
    lookup action registry = Some func ->
    call func params = Raise e ->
    isinstance_exn e "Exception" = true.

(** The identifier a message is answered under: that of the request it
    holds, or that of the error [parse_request] raises on it. *)
Definition correlation_id {J : Json} (raw : string) : value :=
  match parse_request raw with
  | Ok request => req_request_id request
  | Raise (RPC err) => request_id err
  | Raise (Exn _) => PNone
  end.

(** [json.loads] hits no limit of the interpreter on [raw]: if it raises,
    it raises a [JSONDecodeError]. *)
Definition within_limits {J : Json} (raw : string) : Prop :=
  forall e, json_loads raw = Raise e -> isinstance_exn e "JSONDecodeError" = true.

(** The messages whose handling comes to its end: those received before
    the first one on which an exception leaves the body of the loop. *)
Fixpoint answered {J : Json} (registry : list (string * callable))
         (peer : string) (raws : list string) : list string :=
  match raws with
  | [] => []
  | raw :: rest =>
      match snd (handle_message registry peer raw) with
      | None => raw :: answered registry peer rest
      | Some _ => []
      end
  end.

(** What the dispatcher does with an exception [e] of the [try] block of
    a request: the clauses [except TypeError] and [except Exception], and
    no clause for what is neither. *)
Definition handled {J : Json} (request : Request) (e : exn)
  : list effect * option exn :=
  if isinstance_exn e "TypeError" then
    send_json
      (error_response (req_request_id request) "invalid_params" (exn_str e))
  else if isinstance_exn e "Exception" then
    (LogException
       ("Unhandled error while executing '" ++ req_action request ++ "'") e
       :: fst (send_json
                 (error_response (req_request_id request) "server_error"
                                 (exn_str e))),
     snd (send_json
            (error_response (req_request_id request) "server_error"
                            (exn_str e))))
  else ([], Some e).

(** The codec of the examples: arrays and objects are followed a hundred
    deep, and a [JSONDecodeError] carries no text. *)
Definition json : Json := RefJson.codec (fun _ => EmptyString) 100 100.

(** A list nested [n] deep around the empty list. *)
Fixpoint nested (n : nat) : value :=
  match n with
  | O => PList []
  | S n => PList [nested n]
  end.

(** * Properties *)

(** ** The reference codec

    It reads back what it writes, within its limits, and it reads nothing
    but JSON texts. *)

Section ReferenceCodec.
Import RefJson.

Lemma append_assoc (a b c : string) : ((a ++ b) ++ c = a ++ (b ++ c))%string.
Proof. induction a as [|x a IH]; simpl; [reflexivity | now rewrite IH]. Qed.

Lemma append_empty (s : string) : (s ++ EmptyString)%string = s.
Proof. induction s as [|c s IH]; simpl; [reflexivity | now rewrite IH]. Qed.

Lemma length_append (a b : string) :
  String.length (a ++ b) = (String.length a + String.length b)%nat.
Proof. induction a as [|c a IH]; simpl; [reflexivity | now rewrite IH]. Qed.

(** *** Strings *)

Lemma scan_string_escape (c : ascii) (tail : string) :
  scan_string (escape c ++ tail) = cons_char c (scan_string tail).
Proof. destruct c as [[] [] [] [] [] [] [] []]; reflexivity. Qed.

Lemma scan_string_encoded (s rest : string) :
  scan_string (escape_all s ++ String (ascii_of_nat 34) rest) = Some (s, rest).
Proof.
  induction s as [|c s IH]; [reflexivity|].
  simpl. rewrite append_assoc, scan_string_escape, IH. reflexivity.
Qed.

Lemma encode_string_app (s rest : string) :
  (encode_string s ++ rest)%string
  = String (ascii_of_nat 34) (escape_all s ++ String (ascii_of_nat 34) rest).
Proof.
  unfold encode_string, char. cbn [append]. f_equal.
  now rewrite append_assoc.
Qed.

Lemma scan_once_string (fuel depth : nat) (s rest : string) :
  scan_once (S fuel) depth (encode_string s ++ rest) = Found (PStr s) rest.
Proof.
  rewrite encode_string_app. cbn [scan_once].
  change ((code (ascii_of_nat 34) =? 34)%nat) with true. cbv iota.
  now rewrite scan_string_encoded.
Qed.

(** *** Integers *)

Ltac eval_digit :=
  repeat match goal with
  | |- context [digit_value ?c] =>
      let v := eval vm_compute in (digit_value c) in
      change (digit_value c) with v
  end.

Lemma digits_value_acc (d : Decimal.uint) (acc : positive) :
  digits_value (Zpos acc) (NilEmpty.string_of_uint d)
  = Zpos (Pos.of_uint_acc d acc).
Proof.
  revert acc.
  induction d; intros acc;
    cbn [NilEmpty.string_of_uint digits_value Pos.of_uint_acc];
    [reflexivity|..];
    rewrite <- IHd; f_equal; eval_digit; lia.
Qed.

Lemma digits_value_uint (d : Decimal.uint) :
  digits_value 0 (NilEmpty.string_of_uint d) = Z.of_N (Pos.of_uint d).
Proof.
  induction d; cbn [NilEmpty.string_of_uint digits_value Pos.of_uint];
    eval_digit; try reflexivity; try assumption;
    apply (digits_value_acc d).
Qed.

Lemma digits_value_pos (p : positive) :
  digits_value 0 (NilEmpty.string_of_uint (Pos.to_uint p)) = Zpos p.
Proof. now rewrite digits_value_uint, DecimalPos.Unsigned.of_to. Qed.

Lemma unorm_leading (d : Decimal.uint) :
  Decimal.unorm d = Decimal.zero \/ leading (Decimal.unorm d).
Proof. induction d; simpl; auto; right; constructor. Qed.

Lemma to_uint_leading (p : positive) : leading (Pos.to_uint p).
Proof.
  assert (H : Decimal.unorm (Pos.to_uint p) = Pos.to_uint p).
  { rewrite <- DecimalPos.Unsigned.to_of, DecimalPos.Unsigned.of_to.
    reflexivity. }
  destruct (unorm_leading (Pos.to_uint p)) as [Hz | Hl].
  - rewrite H in Hz. now destruct (DecimalPos.Unsigned.to_uint_nonzero p).
  - now rewrite H in Hl.
Qed.

Lemma decimal_Z_pos (p : positive) :
  decimal_Z (Zpos p) = NilEmpty.string_of_uint (Pos.to_uint p).
Proof.
  unfold decimal_Z. cbn [Z.to_int NilZero.string_of_int].
  now destruct (to_uint_leading p).
Qed.

Lemma decimal_Z_neg (p : positive) :
  decimal_Z (Zneg p) = String "-" (NilEmpty.string_of_uint (Pos.to_uint p)).
Proof.
  unfold decimal_Z. cbn [Z.to_int NilZero.string_of_int].
  now destruct (to_uint_leading p).
Qed.

Lemma stops_delimited (rest : string) : delimited rest -> stops rest.
Proof. now intros []. Qed.

Lemma span_digits_uint (d : Decimal.uint) (rest : string) :
  stops rest ->
  span_digits (NilEmpty.string_of_uint d ++ rest)
  = (NilEmpty.string_of_uint d, rest).
Proof.
  intros Hrest.
  induction d; cbn [NilEmpty.string_of_uint append span_digits];
    [|rewrite IHd; reflexivity..].
  destruct rest as [|c rest]; [reflexivity|].
  simpl in Hrest. simpl. now rewrite Hrest.
Qed.

Lemma scan_int_uint (d : Decimal.uint) (rest : string) :
  leading d -> stops rest ->
  scan_int (NilEmpty.string_of_uint d ++ rest)
  = Some (NilEmpty.string_of_uint d, rest).
Proof.
  intros Hd Hrest. rewrite <- (span_digits_uint d rest Hrest).
  destruct Hd; reflexivity.
Qed.

Lemma scan_frac_delimited (rest : string) :
  delimited rest -> scan_frac rest = (EmptyString, rest).
Proof. now intros []. Qed.

Lemma scan_exp_delimited (rest : string) :
  delimited rest -> scan_exp rest = (None, rest).
Proof. now intros []. Qed.

Lemma length_uint_pos (p : positive) :
  String.length (decimal_Z (Z.abs (Zpos p)))
  = String.length (NilEmpty.string_of_uint (Pos.to_uint p)).
Proof. cbn [Z.abs]. now rewrite decimal_Z_pos. Qed.

Lemma scan_unsigned_uint (neg : bool) (p : positive) (rest : string) :
  (String.length (NilEmpty.string_of_uint (Pos.to_uint p)) <= max_str_digits)%nat ->
  delimited rest ->
  scan_unsigned neg (NilEmpty.string_of_uint (Pos.to_uint p) ++ rest)
  = Found (PInt (if neg then Zneg p else Zpos p)) rest.
Proof.
  intros Hlen Hrest. unfold scan_unsigned.
  rewrite (scan_int_uint _ rest (to_uint_leading p) (stops_delimited _ Hrest)),
    (scan_frac_delimited rest Hrest), (scan_exp_delimited rest Hrest).
  unfold int_of_digits.
  destruct (Nat.ltb_spec max_str_digits
              (String.length (NilEmpty.string_of_uint (Pos.to_uint p))))
    as [Hlt | _]; [lia|].
  rewrite digits_value_pos. now destruct neg.
Qed.

Lemma scan_number_decimal (z : Z) (rest : string) :
  (String.length (decimal_Z (Z.abs z)) <= max_str_digits)%nat ->
  delimited rest ->
  scan_number (decimal_Z z ++ rest) = Found (PInt z) rest.
Proof.
  intros Hlen Hrest. destruct z as [|p|p].
  - destruct Hrest; reflexivity.
  - rewrite length_uint_pos in Hlen. rewrite decimal_Z_pos.
    pose proof (to_uint_leading p) as Hlead.
    replace (scan_number (NilEmpty.string_of_uint (Pos.to_uint p) ++ rest))
      with (scan_unsigned false (NilEmpty.string_of_uint (Pos.to_uint p) ++ rest))
      by (now destruct Hlead).
    now rewrite scan_unsigned_uint.
  - change (Z.abs (Zneg p)) with (Z.abs (Zpos p)) in Hlen.
    rewrite length_uint_pos in Hlen. rewrite decimal_Z_neg.
    change (scan_number (String "-" ?u ++ rest))
      with (scan_unsigned true (u ++ rest)).
    now rewrite scan_unsigned_uint.
Qed.

Lemma decimal_Z_opens (z : Z) : opens (decimal_Z z).
Proof.
  destruct z as [|p|p].
  - now split.
  - rewrite decimal_Z_pos. destruct (to_uint_leading p); now split.
  - rewrite decimal_Z_neg. now split.
Qed.

Lemma scan_once_atom (fuel depth : nat) (c : ascii) (s : string) :
  (code c =? 34)%nat = false -> (code c =? 123)%nat = false ->
  (code c =? 91)%nat = false ->
  scan_once (S fuel) depth (String c s) = scan_atom (String c s).
Proof. intros H1 H2 H3. cbn [scan_once]. now rewrite H1, H2, H3. Qed.

Lemma scan_once_decimal (fuel depth : nat) (z : Z) (rest : string) :
  (String.length (decimal_Z (Z.abs z)) <= max_str_digits)%nat ->
  delimited rest ->
  scan_once (S fuel) depth (decimal_Z z ++ rest) = Found (PInt z) rest.
Proof.
  intros Hlen Hrest. pose proof (scan_number_decimal z rest Hlen Hrest) as Hscan.
  revert Hscan. clear Hlen.
  destruct z as [|p|p];
    [ change (decimal_Z 0) with "0"
    | rewrite decimal_Z_pos; destruct (to_uint_leading p) as [d|d|d|d|d|d|d|d|d]
    | rewrite decimal_Z_neg ];
    cbn [NilEmpty.string_of_uint append]; intros Hscan;
    (rewrite scan_once_atom by reflexivity);
    unfold scan_atom; cbn [strip_prefix Ascii.eqb Bool.eqb]; now rewrite Hscan.
Qed.

Lemma intstr_ok (n : Z) (text : string) :
  intstr n = Ok text ->
  text = decimal_Z n
  /\ (String.length (decimal_Z (Z.abs n)) <= max_str_digits)%nat.
Proof.
  unfold intstr.
  destruct (Nat.ltb_spec max_str_digits (String.length (decimal_Z (Z.abs n))));
    [discriminate|].
  intros [= <-]. split; [reflexivity | assumption].
Qed.

Lemma intstr_within (n : Z) :
  (String.length (decimal_Z (Z.abs n)) <= max_str_digits)%nat ->
  intstr n = Ok (decimal_Z n).
Proof.
  intros H. unfold intstr.
  destruct (Nat.ltb_spec max_str_digits (String.length (decimal_Z (Z.abs n))));
    [lia | reflexivity].
Qed.

(** *** A number is read the same whatever delimiter follows it *)

Lemma digits_value_app (a b : string) :
  forall acc, digits_value acc (a ++ b) = digits_value (digits_value acc a) b.
Proof. induction a as [|c a IH]; intros acc; simpl; [reflexivity | apply IH]. Qed.

Lemma span_digits_app (s : string) :
  forall ds r rest,
    span_digits s = (ds, r) -> stops rest ->
    span_digits (s ++ rest) = (ds, (r ++ rest)%string).
Proof.
  induction s as [|c s IH]; intros ds r rest H Hrest.
  - injection H as <- <-. destruct rest as [|c rest]; [reflexivity|].
    simpl in *. now rewrite Hrest.
  - simpl in *. destruct (is_digit c).
    + destruct (span_digits s) as [ds' r'] eqn:Hs. injection H as <- <-.
      now rewrite (IH ds' r' rest eq_refl Hrest).
    + injection H as <- <-. reflexivity.
Qed.

Lemma scan_int_app (s i r rest : string) :
  scan_int s = Some (i, r) -> stops rest ->
  scan_int (s ++ rest) = Some (i, (r ++ rest)%string).
Proof.
  destruct s as [|c s]; [discriminate|]. unfold scan_int. cbn [append].
  destruct (code c =? 48)%nat; [intros [= <- <-]; reflexivity|].
  destruct (is_digit c); [|discriminate].
  intros H Hrest.
  assert (Hspan : span_digits (String c s) = (i, r)) by congruence.
  change (String c (s ++ rest)) with (String c s ++ rest)%string.
  now rewrite (span_digits_app _ _ _ _ Hspan Hrest).
Qed.

Lemma scan_frac_app (s f r rest : string) :
  scan_frac s = (f, r) -> delimited rest ->
  scan_frac (s ++ rest) = (f, (r ++ rest)%string).
Proof.
  intros H Hrest. destruct s as [|c s].
  - injection H as <- <-. now destruct Hrest.
  - unfold scan_frac in *. cbn [append].
    destruct (code c =? 46)%nat; [|now injection H as <- <-].
    destruct (span_digits s) as [ds r'] eqn:Hs.
    rewrite (span_digits_app _ _ _ _ Hs (stops_delimited _ Hrest)).
    destruct ds; now injection H as <- <-.
Qed.

Lemma scan_sign_app (s : string) (negative : bool) (r rest : string) :
  scan_sign s = (negative, r) -> delimited rest ->
  scan_sign (s ++ rest) = (negative, (r ++ rest)%string).
Proof.
  intros H Hrest. destruct s as [|c s].
  - injection H as <- <-. now destruct Hrest.
  - unfold scan_sign in *. cbn [append].
    destruct (code c =? 45)%nat; [now injection H as <- <-|].
    destruct (code c =? 43)%nat; now injection H as <- <-.
Qed.

Lemma scan_exp_app (s : string) (e : option Z) (r rest : string) :
  scan_exp s = (e, r) -> delimited rest ->
  scan_exp (s ++ rest) = (e, (r ++ rest)%string).
Proof.
  intros H Hrest. destruct s as [|c s].
  - injection H as <- <-. now destruct Hrest.
  - unfold scan_exp in *. cbn [append].
    destruct ((code c =? 101)%nat || (code c =? 69)%nat);
      [|now injection H as <- <-].
    destruct (scan_sign s) as [negative unsigned] eqn:Hsign.
    rewrite (scan_sign_app _ _ _ _ Hsign Hrest).
    destruct (span_digits unsigned) as [ds r'] eqn:Hs.
    rewrite (span_digits_app _ _ _ _ Hs (stops_delimited _ Hrest)).
    destruct ds; now injection H as <- <-.
Qed.

Lemma scan_unsigned_app (neg : bool) (s : string) (v : value) (r rest : string) :
  scan_unsigned neg s = Found v r -> delimited rest ->
  scan_unsigned neg (s ++ rest) = Found v (r ++ rest)%string.
Proof.
  unfold scan_unsigned. intros H Hrest.
  destruct (scan_int s) as [[i r1]|] eqn:Hi; [|discriminate].
  rewrite (scan_int_app _ _ _ _ Hi (stops_delimited _ Hrest)).
  destruct (scan_frac r1) as [f r2] eqn:Hf.
  rewrite (scan_frac_app _ _ _ _ Hf Hrest).
  destruct (scan_exp r2) as [e r3] eqn:He.
  rewrite (scan_exp_app _ _ _ _ He Hrest).
  destruct f as [|c f], e as [e|];
    try (injection H as <- <-; reflexivity).
  destruct (int_of_digits neg i); [|discriminate].
  now injection H as <- <-.
Qed.

Lemma scan_number_app (s : string) (v : value) (r rest : string) :
  scan_number s = Found v r -> delimited rest ->
  scan_number (s ++ rest) = Found v (r ++ rest)%string.
Proof.
  destruct s as [|c s]; [discriminate|]. unfold scan_number. cbn [append].
  destruct (code c =? 45)%nat; intros H Hrest.
  - now apply scan_unsigned_app.
  - exact (scan_unsigned_app false (String c s) v r rest H Hrest).
Qed.

(** *** The mantissa and exponent of a binary64 number *)

Lemma digits2_pos_bounds (m : positive) :
  2 ^ (Zpos (digits2_pos m) - 1) <= Zpos m < 2 ^ Zpos (digits2_pos m).
Proof.
  induction m as [m IH|m IH|]; cbn [digits2_pos]; [| |split; reflexivity || lia].
  - rewrite Pos2Z.inj_succ.
    replace (Z.succ (Zpos (digits2_pos m)) - 1)
      with (Z.succ (Zpos (digits2_pos m) - 1)) by lia.
    rewrite !Z.pow_succ_r by lia. lia.
  - rewrite Pos2Z.inj_succ.
    replace (Z.succ (Zpos (digits2_pos m)) - 1)
      with (Z.succ (Zpos (digits2_pos m) - 1)) by lia.
    rewrite !Z.pow_succ_r by lia. lia.
Qed.

Lemma Prim2SF_canonical (x : float) (neg : bool) (m : positive) (e : Z) :
  Prim2SF x = S754_finite neg m e -> canonical m e.
Proof.
  intros Hx. pose proof (Prim2SF_valid x) as H. rewrite Hx in H.
  unfold SpecFloat.valid_binary, bounded, canonical_mantissa, fexp, SpecFloat.emin in H.
  apply andb_true_iff in H. destruct H as [Hm He].
  apply Z.eqb_eq in Hm. apply Z.leb_le in He.
  change prec with 53 in *. change emax with 1024 in *.
  pose proof (digits2_pos_bounds m) as [Hlo Hhi].
  set (d := Zpos (digits2_pos m)) in *.
  assert (Hd : 0 < d) by (unfold d; lia).
  unfold canonical.
  destruct (Z.max_spec (d + e - 53) (3 - 1024 - 53)) as [[Hlt Hmax] | [Hle Hmax]];
    rewrite Hmax in Hm.
  - assert (Hpow : 2 ^ d <= 2 ^ 53) by (apply Z.pow_le_mono_r; lia).
    lia.
  - assert (d = 53) as Hd53 by lia. rewrite Hd53 in *.
    change (53 - 1) with 52 in Hlo. lia.
Qed.

(** *** Comparison with a power of two, on a common scale *)

Lemma power_split (a b : Z) : 0 <= a -> 0 <= b -> 2 ^ (a + b) = 2 ^ a * 2 ^ b.
Proof. intros. now apply Z.pow_add_r. Qed.

Lemma power_pos (a : Z) : 0 <= a -> 0 < 2 ^ a.
Proof. intros. now apply Z.pow_pos_nonneg. Qed.

Lemma below_scaled (num den k N : Z) :
  Z.max k 0 <= N ->
  below num den k = (num * 2 ^ (N - k) <? den * 2 ^ N).
Proof.
  intros HN. unfold below, pow2.
  destruct (Z.le_gt_cases 0 k) as [Hk | Hk].
  - rewrite (Z.max_l k 0), (Z.max_r (- k) 0) by lia.
    replace N with (k + (N - k)) at 2 by lia.
    rewrite power_split by lia.
    pose proof (power_pos (N - k) ltac:(lia)) as HP.
    change (2 ^ 0) with 1. rewrite Z.mul_1_r.
    destruct (Z.ltb_spec num (den * 2 ^ k)) as [H | H];
      destruct (Z.ltb_spec (num * 2 ^ (N - k)) (den * (2 ^ k * 2 ^ (N - k))))
        as [H' | H']; try reflexivity; exfalso; nia.
  - rewrite (Z.max_r k 0), (Z.max_l (- k) 0) by lia.
    replace (N - k) with (- k + N) by lia.
    rewrite power_split by lia.
    pose proof (power_pos N ltac:(lia)) as HP.
    change (2 ^ 0) with 1. rewrite Z.mul_1_r.
    destruct (Z.ltb_spec (num * 2 ^ (- k)) den) as [H | H];
      destruct (Z.ltb_spec (num * (2 ^ (- k) * 2 ^ N)) (den * 2 ^ N))
        as [H' | H']; try reflexivity; exfalso; nia.
Qed.

(** The scaled numerator decreases as the exponent grows. *)
Lemma scaled_shift (num N k j : Z) :
  0 <= j -> k + j <= N ->
  num * 2 ^ (N - k) = num * 2 ^ (N - (k + j)) * 2 ^ j.
Proof.
  intros Hj HN. replace (N - k) with (N - (k + j) + j) by lia.
  rewrite power_split by lia. ring.
Qed.

Lemma scaled_mono (num N k k' : Z) :
  0 <= num -> k <= k' <= N -> num * 2 ^ (N - k') <= num * 2 ^ (N - k).
Proof.
  intros Hnum Hk. apply Z.mul_le_mono_nonneg_l; [assumption|].
  apply Z.pow_le_mono_r; lia.
Qed.

(** An exact binary fraction, on the scale [2^N]. *)
Lemma exact_scaled (num den : Z) (m : positive) (ex N : Z) :
  num * pow2 (- ex) = Zpos m * pow2 ex * den ->
  Z.max ex 0 <= N ->
  num * 2 ^ (N - ex) = Zpos m * (den * 2 ^ N).
Proof.
  unfold pow2. intros H HN.
  destruct (Z.le_gt_cases 0 ex) as [Hex | Hex].
  - rewrite (Z.max_l ex 0), (Z.max_r (- ex) 0) in H by lia.
    change (2 ^ 0) with 1 in H. rewrite Z.mul_1_r in H. rewrite H.
    replace N with (ex + (N - ex)) at 2 by lia.
    rewrite power_split by lia. ring.
  - rewrite (Z.max_r ex 0), (Z.max_l (- ex) 0) in H by lia.
    change (2 ^ 0) with 1 in H. rewrite Z.mul_1_r in H.
    replace (N - ex) with (- ex + N) by lia.
    rewrite power_split by lia.
    rewrite Z.mul_assoc, H. ring.
Qed.

Lemma binade_exact (num den : Z) (m : positive) (ex : Z) :
  0 < num -> 0 < den -> canonical m ex ->
  num * pow2 (- ex) = Zpos m * pow2 ex * den ->
  binade num den = ex.
Proof.
  intros Hnum Hden (Hm & Hex & Hnormal) Hexact. unfold binade.
  pose proof (Z.log2_spec num Hnum) as [Hn1 Hn2].
  pose proof (Z.log2_spec den Hden) as [Hd1 Hd2].
  pose proof (Z.log2_nonneg num) as Hl1.
  pose proof (Z.log2_nonneg den) as Hl2.
  set (l1 := Z.log2 num) in *. set (l2 := Z.log2 den) in *.
  replace (l1 - l2 - 53 + 53) with (l1 - l2) by lia.
  set (L := l1 - l2).
  set (N := Z.max (L + 1) 0 + 2200).
  assert (HN : 0 <= N) by (unfold N; lia).
  pose proof (power_pos N HN) as HPN.
  set (D := den * 2 ^ N).
  assert (HD : 0 < D) by (unfold D; nia).
  (* the number is below 2^(L+1) and not below 2^(L-1) *)
  assert (Hupper : num * 2 ^ (N - (L + 1)) < D).
  { unfold D. 
    assert (H1 : num * 2 ^ (N - (L + 1)) < 2 ^ Z.succ l1 * 2 ^ (N - (L + 1))).
    { apply Z.mul_lt_mono_pos_r; [apply power_pos; unfold N; lia | assumption]. }
    rewrite <- power_split in H1 by (unfold N, L; lia).
    replace (Z.succ l1 + (N - (L + 1))) with (l2 + N) in H1 by (unfold L; lia).
    rewrite power_split in H1 by lia. nia. }
  assert (Hlower : D <= num * 2 ^ (N - (L - 1))).
  { unfold D.
    assert (H1 : 2 ^ l1 * 2 ^ (N - (L - 1)) <= num * 2 ^ (N - (L - 1))).
    { apply Z.mul_le_mono_nonneg_r; [apply Z.lt_le_incl, power_pos; unfold N; lia
                                    | assumption]. }
    rewrite <- power_split in H1 by (unfold N, L; lia).
    replace (l1 + (N - (L - 1))) with (Z.succ l2 + N) in H1 by (unfold L; lia).
    rewrite power_split in H1 by lia. nia. }
  pose proof (exact_scaled num den m ex N Hexact ltac:(unfold N; lia)) as Hscaled.
  fold D in Hscaled.
  (* the number is below 2^(ex+53) *)
  assert (Htop : num * 2 ^ (N - (ex + 53)) < D).
  { rewrite (scaled_shift num N ex 53) in Hscaled by (unfold N; lia).
    assert (H53 : 0 < 2 ^ 53) by reflexivity. nia. }
  rewrite (below_scaled num den L N) by (unfold N; lia). fold D.
  destruct Hnormal as [Hnormal | Hsub].
  - assert (Hbottom : D <= num * 2 ^ (N - (ex + 52))).
    { rewrite (scaled_shift num N ex 52) in Hscaled by (unfold N; lia).
      assert (H52 : 0 < 2 ^ 52) by reflexivity. nia. }
    destruct (Z.ltb_spec (num * 2 ^ (N - L)) D) as [Hb | Hb].
    + (* 2^(L-1) <= q < 2^L *)
      assert (ex + 53 <= L).
      { destruct (Z.le_gt_cases (ex + 53) L) as [|Hgt]; [assumption|].
        pose proof (scaled_mono num N L (ex + 52) ltac:(lia) ltac:(unfold N; lia)).
        lia. }
      assert (L <= ex + 53).
      { destruct (Z.le_gt_cases L (ex + 53)) as [|Hgt]; [assumption|].
        pose proof (scaled_mono num N (ex + 53) (L - 1) ltac:(lia)
                      ltac:(unfold N; lia)).
        lia. }
      lia.
    + (* 2^L <= q < 2^(L+1) *)
      assert (L <= ex + 52).
      { destruct (Z.le_gt_cases L (ex + 52)) as [|Hgt]; [assumption|].
        pose proof (scaled_mono num N (ex + 53) L ltac:(lia) ltac:(unfold N; lia)).
        lia. }
      assert (ex + 52 <= L).
      { destruct (Z.le_gt_cases (ex + 52) L) as [|Hgt]; [assumption|].
        pose proof (scaled_mono num N (L + 1) (ex + 52) ltac:(lia)
                      ltac:(unfold N; lia)).
        lia. }
      lia.
  - subst ex.
    assert (Hsmall : Zpos m < 2 ^ 52 \/ 2 ^ 52 <= Zpos m) by lia.
    destruct Hsmall as [Hsmall | Hbig].
    + assert (Htop' : num * 2 ^ (N - (-1022)) < D).
      { rewrite (scaled_shift num N (-1074) 52) in Hscaled by (unfold N; lia).
        change (-1074 + 52) with (-1022) in Hscaled.
        assert (H52 : 0 < 2 ^ 52) by reflexivity. nia. }
      destruct (Z.ltb_spec (num * 2 ^ (N - L)) D) as [Hb | Hb].
      * assert (L <= -1022).
        { destruct (Z.le_gt_cases L (-1022)) as [|Hgt]; [assumption|].
          pose proof (scaled_mono num N (-1022) (L - 1) ltac:(lia)
                        ltac:(unfold N; lia)).
          lia. }
        lia.
      * assert (L < -1022).
        { destruct (Z.lt_ge_cases L (-1022)) as [|Hge]; [assumption|].
          pose proof (scaled_mono num N (-1022) L ltac:(lia) ltac:(unfold N; lia)).
          lia. }
        lia.
    + assert (Hbottom : D <= num * 2 ^ (N - (-1074 + 52))).
      { rewrite (scaled_shift num N (-1074) 52) in Hscaled by (unfold N; lia).
        assert (H52 : 0 < 2 ^ 52) by reflexivity. nia. }
      destruct (Z.ltb_spec (num * 2 ^ (N - L)) D) as [Hb | Hb].
      * assert (-1074 + 53 <= L).
        { destruct (Z.le_gt_cases (-1074 + 53) L) as [|Hgt]; [assumption|].
          pose proof (scaled_mono num N L (-1074 + 52) ltac:(lia)
                        ltac:(unfold N; lia)).
          lia. }
        assert (L <= -1074 + 53).
        { destruct (Z.le_gt_cases L (-1074 + 53)) as [|Hgt]; [assumption|].
          pose proof (scaled_mono num N (-1074 + 53) (L - 1) ltac:(lia)
                        ltac:(unfold N; lia)).
          lia. }
        lia.
      * assert (L <= -1074 + 52).
        { destruct (Z.le_gt_cases L (-1074 + 52)) as [|Hgt]; [assumption|].
          pose proof (scaled_mono num N (-1074 + 53) L ltac:(lia)
                        ltac:(unfold N; lia)).
          lia. }
        assert (-1074 + 52 <= L).
        { destruct (Z.le_gt_cases (-1074 + 52) L) as [|Hgt]; [assumption|].
          pose proof (scaled_mono num N (L + 1) (-1074 + 52) ltac:(lia)
                        ltac:(unfold N; lia)).
          lia. }
        lia.
Qed.

(** A fraction that is a binary64 number is its own nearest number. *)
Lemma nearest_exact (neg : bool) (num den : Z) (m : positive) (ex : Z) :
  0 < num -> 0 < den -> canonical m ex ->
  num * pow2 (- ex) = Zpos m * pow2 ex * den ->
  nearest neg num den = S754_finite neg m ex.
Proof.
  intros Hnum Hden Hc Hexact. unfold nearest.
  rewrite (binade_exact num den m ex Hnum Hden Hc Hexact).
  destruct Hc as (Hm & Hex & _).
  destruct (Z.ltb_spec 971 ex) as [Hbig | _]; [lia|].
  pose proof (exact_scaled num den m ex 971 Hexact ltac:(lia)) as Hscaled.
  cbv zeta. rewrite Hscaled.
  assert (Hsd : 0 < den * 2 ^ 971) by (pose proof (power_pos 971 ltac:(lia)); nia).
  rewrite Z.div_mul by lia. rewrite Z.mod_mul by lia.
  change (2 * 0) with 0.
  destruct (Z.compare_spec 0 (den * 2 ^ 971)) as [H | H | H]; try lia.
  destruct (Z.eqb_spec (Zpos m) (2 ^ 53)) as [Heq | _]; [lia | reflexivity].
Qed.

(** *** Floats *)

Lemma scan_number_start (s : string) (v : value) (r : string) :
  scan_number s = Found v r ->
  exists c s', s = String c s' /\ (is_digit c = true \/ (code c =? 45)%nat = true).
Proof.
  destruct s as [|c s]; [discriminate|]. unfold scan_number.
  intros H. exists c, s. split; [reflexivity|].
  destruct (code c =? 45)%nat eqn:Hc; [now right|]. left.
  unfold scan_unsigned, scan_int in H.
  destruct (code c =? 48)%nat eqn:H0.
  - apply Nat.eqb_eq in H0. unfold is_digit. now rewrite H0.
  - destruct (is_digit c); [reflexivity | discriminate].
Qed.

Lemma number_start_opens (c : ascii) (s : string) :
  is_digit c = true \/ (code c =? 45)%nat = true -> opens (String c s).
Proof.
  destruct c as [[] [] [] [] [] [] [] []]; intros [H | H];
    try discriminate H; now split.
Qed.

Lemma scan_once_number (fuel depth : nat) (s : string) (v : value) (r : string) :
  scan_number s = Found v r -> scan_once (S fuel) depth s = Found v r.
Proof.
  intros H. destruct (scan_number_start s v r H) as (c & s' & -> & Hc).
  revert H Hc. destruct c as [[] [] [] [] [] [] [] []]; intros H [Hc | Hc];
    try discriminate Hc;
    (rewrite scan_once_atom by reflexivity);
    unfold scan_atom; cbn [strip_prefix Ascii.eqb Bool.eqb]; rewrite H;
    reflexivity.
Qed.

Lemma reads_scan (x : float) (text : string) :
  reads x text = true -> scan_number text = Found (PFloat x) EmptyString.
Proof.
  unfold reads.
  destruct (scan_number text) as [[| | |y| | |] [|? ?]| |]; try discriminate.
  intros H. apply FloatAxioms.Leibniz.eqb_spec in H. now subst.
Qed.

Lemma scan_reads (x : float) (text : string) :
  scan_number text = Found (PFloat x) EmptyString -> reads x text = true.
Proof.
  unfold reads. intros ->. now apply FloatAxioms.Leibniz.eqb_spec.
Qed.

(** A text that reads as a float is read as that float wherever the
    encoder writes it. *)
Lemma reads_delimited (x : float) (text : string) :
  reads x text = true ->
  opens text
  /\ forall fuel depth rest,
      delimited rest ->
      scan_once (S fuel) depth (text ++ rest) = Found (PFloat x) rest.
Proof.
  intros H. apply reads_scan in H. split.
  - destruct (scan_number_start _ _ _ H) as (c & s & -> & Hc).
    now apply number_start_opens.
  - intros fuel depth rest Hrest. apply scan_once_number.
    exact (scan_number_app _ _ _ _ H Hrest).
Qed.

Lemma shortest_reads (x : float) (neg : bool) (num den k : Z) (last : string)
      (tries : nat) :
  reads x last = true ->
  forall n, reads x (shortest x neg num den k last tries n) = true.
Proof.
  intros Hlast. induction tries as [|tries IH]; intros n; cbn [shortest];
    destruct (find (reads x) (map (float_text neg) (candidates num den k n)))
      as [text|] eqn:Hfind;
    try exact (proj2 (find_some _ _ Hfind)); [exact Hlast | apply IH].
Qed.

(** *** The exact text of a float reads back *)

Lemma uint_nonempty (d : Decimal.uint) :
  leading d -> exists c s, NilEmpty.string_of_uint d = String c s.
Proof. intros []; cbn [NilEmpty.string_of_uint]; eauto. Qed.

Lemma scan_fraction_text (neg : bool) (p : positive) :
  scan_unsigned neg (NilEmpty.string_of_uint (Pos.to_uint p) ++ ".0")
  = Found (PFloat (float_of_decimal neg (10 * Zpos p) (-1))) EmptyString.
Proof.
  unfold scan_unsigned.
  rewrite (scan_int_uint _ ".0" (to_uint_leading p)) by reflexivity.
  change (scan_frac ".0") with ("0", EmptyString).
  change (scan_exp EmptyString) with (@None Z, EmptyString).
  cbv beta iota.
  rewrite digits_value_app, digits_value_pos.
  change (digits_value (Zpos p) "0") with (10 * Zpos p + digit_value "0").
  change (digit_value "0") with 0. rewrite Z.add_0_r.
  reflexivity.
Qed.

Lemma scan_exp_negative (q : positive) :
  scan_exp (String "e" (String "-" (NilEmpty.string_of_uint (Pos.to_uint q))))
  = (Some (Zneg q), EmptyString).
Proof.
  unfold scan_exp.
  change ((code "e" =? 101)%nat || (code "e" =? 69)%nat) with true. cbv iota.
  unfold scan_sign. change ((code "-" =? 45)%nat) with true. cbv iota.
  pose proof (span_digits_uint (Pos.to_uint q) EmptyString I) as Hs.
  rewrite append_empty in Hs. rewrite Hs.
  pose proof (digits_value_pos q) as Hv.
  destruct (uint_nonempty _ (to_uint_leading q)) as (c & s & Hu).
  rewrite Hu in *. cbv iota. now rewrite Hv.
Qed.

Lemma scan_exponent_text (neg : bool) (p q : positive) :
  scan_unsigned neg
    (NilEmpty.string_of_uint (Pos.to_uint p)
       ++ "e-" ++ NilEmpty.string_of_uint (Pos.to_uint q))
  = Found (PFloat (float_of_decimal neg (Zpos p) (Zneg q))) EmptyString.
Proof.
  unfold scan_unsigned. cbn [append].
  rewrite (scan_int_uint _ _ (to_uint_leading p)) by reflexivity.
  unfold scan_frac. change ((code "e" =? 46)%nat) with false. cbv iota.
  rewrite scan_exp_negative. cbv beta iota.
  rewrite append_empty, digits_value_pos.
  reflexivity.
Qed.

Lemma scan_signed (neg : bool) (p : positive) (tail : string) (v : value) :
  scan_unsigned neg (NilEmpty.string_of_uint (Pos.to_uint p) ++ tail)
  = Found v EmptyString ->
  scan_number ((if neg then "-" else EmptyString)
                 ++ NilEmpty.string_of_uint (Pos.to_uint p) ++ tail)
  = Found v EmptyString.
Proof.
  intros H. destruct neg; [exact H|]. cbn [append].
  revert H. destruct (to_uint_leading p); cbn [NilEmpty.string_of_uint append];
    intros H; exact H.
Qed.

Lemma exact_text_scan (neg : bool) (m : positive) (e : Z) :
  canonical m e ->
  scan_number (exact_text neg m e)
  = Found (PFloat (SF2Prim (S754_finite neg m e))) EmptyString.
Proof.
  intros Hc. unfold exact_text.
  destruct (Z.leb_spec 0 e) as [He | He].
  - assert (Hpos : 0 < Zpos m * 2 ^ e)
      by (pose proof (power_pos e He); nia).
    destruct (Zpos m * 2 ^ e) as [|p|p] eqn:Hp; try lia.
    rewrite decimal_Z_pos. apply scan_signed. rewrite scan_fraction_text.
    unfold float_of_decimal.
    change (10 * Zpos p <=? 0) with false. change (0 <=? -1) with false.
    cbv iota. change (10 ^ (- -1)) with 10.
    rewrite (nearest_exact neg (10 * Zpos p) 10 m e); try lia; try assumption.
    + reflexivity.
    + unfold pow2. rewrite (Z.max_r (- e) 0), (Z.max_l e 0) by lia.
      rewrite <- Hp. change (2 ^ 0) with 1. ring.
  - assert (Hpos : 0 < Zpos m * 5 ^ (- e))
      by (pose proof (Z.pow_pos_nonneg 5 (- e) ltac:(lia) ltac:(lia)); nia).
    destruct (Zpos m * 5 ^ (- e)) as [|p|p] eqn:Hp; try lia.
    destruct e as [|q|q]; try lia.
    change (- Zneg q) with (Zpos q) in *.
    rewrite !decimal_Z_pos. apply scan_signed. rewrite scan_exponent_text.
    unfold float_of_decimal.
    change (Zpos p <=? 0) with false. change (0 <=? Zneg q) with false.
    cbv iota. change (- Zneg q) with (Zpos q).
    rewrite (nearest_exact neg (Zpos p) (10 ^ Zpos q) m (Zneg q));
      try lia; try assumption.
    + reflexivity.
    + unfold pow2. change (- Zneg q) with (Zpos q).
      rewrite (Z.max_l (Zpos q) 0), (Z.max_r (Zneg q) 0) by lia.
      rewrite <- Hp. change 10 with (5 * 2). rewrite Z.pow_mul_l.
      change (2 ^ 0) with 1. ring.
Qed.

Lemma exact_text_reads (x : float) (neg : bool) (m : positive) (e : Z) :
  Prim2SF x = S754_finite neg m e -> reads x (exact_text neg m e) = true.
Proof.
  intros Hx. apply scan_reads.
  rewrite (exact_text_scan neg m e (Prim2SF_canonical x neg m e Hx)).
  now rewrite <- Hx, SF2Prim_Prim2SF.
Qed.

(** *** Every float is written as a text that reads back as that float *)

Lemma floatstr_special (x : float) (sf : spec_float) :
  Prim2SF x = sf -> x = SF2Prim sf.
Proof. intros <-. symmetry. apply SF2Prim_Prim2SF. Qed.

Lemma floatstr_reads_back (x : float) :
  opens (floatstr x)
  /\ forall fuel depth rest,
      delimited rest ->
      scan_once (S fuel) depth (floatstr x ++ rest) = Found (PFloat x) rest.
Proof.
  unfold floatstr. destruct (Prim2SF x) as [[]|[]| |neg m e] eqn:Hx.
  - rewrite (floatstr_special x _ Hx). split; [now split|].
    intros fuel depth rest [|r|r|r]; reflexivity.
  - rewrite (floatstr_special x _ Hx). split; [now split|].
    intros fuel depth rest [|r|r|r]; reflexivity.
  - rewrite (floatstr_special x _ Hx). split; [now split|].
    intros fuel depth rest Hrest. reflexivity.
  - rewrite (floatstr_special x _ Hx). split; [now split|].
    intros fuel depth rest Hrest. reflexivity.
  - rewrite (floatstr_special x _ Hx). split; [now split|].
    intros fuel depth rest Hrest. reflexivity.
  - destruct (fraction m e) as [num den].
    apply reads_delimited, shortest_reads, exact_text_reads, Hx.
Qed.

Lemma floatstr_opens (x : float) : opens (floatstr x).
Proof. exact (proj1 (floatstr_reads_back x)). Qed.

Lemma floatstr_scan (x : float) (fuel depth : nat) (rest : string) :
  delimited rest ->
  scan_once (S fuel) depth (floatstr x ++ rest) = Found (PFloat x) rest.
Proof. exact (proj2 (floatstr_reads_back x) fuel depth rest). Qed.

(** *** Whitespace and the opening of containers *)

Lemma skip_whitespace_opens (s r : string) :
  opens s -> skip_whitespace (s ++ r) = (s ++ r)%string.
Proof. destruct s as [|c s]; simpl; [tauto|]. now intros [-> _]. Qed.

Lemma skip_whitespace_space (s : string) :
  skip_whitespace (String " " s) = skip_whitespace s.
Proof. reflexivity. Qed.

Lemma skip_whitespace_delimited (rest : string) :
  delimited rest -> skip_whitespace rest = rest.
Proof. now intros []. Qed.

Lemma scan_once_list_open (fuel depth : nat) (s rest : string) :
  opens s ->
  scan_once (S fuel) (S depth) (String "[" (s ++ rest))
  = match scan_elements (scan_once fuel depth) fuel (s ++ rest) with
    | Found vs rest' => Found (PList vs) rest'
    | Malformed => Malformed
    | Failed e => Failed e
    end.
Proof.
  destruct s as [|c s]; [intros []|]. intros [Hws Hclose].
  cbn [append]. revert Hws Hclose.
  destruct c as [[] [] [] [] [] [] [] []]; intros Hws Hclose;
    try discriminate Hws; try discriminate Hclose; reflexivity.
Qed.

Lemma scan_once_dict_open (fuel depth : nat) (s : string) :
  scan_once (S fuel) (S depth) (String "{" (String (ascii_of_nat 34) s))
  = match scan_members (scan_once fuel depth) fuel (String (ascii_of_nat 34) s) with
    | Found pairs rest' => Found (PDict (dict_of_pairs pairs)) rest'
    | Malformed => Malformed
    | Failed e => Failed e
    end.
Proof. reflexivity. Qed.

Lemma size_pos (v : value) : (1 <= size v)%nat.
Proof. destruct v; simpl; lia. Qed.

Lemma length_le_sizes {A : Type} (f : A -> nat) (l : list A) :
  (forall x, 1 <= f x)%nat -> (length l <= list_sum (map f l))%nat.
Proof.
  intros Hf. induction l as [|x l IH]; simpl; [lia|].
  pose proof (Hf x). lia.
Qed.

(** *** The parts of an encoded container *)

Lemma sequence_ok {A B : Type} (f : A -> result exn B) (l : list A) (parts : list B) :
  sequence (map f l) = Ok parts <-> Forall2 (fun a t => f a = Ok t) l parts.
Proof.
  revert parts. induction l as [|a l IH]; intros parts; simpl.
  - split; [intros [= <-]; constructor | intros H; now inversion H].
  - destruct (f a) as [t|e] eqn:Ha.
    + destruct (sequence (map f l)) as [more|e] eqn:Hl.
      * split.
        -- intros [= <-]. constructor; [assumption | now apply IH].
        -- intros H. inversion H as [|? t' ? more' Ht Hmore]; subst.
           apply IH in Hmore. congruence.
      * split; [discriminate|].
        intros H. inversion H as [|? t' ? more' Ht Hmore]; subst.
        apply IH in Hmore. discriminate.
    + split; [discriminate|].
      intros H. inversion H; subst. congruence.
Qed.

Lemma dumps_list (depth : nat) (items : list value) (text : string) :
  dumps depth (PList items) = Ok text ->
  exists depth' parts,
    depth = S depth'
    /\ Forall2 (fun v t => dumps depth' v = Ok t) items parts
    /\ text = ("[" ++ String.concat ", " parts ++ "]")%string.
Proof.
  destruct depth as [|depth']; [discriminate|]. cbn [dumps].
  destruct (sequence (map (dumps depth') items)) as [parts|e] eqn:Hparts;
    [|discriminate].
  intros [= <-]. exists depth', parts. apply sequence_ok in Hparts. auto.
Qed.

Lemma dumps_dict (depth : nat) (entries : list (string * value)) (text : string) :
  dumps depth (PDict entries) = Ok text ->
  exists depth' parts,
    depth = S depth'
    /\ Forall2 (fun kv t => exists tv, dumps depth' (snd kv) = Ok tv
                                      /\ t = (encode_string (fst kv) ++ ": " ++ tv)%string)
               entries parts
    /\ text = ("{" ++ String.concat ", " parts ++ "}")%string.
Proof.
  destruct depth as [|depth']; [discriminate|]. cbn [dumps].
  destruct (sequence (map (fun '(k, v) => member k (dumps depth' v)) entries))
    as [parts|e] eqn:Hparts; [|discriminate].
  intros [= <-]. exists depth', parts. apply sequence_ok in Hparts.
  split; [reflexivity|]. split; [|reflexivity].
  induction Hparts as [|[k v] t entries parts Ht _ IH]; constructor; [|exact IH].
  unfold member in Ht. cbn [fst snd].
  destruct (dumps depth' v) as [tv|] eqn:Hv; [|discriminate].
  injection Ht as <-. now exists tv.
Qed.

Lemma dumps_opens (depth : nat) (v : value) (text : string) :
  dumps depth v = Ok text -> opens text.
Proof.
  destruct v as [|b|n|x|s|items|entries].
  - intros [= <-]. now split.
  - destruct b; intros [= <-]; now split.
  - intros H. apply intstr_ok in H. destruct H as [-> _]. apply decimal_Z_opens.
  - intros [= <-]. apply floatstr_opens.
  - intros [= <-]. now split.
  - intros H. destruct (dumps_list _ _ _ H) as (d & parts & _ & _ & ->). now split.
  - intros H. destruct (dumps_dict _ _ _ H) as (d & parts & _ & _ & ->). now split.
Qed.

Lemma concat_opens (parts : list string) :
  Forall opens parts -> parts <> [] -> opens (String.concat ", " parts).
Proof.
  intros Hparts Hne. destruct parts as [|x xs]; [contradiction|].
  pose proof (Forall_inv Hparts) as Hopen.
  cbn [String.concat]. destruct xs; [assumption|].
  destruct x; [destruct Hopen | exact Hopen].
Qed.

(** *** Dictionaries with distinct keys *)

Lemma set_fresh (k : string) (v : value) (d : dict) :
  ~ In k (keys d) -> Py.set k v d = d ++ [(k, v)].
Proof.
  induction d as [|[k' w] d IH]; intros Hfresh; [reflexivity|].
  simpl in *. destruct (String.eqb_spec k k') as [-> | _]; [tauto|].
  rewrite IH; [reflexivity | tauto].
Qed.

Lemma dict_of_pairs_app (pairs acc : dict) :
  NoDup (keys (acc ++ pairs)) ->
  fold_left (fun d kv => Py.set (fst kv) (snd kv) d) pairs acc = acc ++ pairs.
Proof.
  revert acc. induction pairs as [|[k v] pairs IH]; intros acc Hnodup.
  - now rewrite List.app_nil_r.
  - cbn [fold_left fst snd].
    assert (Hfresh : ~ In k (keys acc)).
    { unfold keys in *. rewrite map_app in Hnodup. cbn [map fst] in Hnodup.
      apply NoDup_remove_2 in Hnodup. rewrite in_app_iff in Hnodup. tauto. }
    rewrite (set_fresh k v acc Hfresh), IH, <- List.app_assoc; [reflexivity|].
    now rewrite <- List.app_assoc.
Qed.

Lemma dict_of_pairs_distinct (pairs : dict) :
  NoDup (keys pairs) -> dict_of_pairs pairs = pairs.
Proof. intros H. exact (dict_of_pairs_app pairs [] H). Qed.

(** *** Elements and members, given the scanner of their values *)

Section Containers.
Variable fuel decoding encoding : nat.
Hypothesis scan_values :
  forall v text,
    encodable decoding v -> dumps encoding v = Ok text -> (size v <= fuel)%nat ->
    forall rest, delimited rest ->
    scan_once fuel decoding (text ++ rest) = Found v rest.

Lemma scan_elements_dumps (items : list value) (parts : list string) :
  Forall2 (fun v t => dumps encoding v = Ok t) items parts ->
  Forall (encodable decoding) items -> items <> [] ->
  forall n rest,
    (list_sum (map size items) <= fuel)%nat -> (length items <= n)%nat ->
    scan_elements (scan_once fuel decoding) n
      (String.concat ", " parts ++ String "]" rest)
    = Found items rest.
Proof.
  induction 1 as [|x t xs ts Ht Hts IH]; intros Hitems Hne n rest Hsize Hlen;
    [contradiction|].
  pose proof (Forall_inv Hitems) as Hx.
  pose proof (Forall_inv_tail Hitems) as Hxs.
  destruct n as [|n]; [simpl in Hlen; lia|].
  destruct Hts as [|y t' ys ts' Ht' Hts'].
  - cbn [String.concat scan_elements].
    rewrite (scan_values x t);
      [reflexivity | assumption | assumption | simpl in *; lia | constructor].
  - assert (Htail : opens (String.concat ", " (t' :: ts'))).
    { apply concat_opens; [|discriminate].
      constructor; [exact (dumps_opens _ _ _ Ht')|].
      clear -Hts'. induction Hts' as [|? ? ? ? H]; constructor;
        [exact (dumps_opens _ _ _ H) | assumption]. }
    change (String.concat ", " (t :: t' :: ts'))
      with (t ++ ", " ++ String.concat ", " (t' :: ts'))%string.
    rewrite !append_assoc. cbn [append scan_elements].
    rewrite (scan_values x t); [| assumption | assumption | simpl in *; lia | constructor].
    rewrite skip_whitespace_delimited by constructor.
    rewrite skip_whitespace_space, (skip_whitespace_opens _ _ Htail).
    rewrite IH; [reflexivity | assumption | discriminate | simpl in *; lia..].
Qed.

Lemma scan_member (k : string) (v : value) (tv : string) (n : nat) (rest : string) :
  encodable decoding v -> dumps encoding v = Ok tv -> (size v <= fuel)%nat ->
  delimited rest ->
  scan_members (scan_once fuel decoding) (S n)
    ((encode_string k ++ ": " ++ tv) ++ rest)
  = match skip_whitespace rest with
    | String c rest' =>
        if (code c =? 125)%nat then Found [(k, v)] rest'
        else if (code c =? 44)%nat then
          match scan_members (scan_once fuel decoding) n (skip_whitespace rest') with
          | Found kvs rest'' => Found ((k, v) :: kvs) rest''
          | Malformed => Malformed
          | Failed e => Failed e
          end
        else Malformed
    | EmptyString => Malformed
    end.
Proof.
  intros Hv Htv Hsize Hrest.
  rewrite !append_assoc, encode_string_app. cbn [scan_members].
  change ((code (ascii_of_nat 34) =? 34)%nat) with true. cbv iota.
  rewrite scan_string_encoded. cbn [append].
  change (skip_whitespace (String ":" ?s)) with (String ":" s).
  change ((code ":" =? 58)%nat) with true.
  cbv iota. rewrite skip_whitespace_space.
  rewrite (skip_whitespace_opens _ _ (dumps_opens _ _ _ Htv)).
  now rewrite (scan_values v tv).
Qed.

Lemma scan_members_dumps (entries : list (string * value)) (parts : list string) :
  Forall2 (fun kv t => exists tv, dumps encoding (snd kv) = Ok tv
                                  /\ t = (encode_string (fst kv) ++ ": " ++ tv)%string)
          entries parts ->
  Forall (fun kv => encodable decoding (snd kv)) entries -> entries <> [] ->
  forall n rest,
    (list_sum (map (fun '(_, v) => size v) entries) <= fuel)%nat ->
    (length entries <= n)%nat ->
    scan_members (scan_once fuel decoding) n
      (String.concat ", " parts ++ String "}" rest)
    = Found entries rest.
Proof.
  induction 1 as [|[k v] t xs ts (tv & Htv & ->) Hts IH];
    intros Hentries Hne n rest Hsize Hlen; [contradiction|].
  pose proof (Forall_inv Hentries) as Hv. cbn [snd fst] in *.
  pose proof (Forall_inv_tail Hentries) as Hxs.
  destruct n as [|n]; [simpl in Hlen; lia|].
  destruct Hts as [|[k' v'] t' ys ts' (tv' & Htv' & ->) Hts'].
  - cbn [String.concat].
    rewrite (scan_member k v tv);
      [reflexivity | assumption | assumption | simpl in *; lia | constructor].
  - cbn [fst snd] in *.
    change (String.concat ", " (?a :: ?b :: ts'))
      with (a ++ ", " ++ String.concat ", " (b :: ts'))%string.
    rewrite (append_assoc (encode_string k ++ ": " ++ tv)).
    rewrite (scan_member k v tv);
      [| assumption | assumption | simpl in *; lia | constructor].
    rewrite (append_assoc ", "). cbn [append].
    rewrite skip_whitespace_delimited by constructor.
    rewrite skip_whitespace_space.
    assert (Hnext : opens (String.concat ", "
                             ((encode_string k' ++ ": " ++ tv')%string :: ts'))).
    { cbn [String.concat]. destruct ts'; now split. }
    rewrite (skip_whitespace_opens _ _ Hnext).
    rewrite IH; [reflexivity | assumption | discriminate | simpl in *; lia..].
Qed.

End Containers.

(** *** Values *)

Lemma scan_once_dumps (fuel : nat) :
  forall decoding encoding v text,
    encodable decoding v -> dumps encoding v = Ok text -> (size v <= fuel)%nat ->
    forall rest, delimited rest ->
    scan_once fuel decoding (text ++ rest) = Found v rest.
Proof.
  induction fuel as [|fuel IH]; intros decoding encoding v text Hv Htext Hsize rest Hrest.
  - pose proof (size_pos v). lia.
  - destruct Hv as [d|d b|d n Hn|d x|d s|d items Hitems|d entries Hkeys Hentries].
    + injection Htext as <-. reflexivity.
    + destruct b; injection Htext as <-; reflexivity.
    + apply intstr_ok in Htext. destruct Htext as [-> _].
      now apply scan_once_decimal.
    + injection Htext as <-. now apply floatstr_scan.
    + injection Htext as <-. apply scan_once_string.
    + destruct (dumps_list _ _ _ Htext) as (e & parts & -> & Hparts & ->).
      rewrite !append_assoc. cbn [append].
      destruct Hparts as [|x t xs ts Ht Hts]; [reflexivity|].
      assert (Hall : Forall2 (fun v t => dumps e v = Ok t) (x :: xs) (t :: ts))
        by now constructor.
      assert (Hopen : opens (String.concat ", " (t :: ts))).
      { apply concat_opens; [|discriminate].
        clear -Hall. induction Hall as [|? ? ? ? H]; constructor;
          [exact (dumps_opens _ _ _ H) | assumption]. }
      rewrite scan_once_list_open by exact Hopen.
      cbn [size] in Hsize.
      pose proof (length_le_sizes size (x :: xs) size_pos).
      rewrite (scan_elements_dumps fuel d e (IH d e) (x :: xs) (t :: ts));
        [reflexivity | assumption | assumption | discriminate | lia | lia].
    + destruct (dumps_dict _ _ _ Htext) as (e & parts & -> & Hparts & ->).
      rewrite !append_assoc. cbn [append].
      destruct Hparts as [|[k v] t xs ts Ht Hts]; [reflexivity|].
      assert (Hall : Forall2
                       (fun kv t => exists tv, dumps e (snd kv) = Ok tv
                                   /\ t = (encode_string (fst kv) ++ ": " ++ tv)%string)
                       ((k, v) :: xs) (t :: ts))
        by now constructor.
      assert (Hopen : exists s,
                 (String.concat ", " (t :: ts) ++ String "}" rest)%string
                 = String (ascii_of_nat 34) s).
      { destruct Ht as (tv & _ & ->). cbn [String.concat fst].
        destruct ts; rewrite ?append_assoc, encode_string_app; eauto. }
      destruct Hopen as [s Hs].
      cbn [size] in Hsize.
      pose proof (length_le_sizes (fun '(_, v) => size v) ((k, v) :: xs)
                    (fun kv => let '(_, v) := kv in size_pos v)) as Hlen.
      pose proof (scan_members_dumps fuel d e (IH d e) ((k, v) :: xs) (t :: ts)
                    Hall Hentries ltac:(discriminate) fuel rest ltac:(lia) ltac:(lia))
        as Hmembers.
      rewrite Hs in *. rewrite scan_once_dict_open, Hmembers.
      now rewrite dict_of_pairs_distinct.
Qed.

(** *** The length of a text bounds the size of its value *)

Lemma length_concat (sep : string) (parts : list string) :
  (list_sum (map String.length parts)
   <= String.length (String.concat sep parts))%nat.
Proof.
  induction parts as [|x xs IH]; [simpl; lia|].
  destruct xs as [|y ys]; [simpl; lia|].
  change (String.concat sep (x :: y :: ys))
    with (x ++ sep ++ String.concat sep (y :: ys))%string.
  rewrite !length_append. cbn [map list_sum fold_right] in *. lia.
Qed.

Lemma opens_length (s : string) : opens s -> (1 <= String.length s)%nat.
Proof. destruct s; simpl; [tauto | lia]. Qed.

Lemma value_induction (P : value -> Prop) :
  P PNone -> (forall b, P (PBool b)) -> (forall n, P (PInt n)) ->
  (forall x, P (PFloat x)) -> (forall s, P (PStr s)) ->
  (forall items, Forall P items -> P (PList items)) ->
  (forall entries, Forall (fun kv => P (snd kv)) entries -> P (PDict entries)) ->
  forall v, P v.
Proof.
  intros Hnone Hbool Hint Hfloat Hstr Hlist Hdict.
  fix IH 1. intros v.
  destruct v as [|b|n|x|s|items|entries];
    [exact Hnone | apply Hbool | apply Hint | apply Hfloat | apply Hstr | |].
  - apply Hlist. induction items as [|y ys IHys]; constructor; [apply IH | apply IHys].
  - apply Hdict. induction entries as [|[k y] ys IHys]; constructor;
      [apply IH | apply IHys].
Qed.

Lemma size_le_length (v : value) :
  forall depth text, dumps depth v = Ok text -> (size v <= String.length text)%nat.
Proof.
  induction v as [|b|n|x|s|items IH|entries IH] using value_induction;
    intros depth text Htext;
    try (pose proof (opens_length _ (dumps_opens _ _ _ Htext)); simpl; lia).
  - destruct (dumps_list _ _ _ Htext) as (e & parts & -> & Hparts & ->).
    cbn [size]. rewrite !length_append. cbn [String.length].
    pose proof (length_concat ", " parts) as Hc.
    enough (list_sum (map size items) <= list_sum (map String.length parts))%nat
      by lia.
    clear Hc Htext. induction Hparts as [|x t xs ts Ht _ IHparts]; [simpl; lia|].
    pose proof (Forall_inv IH _ _ Ht). pose proof (IHparts (Forall_inv_tail IH)).
    simpl. lia.
  - destruct (dumps_dict _ _ _ Htext) as (e & parts & -> & Hparts & ->).
    cbn [size]. rewrite !length_append. cbn [String.length].
    pose proof (length_concat ", " parts) as Hc.
    enough (list_sum (map (fun '(_, v) => size v) entries)
            <= list_sum (map String.length parts))%nat by lia.
    clear Hc Htext.
    induction Hparts as [|[k x] t xs ts (tv & Ht & ->) _ IHparts]; [simpl; lia|].
    pose proof (Forall_inv IH _ _ Ht). pose proof (IHparts (Forall_inv_tail IH)).
    cbn [snd] in *.
    change (list_sum (map ?f (?a :: ?l))) with (f a + list_sum (map f l))%nat.
    rewrite !length_append. lia.
Qed.

(** The encoder returns a text for every value within its limits. *)
Lemma dumps_total (v : value) :
  forall depth, encodable depth v -> exists text, dumps depth v = Ok text.
Proof.
  induction v as [|b|n|x|s|items IH|entries IH] using value_induction;
    intros depth Hv; inversion Hv; subst.
  - now exists "null".
  - destruct b; eexists; reflexivity.
  - exists (decimal_Z n). now apply intstr_within.
  - eexists; reflexivity.
  - eexists; reflexivity.
  - assert (Hparts : exists parts, sequence (map (dumps depth0) items) = Ok parts).
    { match goal with H : Forall (encodable depth0) items |- _ => rename H into Hitems end.
      clear Hv. induction items as [|y ys IHys]; [now exists []|].
      destruct (Forall_inv IH depth0 (Forall_inv Hitems)) as [t Ht].
      destruct (IHys (Forall_inv_tail IH) (Forall_inv_tail Hitems)) as [ts Hts].
      exists (t :: ts). simpl. now rewrite Ht, Hts. }
    destruct Hparts as [parts Hparts]. cbn [dumps]. rewrite Hparts. eauto.
  - assert (Hparts : exists parts,
               sequence (map (fun '(k, v) => member k (dumps depth0 v)) entries)
               = Ok parts).
    { match goal with
      | H : Forall (fun kv => encodable depth0 (snd kv)) entries |- _ =>
          rename H into Hentries
      end.
      clear Hv. induction entries as [|[k y] ys IHys]; [now exists []|].
      match goal with H : NoDup _ |- _ => inversion H; subst end.
      destruct (Forall_inv IH depth0 (Forall_inv Hentries)) as [t Ht].
      destruct (IHys (Forall_inv_tail IH) ltac:(assumption)
                     (Forall_inv_tail Hentries)) as [ts Hts].
      eexists. simpl in *. rewrite Ht, Hts. reflexivity. }
    destruct Hparts as [parts Hparts]. cbn [dumps]. rewrite Hparts. eauto.
Qed.

(** Decoding the encoding of a value gives the value back. *)
Theorem loads_dumps (describe : string -> string) (decoding encoding : nat)
        (v : value) (text : string) :
  encodable decoding v -> dumps encoding v = Ok text ->
  loads describe decoding text = Ok v.
Proof.
  intros Hv Htext. unfold loads.
  pose proof (skip_whitespace_opens text EmptyString (dumps_opens _ _ _ Htext))
    as Hskip.
  rewrite append_empty in Hskip. rewrite Hskip.
  rewrite <- (append_empty text) at 2.
  rewrite (scan_once_dumps _ decoding encoding v text);
    [reflexivity | assumption | assumption | | constructor].
  pose proof (size_le_length v _ _ Htext). lia.
Qed.

Lemma encodable_mono (v : value) :
  forall n m, encodable n v -> (n <= m)%nat -> encodable m v.
Proof.
  induction v as [|b|k|x|s|items IH|entries IH] using value_induction;
    intros n m Hv Hle; inversion Hv; subst; try (constructor; assumption).
  - destruct m as [|m]; [lia|]. apply encodable_list.
    match goal with H : Forall (encodable depth) items |- _ => rename H into Hitems end.
    clear Hv. induction items as [|y ys IHys]; constructor.
    + apply (Forall_inv IH depth m (Forall_inv Hitems)). lia.
    + apply IHys; [exact (Forall_inv_tail IH) | exact (Forall_inv_tail Hitems)].
  - destruct m as [|m]; [lia|]. apply encodable_dict; [assumption|].
    match goal with
    | H : Forall (fun kv => encodable depth (snd kv)) entries |- _ =>
        rename H into Hentries
    end.
    clear Hv. match goal with H : NoDup _ |- _ => clear H end.
    induction entries as [|y ys IHys]; constructor.
    + apply (Forall_inv IH depth m (Forall_inv Hentries)). lia.
    + apply IHys; [exact (Forall_inv_tail IH) | exact (Forall_inv_tail Hentries)].
Qed.

(** *** The decoder accepts only texts of the grammar *)

Ltac reassociate :=
  repeat first [rewrite !append_assoc | progress cbn [append]];
  try reflexivity.

Lemma code_char (c : ascii) (n : nat) :
  (code c =? n)%nat = true -> c = ascii_of_nat n.
Proof.
  intros H. apply Nat.eqb_eq in H. subst n. unfold code.
  symmetry. apply ascii_nat_embedding.
Qed.

Lemma skip_whitespace_split (s : string) :
  exists w, whitespace w /\ s = (w ++ skip_whitespace s)%string.
Proof.
  induction s as [|c s (w & Hw & Hs)].
  - exists EmptyString. split; [constructor | reflexivity].
  - simpl. destruct (is_whitespace c) eqn:Hc.
    + exists (String c w). split; [now constructor|]. simpl. now rewrite <- Hs.
    + exists EmptyString. split; [constructor | reflexivity].
Qed.

Lemma whitespace_app (a b : string) :
  whitespace a -> whitespace b -> whitespace (a ++ b).
Proof. induction 1; simpl; [trivial | constructor; auto]. Qed.

Lemma span_digits_split (s ds rest : string) :
  span_digits s = (ds, rest) -> digits ds /\ s = (ds ++ rest)%string.
Proof.
  revert ds rest. induction s as [|c s IH]; intros ds rest H; simpl in H.
  - injection H as <- <-. split; [constructor | reflexivity].
  - destruct (is_digit c) eqn:Hc.
    + destruct (span_digits s) as [ds' rest'] eqn:Hs.
      injection H as <- <-. destruct (IH ds' rest' eq_refl) as [Hd ->].
      split; [now constructor | reflexivity].
    + injection H as <- <-. split; [constructor | reflexivity].
Qed.

Lemma scan_int_sound (s i rest : string) :
  scan_int s = Some (i, rest) -> int_text i /\ s = (i ++ rest)%string.
Proof.
  destruct s as [|c s]; [discriminate|]. unfold scan_int.
  destruct (code c =? 48)%nat eqn:Hzero.
  - intros [= <- <-]. rewrite (code_char c 48 Hzero).
    split; [constructor | reflexivity].
  - destruct (is_digit c) eqn:Hc; [|discriminate].
    intros H.
    assert (Hspan : span_digits (String c s) = (i, rest)) by congruence.
    destruct (span_digits_split _ _ _ Hspan) as [Hd Hs].
    split; [|exact Hs].
    simpl in Hspan. rewrite Hc in Hspan. destruct (span_digits s) as [ds' r'].
    injection Hspan as <- <-. inversion Hd; subst. now constructor.
Qed.

Lemma scan_frac_sound (s f rest : string) :
  scan_frac s = (f, rest) ->
  exists t, frac_text t /\ s = (t ++ rest)%string.
Proof.
  unfold scan_frac. destruct s as [|c s].
  - intros [= <- <-]. exists EmptyString. split; [constructor | reflexivity].
  - destruct (code c =? 46)%nat eqn:Hdot.
    + destruct (span_digits s) as [ds r] eqn:Hs.
      destruct (span_digits_split _ _ _ Hs) as [Hd ->].
      destruct ds as [|d ds].
      * intros [= <- <-]. exists EmptyString. split; [constructor | reflexivity].
      * intros [= <- <-]. exists (String "." (String d ds)).
        rewrite (code_char c 46 Hdot). inversion Hd; subst.
        split; [now constructor | reflexivity].
    + intros [= <- <-]. exists EmptyString. split; [constructor | reflexivity].
Qed.

Lemma scan_sign_sound (s : string) (neg : bool) (rest : string) :
  scan_sign s = (neg, rest) ->
  exists t, sign_text t /\ s = (t ++ rest)%string.
Proof.
  unfold scan_sign. destruct s as [|c s].
  - intros [= <- <-]. exists EmptyString. split; [constructor | reflexivity].
  - destruct (code c =? 45)%nat eqn:Hminus.
    + intros [= <- <-]. exists "-". rewrite (code_char c 45 Hminus).
      split; [constructor | reflexivity].
    + destruct (code c =? 43)%nat eqn:Hplus.
      * intros [= <- <-]. exists "+". rewrite (code_char c 43 Hplus).
        split; [constructor | reflexivity].
      * intros [= <- <-]. exists EmptyString.
        split; [constructor | reflexivity].
Qed.

Lemma scan_exp_sound (s : string) (e : option Z) (rest : string) :
  scan_exp s = (e, rest) ->
  exists t, exp_text t /\ s = (t ++ rest)%string.
Proof.
  unfold scan_exp. destruct s as [|c s].
  - intros [= <- <-]. exists EmptyString. split; [constructor | reflexivity].
  - destruct ((code c =? 101)%nat || (code c =? 69)%nat) eqn:He.
    + destruct (scan_sign s) as [neg unsigned] eqn:Hsign.
      destruct (scan_sign_sound _ _ _ Hsign) as (sg & Hsg & ->).
      destruct (span_digits unsigned) as [ds r] eqn:Hs.
      destruct (span_digits_split _ _ _ Hs) as [Hd ->].
      destruct ds as [|d ds].
      * intros [= <- <-]. exists EmptyString. split; [constructor | reflexivity].
      * intros [= <- <-]. exists (String c (sg ++ String d ds)).
        inversion Hd; subst. split.
        -- constructor; try assumption.
           apply orb_true_iff in He. destruct He as [He | He].
           ++ left. exact (code_char c 101 He).
           ++ right. exact (code_char c 69 He).
        -- simpl. now rewrite append_assoc.
    + intros [= <- <-]. exists EmptyString. split; [constructor | reflexivity].
Qed.

Lemma scan_unsigned_sound (neg : bool) (s : string) (v : value) (rest : string) :
  scan_unsigned neg s = Found v rest ->
  exists i f e,
    int_text i /\ frac_text f /\ exp_text e /\ s = (i ++ f ++ e ++ rest)%string.
Proof.
  unfold scan_unsigned.
  destruct (scan_int s) as [[i r1]|] eqn:Hi; [|discriminate].
  destruct (scan_int_sound _ _ _ Hi) as [Hint ->].
  destruct (scan_frac r1) as [f r2] eqn:Hf.
  destruct (scan_frac_sound _ _ _ Hf) as (ft & Hft & ->).
  destruct (scan_exp r2) as [e r3] eqn:He.
  destruct (scan_exp_sound _ _ _ He) as (et & Het & ->).
  intros H.
  assert (rest = r3) as ->.
  { destruct f, e; try (now injection H).
    destruct (int_of_digits neg i); [now injection H | discriminate]. }
  now exists i, ft, et.
Qed.

Lemma scan_number_sound (s : string) (v : value) (rest : string) :
  scan_number s = Found v rest ->
  exists t, number_text t /\ s = (t ++ rest)%string.
Proof.
  unfold scan_number. destruct s as [|c s]; [discriminate|].
  destruct (code c =? 45)%nat eqn:Hminus; intros H;
    destruct (scan_unsigned_sound _ _ _ _ H) as (i & f & e & Hi & Hf & He & Hs).
  - exists (String "-" (i ++ f ++ e)). split; [now constructor|].
    rewrite (code_char c 45 Hminus), Hs. reassociate.
  - exists (i ++ f ++ e)%string. split; [now constructor|].
    rewrite Hs. now rewrite !append_assoc.
Qed.

Lemma strip_prefix_sound (p s rest : string) :
  strip_prefix p s = Some rest -> s = (p ++ rest)%string.
Proof.
  revert s. induction p as [|a p IH]; intros s; simpl.
  - now intros [= ->].
  - destruct s as [|b s]; [discriminate|].
    destruct (Ascii.eqb_spec a b) as [<- | _]; [|discriminate].
    intros H. now rewrite (IH s H).
Qed.

Lemma scan_atom_sound (s : string) (v : value) (rest : string) :
  scan_atom s = Found v rest ->
  exists t, value_text true t /\ s = (t ++ rest)%string.
Proof.
  unfold scan_atom.
  destruct (strip_prefix "null" s) as [r|] eqn:Hnull.
  { intros [= <- <-]. exists "null".
    split; [constructor | now apply strip_prefix_sound]. }
  destruct (strip_prefix "true" s) as [r|] eqn:Htrue.
  { intros [= <- <-]. exists "true".
    split; [constructor | now apply strip_prefix_sound]. }
  destruct (strip_prefix "false" s) as [r|] eqn:Hfalse.
  { intros [= <- <-]. exists "false".
    split; [constructor | now apply strip_prefix_sound]. }
  destruct (scan_number s) as [v' r| |e] eqn:Hnum; [| |discriminate].
  { intros [= <- <-]. destruct (scan_number_sound _ _ _ Hnum) as (t & Ht & ->).
    exists t. split; [now constructor | reflexivity]. }
  destruct (strip_prefix "NaN" s) as [r|] eqn:Hnan.
  { intros [= <- <-]. exists "NaN".
    split; [now constructor | now apply strip_prefix_sound]. }
  destruct (strip_prefix "Infinity" s) as [r|] eqn:Hinf.
  { intros [= <- <-]. exists "Infinity".
    split; [now constructor | now apply strip_prefix_sound]. }
  destruct (strip_prefix "-Infinity" s) as [r|] eqn:Hninf; [|discriminate].
  intros [= <- <-]. exists "-Infinity".
  split; [now constructor | now apply strip_prefix_sound].
Qed.

Lemma scan_string_bounded (n : nat) :
  forall s str rest,
    (String.length s <= n)%nat -> scan_string s = Some (str, rest) ->
    exists body, chars_text body /\ s = (body ++ String quote rest)%string.
Proof.
  induction n as [|n IH]; intros s str rest Hlen H.
  - destruct s; [discriminate | simpl in Hlen; lia].
  - destruct s as [|c s]; [discriminate|]. cbn [scan_string] in H.
    destruct (code c =? 34)%nat eqn:Hq.
    { injection H as <- <-. exists EmptyString.
      rewrite (code_char c 34 Hq). split; [constructor | reflexivity]. }
    destruct (code c =? 92)%nat eqn:Hb.
    + destruct s as [|e s1]; [discriminate|].
      destruct (code e =? 117)%nat eqn:Hu.
      * destruct s1 as [|h1 [|h2 [|h3 [|h4 s2]]]]; try discriminate.
        destruct (hex_value h1) eqn:H1; [|discriminate].
        destruct (hex_value h2) eqn:H2; [|discriminate].
        destruct (hex_value h3) eqn:H3; [|discriminate].
        destruct (hex_value h4) eqn:H4; [|discriminate].
        match type of H with
        | (if ?b then _ else _) = _ => destruct b; [|discriminate]
        end.
        destruct (scan_string s2) as [[str' r']|] eqn:Hs2; [|discriminate].
        injection H as <- <-.
        destruct (IH s2 str' r') as (body & Hbody & ->);
          [simpl in Hlen; lia | assumption |].
        exists (String backslash
                  (String "u" (String h1 (String h2 (String h3 (String h4 body)))))).
        rewrite (code_char c 92 Hb), (code_char e 117 Hu). split; [|reflexivity].
        apply chars_unicode; unfold is_hex; rewrite ?H1, ?H2, ?H3, ?H4; trivial.
      * destruct (unescape e) eqn:He; [|discriminate].
        destruct (scan_string s1) as [[str' r']|] eqn:Hs1; [|discriminate].
        injection H as <- <-.
        destruct (IH s1 str' r') as (body & Hbody & ->);
          [simpl in Hlen; lia | assumption |].
        exists (String backslash (String e body)).
        rewrite (code_char c 92 Hb). split; [|reflexivity].
        apply chars_escape; [unfold is_escape; now rewrite He | assumption].
    + destruct (code c <? 32)%nat eqn:Hctl; [discriminate|].
      destruct (scan_string s) as [[str' r']|] eqn:Hs; [|discriminate].
      injection H as <- <-.
      destruct (IH s str' r') as (body & Hbody & ->);
        [simpl in Hlen; lia | assumption |].
      exists (String c body). split; [now apply chars_plain | reflexivity].
Qed.

Lemma scan_string_sound (s str rest : string) :
  scan_string s = Some (str, rest) ->
  exists body, chars_text body /\ s = (body ++ String quote rest)%string.
Proof. apply (scan_string_bounded (String.length s)). lia. Qed.

Lemma elements_text_whitespace (w es : string) :
  whitespace w -> elements_text true es -> elements_text true (w ++ es).
Proof.
  intros Hw [w1 v w2 Hw1 Hv Hw2 | w1 v w2 es' Hw1 Hv Hw2 Hes'];
    rewrite <- append_assoc;
    [apply elements_one | apply elements_more]; auto using whitespace_app.
Qed.

Lemma members_text_whitespace (w ms : string) :
  whitespace w -> members_text true ms -> members_text true (w ++ ms).
Proof.
  intros Hw [w1 k w2 w3 v w4 Hw1 Hk Hw2 Hw3 Hv Hw4
            | w1 k w2 w3 v w4 ms' Hw1 Hk Hw2 Hw3 Hv Hw4 Hms'];
    rewrite <- append_assoc;
    [apply members_one | apply members_more]; auto using whitespace_app.
Qed.

Section Soundness.
Variable scan : scanner.
Hypothesis scan_sound :
  forall s v rest,
    scan s = Found v rest ->
    exists t, value_text true t /\ s = (t ++ rest)%string.

Lemma scan_elements_sound (fuel : nat) :
  forall s vs rest,
    scan_elements scan fuel s = Found vs rest ->
    exists es, elements_text true es /\ s = (es ++ String "]" rest)%string.
Proof.
  induction fuel as [|fuel IH]; intros s vs rest H; [discriminate|].
  cbn [scan_elements] in H.
  destruct (scan s) as [v r1| |e] eqn:Hv; [|discriminate..].
  destruct (scan_sound _ _ _ Hv) as (t & Ht & ->).
  destruct (skip_whitespace_split r1) as (w2 & Hw2 & Hr1).
  destruct (skip_whitespace r1) as [|c r2]; [discriminate|].
  destruct (code c =? 93)%nat eqn:Hclose.
  - injection H as <- <-. exists (EmptyString ++ t ++ w2)%string.
    split; [apply elements_one; [constructor | assumption..]|].
    rewrite Hr1, (code_char c 93 Hclose). reassociate.
  - destruct (code c =? 44)%nat eqn:Hcomma; [|discriminate].
    destruct (skip_whitespace_split r2) as (w1 & Hw1 & Hr2).
    destruct (scan_elements scan fuel (skip_whitespace r2)) as [vs' r3| |e] eqn:Hrest;
      [|discriminate..].
    injection H as <- <-.
    destruct (IH _ _ _ Hrest) as (es & Hes & Hs).
    pose proof (elements_text_whitespace w1 es Hw1 Hes) as Hmore.
    exists (EmptyString ++ t ++ w2 ++ String "," (w1 ++ es))%string.
    split; [apply elements_more; [constructor | assumption..]|].
    rewrite Hr1, (code_char c 44 Hcomma), Hr2, Hs. reassociate.
Qed.


Lemma scan_members_sound (fuel : nat) :
  forall s kvs rest,
    scan_members scan fuel s = Found kvs rest ->
    exists ms, members_text true ms /\ s = (ms ++ String "}" rest)%string.
Proof.
  induction fuel as [|fuel IH]; intros s kvs rest H; [discriminate|].
  cbn [scan_members] in H.
  destruct s as [|q s]; [discriminate|].
  destruct (code q =? 34)%nat eqn:Hq; [|discriminate].
  destruct (scan_string s) as [[key r1]|] eqn:Hkey; [|discriminate].
  destruct (scan_string_sound _ _ _ Hkey) as (k & Hk & ->).
  destruct (skip_whitespace_split r1) as (w2 & Hw2 & Hr1).
  destruct (skip_whitespace r1) as [|colon r2]; [discriminate|].
  destruct (code colon =? 58)%nat eqn:Hcolon; [|discriminate].
  destruct (skip_whitespace_split r2) as (w3 & Hw3 & Hr2).
  destruct (scan (skip_whitespace r2)) as [v r3| |e] eqn:Hv; [|discriminate..].
  destruct (scan_sound _ _ _ Hv) as (t & Ht & Hvs).
  destruct (skip_whitespace_split r3) as (w4 & Hw4 & Hr3).
  destruct (skip_whitespace r3) as [|c r4]; [discriminate|].
  rewrite (code_char q 34 Hq), Hr1, (code_char colon 58 Hcolon), Hr2, Hvs, Hr3.
  destruct (code c =? 125)%nat eqn:Hclose.
  - injection H as <- <-.
    exists (EmptyString
              ++ String quote
                   (k ++ String quote (w2 ++ String ":" (w3 ++ t ++ w4))))%string.
    split; [apply members_one; [constructor | assumption..]|].
    rewrite (code_char c 125 Hclose). reassociate.
  - destruct (code c =? 44)%nat eqn:Hcomma; [|discriminate].
    destruct (skip_whitespace_split r4) as (w1 & Hw1 & Hr4).
    destruct (scan_members scan fuel (skip_whitespace r4)) as [kvs' r5| |e] eqn:Hrest;
      [|discriminate..].
    injection H as <- <-.
    destruct (IH _ _ _ Hrest) as (ms & Hms & Hs).
    pose proof (members_text_whitespace w1 ms Hw1 Hms) as Hmore.
    exists (EmptyString
              ++ String quote
                   (k ++ String quote
                      (w2 ++ String ":" (w3 ++ t ++ w4 ++ String "," (w1 ++ ms)))))%string.
    split; [apply members_more; [constructor | assumption..]|].
    rewrite (code_char c 44 Hcomma), Hr4, Hs. reassociate.
Qed.

End Soundness.

Lemma scan_once_sound (fuel : nat) :
  forall depth s v rest,
    scan_once fuel depth s = Found v rest ->
    exists t, value_text true t /\ s = (t ++ rest)%string.
Proof.
  induction fuel as [|fuel IH]; intros depth s v rest H; [discriminate|].
  cbn [scan_once] in H. destruct s as [|c s]; [discriminate|].
  destruct (code c =? 34)%nat eqn:Hq.
  { destruct (scan_string s) as [[str r]|] eqn:Hstr; [|discriminate].
    injection H as <- <-.
    destruct (scan_string_sound _ _ _ Hstr) as (body & Hbody & ->).
    exists (String quote (body ++ String quote EmptyString)).
    split; [now apply text_string|].
    rewrite (code_char c 34 Hq). reassociate. }
  destruct (code c =? 123)%nat eqn:Hbrace.
  { destruct depth as [|depth]; [discriminate|].
    destruct (skip_whitespace_split s) as (w & Hw & Hs).
    destruct (skip_whitespace s) as [|c' r']; [discriminate|].
    rewrite (code_char c 123 Hbrace), Hs.
    destruct (code c' =? 125)%nat eqn:Hclose.
    - injection H as <- <-. exists (String "{" (w ++ "}")).
      split; [now apply text_object_empty|].
      rewrite (code_char c' 125 Hclose). reassociate.
    - destruct (scan_members (scan_once fuel depth) fuel (String c' r'))
        as [pairs r''| |e] eqn:Hmembers; [|discriminate..].
      injection H as <- <-.
      destruct (scan_members_sound _ (IH depth) _ _ _ _ Hmembers) as (ms & Hms & ->).
      exists (String "{" ((w ++ ms) ++ "}")).
      split; [apply text_object; now apply members_text_whitespace|].
      reassociate. }
  destruct (code c =? 91)%nat eqn:Hbracket.
  { destruct depth as [|depth]; [discriminate|].
    destruct (skip_whitespace_split s) as (w & Hw & Hs).
    destruct (skip_whitespace s) as [|c' r']; [discriminate|].
    rewrite (code_char c 91 Hbracket), Hs.
    destruct (code c' =? 93)%nat eqn:Hclose.
    - injection H as <- <-. exists (String "[" (w ++ "]")).
      split; [now apply text_array_empty|].
      rewrite (code_char c' 93 Hclose). reassociate.
    - destruct (scan_elements (scan_once fuel depth) fuel (String c' r'))
        as [vs r''| |e] eqn:Helements; [|discriminate..].
      injection H as <- <-.
      destruct (scan_elements_sound _ (IH depth) _ _ _ _ Helements) as (es & Hes & ->).
      exists (String "[" ((w ++ es) ++ "]")).
      split; [apply text_array; now apply elements_text_whitespace|].
      reassociate. }
  now apply (scan_atom_sound _ v).
Qed.

Theorem loads_sound (describe : string -> string) (depth : nat)
        (s : string) (v : value) :
  loads describe depth s = Ok v -> json_text true s.
Proof.
  unfold loads. intros H.
  destruct (skip_whitespace_split s) as (w1 & Hw1 & Hs).
  destruct (scan_once _ depth (skip_whitespace s)) as [v' rest| |e] eqn:Hscan;
    [|discriminate..].
  destruct (scan_once_sound _ _ _ _ _ Hscan) as (t & Ht & Hv).
  destruct (skip_whitespace_split rest) as (w2 & Hw2 & Hrest).
  destruct (skip_whitespace rest); [|discriminate].
  exists w1, t, w2. repeat split; try assumption.
  rewrite Hs, Hv, Hrest. now rewrite append_empty.
Qed.

(** What the decoder raises besides [JSONDecodeError]: the [ValueError] of
    an integer with too many digits, or the [RecursionError] of too deep a
    nesting. *)
Lemma scan_unsigned_failed (neg : bool) (s : string) (e : exn) :
  scan_unsigned neg s = Failed e -> limit_error e.
Proof.
  unfold scan_unsigned.
  destruct (scan_int s) as [[i r1]|]; [|discriminate].
  destruct (scan_frac r1) as [f r2]. destruct (scan_exp r2) as [x r3].
  destruct f, x; try discriminate.
  unfold int_of_digits. destruct (_ <? _)%nat; [|discriminate].
  intros [= <-]. apply limit_digits.
Qed.

Lemma scan_atom_failed (s : string) (e : exn) :
  scan_atom s = Failed e -> limit_error e.
Proof.
  unfold scan_atom.
  destruct (strip_prefix "null" s); [discriminate|].
  destruct (strip_prefix "true" s); [discriminate|].
  destruct (strip_prefix "false" s); [discriminate|].
  destruct (scan_number s) as [v r| |e'] eqn:Hnum; [discriminate| |].
  - destruct (strip_prefix "NaN" s); [discriminate|].
    destruct (strip_prefix "Infinity" s); [discriminate|].
    destruct (strip_prefix "-Infinity" s); discriminate.
  - intros [= <-]. unfold scan_number in Hnum.
    destruct s as [|c s]; [discriminate|].
    destruct (code c =? 45)%nat; exact (scan_unsigned_failed _ _ _ Hnum).
Qed.

Section Failures.
Variable scan : scanner.
Hypothesis scan_failed : forall s e, scan s = Failed e -> limit_error e.

Lemma scan_elements_failed (fuel : nat) :
  forall s e, scan_elements scan fuel s = Failed e -> limit_error e.
Proof.
  induction fuel as [|fuel IH]; intros s e H; [discriminate|].
  cbn [scan_elements] in H.
  destruct (scan s) as [v r1| |e'] eqn:Hv; [|discriminate|].
  - destruct (skip_whitespace r1) as [|c r2]; [discriminate|].
    destruct (code c =? 93)%nat; [discriminate|].
    destruct (code c =? 44)%nat; [|discriminate].
    destruct (scan_elements scan fuel (skip_whitespace r2)) as [vs r3| |e'] eqn:Hrest;
      try discriminate.
    injection H as <-. exact (IH _ _ Hrest).
  - injection H as <-. exact (scan_failed _ _ Hv).
Qed.

Lemma scan_members_failed (fuel : nat) :
  forall s e, scan_members scan fuel s = Failed e -> limit_error e.
Proof.
  induction fuel as [|fuel IH]; intros s e H; [discriminate|].
  cbn [scan_members] in H.
  destruct s as [|q s]; [discriminate|].
  destruct (if (code q =? 34)%nat then scan_string s else None) as [[key r1]|];
    [|discriminate].
  destruct (skip_whitespace r1) as [|colon r2]; [discriminate|].
  destruct (code colon =? 58)%nat; [|discriminate].
  destruct (scan (skip_whitespace r2)) as [v r3| |e'] eqn:Hv; [|discriminate|].
  - destruct (skip_whitespace r3) as [|c r4]; [discriminate|].
    destruct (code c =? 125)%nat; [discriminate|].
    destruct (code c =? 44)%nat; [|discriminate].
    destruct (scan_members scan fuel (skip_whitespace r4)) as [kvs r5| |e'] eqn:Hrest;
      try discriminate.
    injection H as <-. exact (IH _ _ Hrest).
  - injection H as <-. exact (scan_failed _ _ Hv).
Qed.

End Failures.

Lemma scan_once_failed (fuel : nat) :
  forall depth s e, scan_once fuel depth s = Failed e -> limit_error e.
Proof.
  induction fuel as [|fuel IH]; intros depth s e H; [discriminate|].
  cbn [scan_once] in H. destruct s as [|c s]; [discriminate|].
  destruct (code c =? 34)%nat.
  { destruct (scan_string s) as [[str r]|]; discriminate. }
  destruct (code c =? 123)%nat.
  { destruct depth as [|depth]; [injection H as <-; apply limit_depth|].
    destruct (skip_whitespace s) as [|c' r']; [discriminate|].
    destruct (code c' =? 125)%nat; [discriminate|].
    destruct (scan_members (scan_once fuel depth) fuel (String c' r'))
      as [pairs r''| |e'] eqn:Hmembers; try discriminate.
    injection H as <-. exact (scan_members_failed _ (IH depth) _ _ _ Hmembers). }
  destruct (code c =? 91)%nat.
  { destruct depth as [|depth]; [injection H as <-; apply limit_depth|].
    destruct (skip_whitespace s) as [|c' r']; [discriminate|].
    destruct (code c' =? 93)%nat; [discriminate|].
    destruct (scan_elements (scan_once fuel depth) fuel (String c' r'))
      as [vs r''| |e'] eqn:Helements; try discriminate.
    injection H as <-. exact (scan_elements_failed _ (IH depth) _ _ _ Helements). }
  exact (scan_atom_failed _ _ H).
Qed.

(** [json.loads] raises a [JSONDecodeError], or what a limit raises. *)
Lemma loads_raises (describe : string -> string) (depth : nat)
      (s : string) (e : exn) :
  loads describe depth s = Raise e ->
  e = JSONDecodeError (describe s) \/ limit_error e.
Proof.
  unfold loads.
  destruct (scan_once _ depth (skip_whitespace s)) as [v rest| |e'] eqn:Hscan.
  - destruct (skip_whitespace rest); [discriminate|]. intros [= <-]. now left.
  - intros [= <-]. now left.
  - intros [= <-]. right. exact (scan_once_failed _ _ _ _ Hscan).
Qed.

Lemma limit_error_class (e : exn) :
  limit_error e ->
  isinstance_exn e "JSONDecodeError" = false
  /\ isinstance_exn e "Exception" = true
  /\ isinstance_exn e "TypeError" = false.
Proof. intros []; repeat split. Qed.

Lemma loads_rejects (describe : string -> string) (depth : nat) (s : string) :
  ~ json_text true s ->
  exists e, loads describe depth s = Raise e.
Proof.
  intros Hs. destruct (loads describe depth s) as [v|e] eqn:Hv; [|eauto].
  destruct (Hs (loads_sound describe depth s v Hv)).
Qed.

Lemma value_text_start (extended : bool) (v : string) :
  value_text extended v -> starts_with_value extended v.
Proof.
  intros H. destruct H as [| | |s Hs|s _|w _|es _|w _|ms _|He|He|He];
    try reflexivity.
  - destruct Hs as [i f e Hi _ _ | i f e _ _ _]; [|reflexivity].
    destruct Hi as [|c ds Hc _ _]; [reflexivity|].
    simpl. unfold starts_value. now rewrite Hc.
  - simpl. unfold starts_value. rewrite He. reflexivity.
  - simpl. unfold starts_value. rewrite He. reflexivity.
Qed.

Lemma starts_value_not_whitespace (extended : bool) (c : ascii) :
  starts_value extended c = true -> is_whitespace c = false.
Proof.
  destruct extended, c as [[] [] [] [] [] [] [] []];
    try reflexivity; intros H; discriminate H.
Qed.

Lemma json_text_start (extended : bool) (s : string) :
  json_text extended s -> starts_with_value extended (skip_whitespace s).
Proof.
  intros (w1 & v & w2 & Hw1 & Hv & _ & ->).
  induction Hw1 as [|c w Hc _ IH]; simpl.
  - apply value_text_start in Hv. destruct v as [|c v]; [destruct Hv|].
    simpl in *. now rewrite (starts_value_not_whitespace _ _ Hv).
  - now rewrite Hc.
Qed.

(** *** How a JSON text ends *)

Lemma last_char_none (s : string) : last_char s = None -> s = EmptyString.
Proof.
  induction s as [|c s IH]; [reflexivity|]. destruct s as [|d s]; [discriminate|].
  change (last_char (String c (String d s))) with (last_char (String d s)).
  intros H. discriminate (IH H).
Qed.

Lemma last_char_app (a b : string) :
  last_char (a ++ b)
  = match last_char b with Some c => Some c | None => last_char a end.
Proof.
  induction a as [|x a IH]; [simpl; now destruct (last_char b)|].
  cbn [append]. destruct a as [|y a].
  - cbn [append]. destruct b as [|z b]; [reflexivity|].
    change (last_char (String x (String z b))) with (last_char (String z b)).
    destruct (last_char (String z b)) eqn:Hb; [reflexivity|].
    discriminate (last_char_none _ Hb).
  - change (last_char (String x (String y a ++ b)))
      with (last_char (String y a ++ b)).
    rewrite IH. reflexivity.
Qed.

Lemma digits_end (ds : string) (c : ascii) :
  digits ds -> is_digit c = true ->
  exists d, last_char (String c ds) = Some d /\ is_digit d = true.
Proof.
  intros Hds. revert c. induction Hds as [|x s Hx _ IH]; intros c Hc.
  - exists c. split; [reflexivity | assumption].
  - destruct (IH x Hx) as (d & Hd & Hdigit). exists d. split; [|assumption].
    exact Hd.
Qed.

Lemma ends_digit (c : ascii) : is_digit c = true -> ends_value c = true.
Proof. intros H. unfold ends_value. now rewrite H. Qed.

Lemma number_text_end (s : string) :
  number_text s -> exists c, last_char s = Some c /\ is_digit c = true.
Proof.
  assert (Hparts : forall i f e,
             int_text i -> frac_text f -> exp_text e ->
             exists c, last_char (i ++ f ++ e) = Some c /\ is_digit c = true).
  { intros i f e Hi Hf He. rewrite !last_char_app.
    destruct He as [|x sign c ds Hx Hsign Hc Hds].
    - destruct Hf as [|c ds Hc Hds].
      + destruct Hi as [|c ds Hc _ Hds].
        * exists "0"%char. split; reflexivity.
        * exact (digits_end ds c Hds Hc).
      + destruct (digits_end ds c Hds Hc) as (d & Hd & Hdigit).
        exists d. split; [|assumption].
        change (last_char (String "." (String c ds))) with (last_char (String c ds)).
        now rewrite Hd.
    - destruct (digits_end ds c Hds Hc) as (d & Hd & Hdigit).
      exists d. split; [|assumption].
      assert (Hlast : last_char (String x (sign ++ String c ds)) = Some d).
      { destruct Hsign; cbn [append];
          [ change (last_char (String x (String c ds))) with (last_char (String c ds))
          | change (last_char (String x (String "+" (String c ds))))
              with (last_char (String c ds))
          | change (last_char (String x (String "-" (String c ds))))
              with (last_char (String c ds)) ];
          exact Hd. }
      now rewrite Hlast. }
  intros [i f e Hi Hf He | i f e Hi Hf He].
  - now apply Hparts.
  - destruct (Hparts i f e Hi Hf He) as (c & Hc & Hdigit).
    exists c. split; [|assumption].
    destruct (i ++ f ++ e)%string as [|y t] eqn:Ht; [discriminate Hc|].
    exact Hc.
Qed.

Lemma value_text_end (extended : bool) (v : string) :
  value_text extended v ->
  exists c, last_char v = Some c /\ ends_value c = true.
Proof.
  intros H. destruct H as [| | |s Hs|s _|w _|es _|w _|ms _|He|He|He];
    try (eexists; split; reflexivity).
  - destruct (number_text_end s Hs) as (c & Hc & Hdigit).
    exists c. split; [assumption | now apply ends_digit].
  - exists quote. split; [|reflexivity].
    change (String quote (s ++ String quote EmptyString))
      with (String quote s ++ String quote EmptyString)%string.
    now rewrite last_char_app.
  - exists "]"%char. split; [|reflexivity].
    change (String "[" (w ++ "]")) with (String "[" w ++ "]")%string.
    now rewrite last_char_app.
  - exists "]"%char. split; [|reflexivity].
    change (String "[" (es ++ "]")) with (String "[" es ++ "]")%string.
    now rewrite last_char_app.
  - exists "}"%char. split; [|reflexivity].
    change (String "{" (w ++ "}")) with (String "{" w ++ "}")%string.
    now rewrite last_char_app.
  - exists "}"%char. split; [|reflexivity].
    change (String "{" (ms ++ "}")) with (String "{" ms ++ "}")%string.
    now rewrite last_char_app.
Qed.

Lemma whitespace_end (w : string) (c : ascii) :
  whitespace w -> last_char w = Some c -> is_whitespace c = true.
Proof.
  induction 1 as [|x s Hx Hs IH]; [discriminate|].
  destruct s as [|y s]; [now intros [= <-]|].
  change (last_char (String x (String y s))) with (last_char (String y s)).
  exact IH.
Qed.

(** A JSON text ends with whitespace or with the last character of a
    value. *)
Lemma json_text_end (extended : bool) (s : string) :
  json_text extended s ->
  exists c, last_char s = Some c
            /\ (is_whitespace c = true \/ ends_value c = true).
Proof.
  intros (w1 & v & w2 & Hw1 & Hv & Hw2 & ->).
  destruct (value_text_end extended v Hv) as (c & Hc & Hend).
  rewrite !last_char_app.
  destruct (last_char w2) as [d|] eqn:Hd.
  - exists d. split; [reflexivity|]. left. exact (whitespace_end w2 d Hw2 Hd).
  - rewrite Hc. exists c. auto.
Qed.

End ReferenceCodec.

(** ** The request validator *)

Section ParseRequest.
Context {J : Json}.

Lemma get_request_id (payload : dict) :
  get "request_id" payload = extracted_id payload.
Proof. reflexivity. Qed.

Lemma parse_request_object (raw : string) (payload : dict) :
  json_loads raw = Ok (PDict payload) ->
  parse_request raw =
    (let action := get "action" payload in
     if negb (truthy action) || negb (isinstance_str action) then
       Raise (RPC (mk_RPCError (extracted_id payload) "invalid_action"
                               "Missing or invalid 'action'"))
     else
       match action, get_default "params" (PDict []) payload with
       | PStr action, PDict params =>
           Ok (mk_Request (extracted_id payload) action params)
       | PStr _, _ =>
           Raise (RPC (mk_RPCError (extracted_id payload) "invalid_params"
                                   "'params' must be a dictionary"))
       | _, _ =>
           Raise (RPC (mk_RPCError (extracted_id payload) "invalid_action"
                                   "Missing or invalid 'action'"))
       end).
Proof. intros H. unfold parse_request. rewrite H. reflexivity. Qed.

Lemma parse_request_valid_action (raw : string) (payload : dict) (action : string) :
  json_loads raw = Ok (PDict payload) ->
  lookup "action" payload = Some (PStr action) ->
  action <> EmptyString ->
  parse_request raw =
    match get_default "params" (PDict []) payload with
    | PDict params => Ok (mk_Request (extracted_id payload) action params)
    | _ => Raise (RPC (mk_RPCError (extracted_id payload) "invalid_params"
                                   "'params' must be a dictionary"))
    end.
Proof.
  intros Hload Haction Hnonempty.
  rewrite (parse_request_object raw payload Hload).
  unfold get, get_default. rewrite Haction. simpl.
  destruct action as [|c action]; [congruence | reflexivity].
Qed.

(** Whatever the decoder, a text on which it raises a [JSONDecodeError] is
    answered with [invalid_json] and a null identifier; what else it raises
    is not caught. *)
Lemma parse_request_decode_error (raw : string) (e : exn) :
  json_loads raw = Raise e ->
  parse_request raw =
    if isinstance_exn e "JSONDecodeError" then
      Raise (RPC (mk_RPCError PNone "invalid_json" "Payload is not valid JSON"))
    else Raise (Exn e).
Proof. intros H. unfold parse_request. now rewrite H. Qed.

(** Whatever the codec, a request whose payload is decoded back from its
    encoding is parsed back from it. *)
Lemma parse_request_decoded (request : Request) (text : string) :
  req_action request <> EmptyString ->
  json_loads text = Ok (PDict (request_payload request)) ->
  parse_request text = Ok request.
Proof.
  intros Hnonempty Hcodec.
  rewrite (parse_request_valid_action _ _ (req_action request) Hcodec);
    [now destruct request | reflexivity | assumption].
Qed.

(** C1: a JSON object whose [action] is missing, is not a string or is the
    empty string is answered with [invalid_action], under the identifier
    found in that object (null when it has none). *)
Theorem parse_request_invalid_action (raw : string) (payload : dict) :
  json_loads raw = Ok (PDict payload) ->
  lookup "action" payload = None
  \/ (exists v, lookup "action" payload = Some v /\ isinstance_str v = false)
  \/ lookup "action" payload = Some (PStr EmptyString) ->
  parse_request raw =
    Raise (RPC (mk_RPCError (extracted_id payload) "invalid_action"
                            "Missing or invalid 'action'")).
Proof.
  intros Hload Haction.
  rewrite (parse_request_object raw payload Hload).
  unfold get, get_default.
  destruct Haction as [-> | [(v & -> & Hv) | ->]]; simpl; try reflexivity.
  rewrite Hv. simpl. now rewrite orb_true_r.
Qed.

(** C7: with a valid [action], a [params] that is present and is not an
    object is answered with [invalid_params] under the extracted
    identifier; an absent [params] gives a request with empty parameters. *)
Theorem parse_request_params (raw : string) (payload : dict) (action : string) :
  json_loads raw = Ok (PDict payload) ->
  lookup "action" payload = Some (PStr action) ->
  action <> EmptyString ->
  (forall v, lookup "params" payload = Some v -> isinstance_dict v = false ->
             parse_request raw =
               Raise (RPC (mk_RPCError (extracted_id payload) "invalid_params"
                                       "'params' must be a dictionary")))
  /\ (lookup "params" payload = None ->
      parse_request raw = Ok (mk_Request (extracted_id payload) action [])).
Proof.
  intros Hload Haction Hnonempty.
  rewrite (parse_request_valid_action raw payload action Hload Haction Hnonempty).
  unfold get_default. split.
  - intros v -> Hv. destruct v; simpl in Hv; congruence.
  - now intros ->.
Qed.

End ParseRequest.

(** ** Responses *)

(** C8: a response built with status [ok] has a [result] and no [error], one
    built with status [error] has an [error] and no [result], and both carry
    the given identifier and status; the response of an [RPCError] is of the
    second kind. *)
Theorem make_response_fields (request_id result : value) :
  (let resp := make_response request_id "ok" result in
   lookup "result" resp = Some result /\ lookup "error" resp = None
   /\ lookup "request_id" resp = Some request_id
   /\ lookup "status" resp = Some (PStr "ok"))
  /\ (let resp := make_response request_id "error" result in
      lookup "error" resp = Some result /\ lookup "result" resp = None
      /\ lookup "request_id" resp = Some request_id
      /\ lookup "status" resp = Some (PStr "error"))
  /\ (forall code message,
        let resp := to_dict (mk_RPCError request_id code message) in
        lookup "error" resp
          = Some (PDict [("code", PStr code); ("message", PStr message)])
        /\ lookup "result" resp = None
        /\ lookup "request_id" resp = Some request_id
        /\ lookup "status" resp = Some (PStr "error")).
Proof. repeat split. Qed.

(** The dictionaries the handler encodes are the responses of the
    specification. *)
Lemma to_dict_error_response (err : RPCError) :
  to_dict err = error_response (request_id err) (code err) (message err).
Proof. reflexivity. Qed.

Lemma make_response_ok (request_id result : value) :
  make_response request_id "ok" result = ok_response request_id result.
Proof. reflexivity. Qed.

(** ** Binding of keyword arguments *)

Lemma find_none_iff {A : Type} (f : A -> bool) (l : list A) :
  find f l = None <-> (forall x, In x l -> f x = false).
Proof.
  split; [apply find_none|].
  induction l as [|a l IH]; simpl; intros H; [reflexivity|].
  rewrite (H a (or_introl eq_refl)). apply IH. intros x Hx. apply H. now right.
Qed.

Lemma declared_name (k : string) (parameters : list string) :
  existsb (String.eqb k) parameters = true <-> In k parameters.
Proof.
  rewrite existsb_exists. split.
  - intros (x & Hx & Heq). apply String.eqb_eq in Heq. now subst.
  - intros H. exists k. split; [assumption | apply String.eqb_refl].
Qed.

Lemma contains_lookup (p : string) (kwargs : dict) :
  contains p kwargs = false <-> lookup p kwargs = None.
Proof. unfold contains. destruct (lookup p kwargs); split; congruence. Qed.

(** Keyword arguments that name exactly the parameters are bound. *)
Lemma bind_keywords_exact (name : string) (parameters : list string) (kwargs : dict) :
  (forall k, In k (keys kwargs) -> In k parameters) ->
  (forall p, In p parameters -> lookup p kwargs <> None) ->
  bind_keywords name parameters kwargs = Ok (fun p => get p kwargs).
Proof.
  intros Hkeys Hparams. unfold bind_keywords.
  replace (find _ (keys kwargs)) with (@None string).
  - replace (filter _ parameters) with (@nil string); [reflexivity|].
    symmetry. clear Hkeys. induction parameters as [|p ps IH]; [reflexivity|].
    simpl. destruct (contains p kwargs) eqn:Hc; simpl.
    + apply IH. intros q Hq. apply Hparams. now right.
    + apply contains_lookup in Hc. now destruct (Hparams p (or_introl eq_refl)).
  - symmetry. apply find_none_iff. intros k Hk.
    apply negb_false_iff, declared_name, Hkeys, Hk.
Qed.

(** A keyword that is no parameter, or a parameter without argument, makes
    the call raise [TypeError] before the body runs. *)
Lemma bind_keywords_mismatch (name : string) (parameters : list string) (kwargs : dict) :
  (exists k, In k (keys kwargs) /\ ~ In k parameters)
  \/ (exists p, In p parameters /\ lookup p kwargs = None) ->
  exists msg, bind_keywords name parameters kwargs = Raise (TypeError msg).
Proof.
  intros H. unfold bind_keywords.
  destruct (find _ (keys kwargs)) as [k|] eqn:Hfind; [eauto|].
  destruct H as [(k & Hk & Hnot) | (p & Hp & Hnone)].
  - exfalso. apply Hnot, declared_name, negb_false_iff.
    exact (proj1 (find_none_iff _ _) Hfind k Hk).
  - destruct (filter _ parameters) as [|q qs] eqn:Hfilter; [|eauto].
    exfalso.
    assert (Hin : In p (filter (fun p => negb (contains p kwargs)) parameters)).
    { apply filter_In. split; [assumption|].
      apply negb_true_iff, contains_lookup, Hnone. }
    rewrite Hfilter in Hin. destruct Hin.
Qed.

Lemma contract_violation_raises (func : callable) (params : dict) :
  contract_violation func params ->
  exists e, call func params = Raise e /\ isinstance_exn e "TypeError" = true.
Proof.
  intros [name parameters body kwargs k Hk Hnot
         | name parameters body kwargs p Hp Hnone
         | f kwargs e Hcall Hty].
  - destruct (bind_keywords_mismatch name parameters kwargs) as [msg Hmsg];
      [left; eauto|].
    exists (TypeError msg). simpl. now rewrite Hmsg.
  - destruct (bind_keywords_mismatch name parameters kwargs) as [msg Hmsg];
      [right; eauto|].
    exists (TypeError msg). simpl. now rewrite Hmsg.
  - eauto.
Qed.

(** ** The handlers of the registry *)

Lemma add_numbers_rejects (a b : value) :
  isinstance_int_float a = false \/ isinstance_int_float b = false ->
  add_numbers a b = Raise (TypeError "'a' and 'b' must be numbers").
Proof.
  intros H. unfold add_numbers.
  destruct H as [-> | ->]; simpl; [reflexivity|].
  now rewrite orb_true_r.
Qed.

(** ** The dispatcher and the message loop *)

Lemma sent_app (a b : list effect) : sent (a ++ b) = sent a ++ sent b.
Proof.
  induction a as [|x a IH]; [reflexivity|].
  destruct x; simpl; now rewrite IH.
Qed.

Section Dispatcher.
Context {J : Json}.
Variable registry : list (string * callable).
Variable peer : string.

Lemma send_json_ok (d : dict) (frame : string) :
  json_dumps (PDict d) = Ok frame -> send_json d = ([Send frame], None).
Proof. intros H. unfold send_json. now rewrite H. Qed.

Lemma send_json_raise (d : dict) (e : exn) :
  json_dumps (PDict d) = Raise e -> send_json d = ([], Some e).
Proof. intros H. unfold send_json. now rewrite H. Qed.

(** What [send_json] writes: the encoding of its dictionary, and nothing
    when the encoder raises. *)
Lemma send_json_frames (d : dict) :
  match snd (send_json d) with
  | None => exists frame,
      json_dumps (PDict d) = Ok frame /\ fst (send_json d) = [Send frame]
  | Some e => json_dumps (PDict d) = Raise e /\ fst (send_json d) = []
  end.
Proof. unfold send_json. destruct (json_dumps (PDict d)); simpl; eauto. Qed.

Lemma call_awaited (func : callable) (params : dict) :
  (if iscoroutinefunction func then await (call func params)
   else call func params) = call func params.
Proof. now destruct (iscoroutinefunction func). Qed.

(** The three ways of the dispatcher. *)
Lemma dispatch_unknown (request : Request) :
  lookup (req_action request) registry = None ->
  dispatch registry request
  = send_json
      (error_response (req_request_id request) "unknown_action"
         ("Unknown action '" ++ req_action request ++ "'")).
Proof. intros H. unfold dispatch. now rewrite H. Qed.

Lemma dispatch_raised (request : Request) (func : callable) (e : exn) :
  lookup (req_action request) registry = Some func ->
  call func (req_params request) = Raise e ->
  dispatch registry request = handled request e.
Proof.
  intros Hlookup Hcall. unfold dispatch, handled.
  rewrite Hlookup, call_awaited, Hcall.
  destruct (isinstance_exn e "TypeError"); [reflexivity|].
  destruct (isinstance_exn e "Exception"); [|reflexivity].
  now destruct (send_json _).
Qed.

Lemma dispatch_returned (request : Request) (func : callable) (result : value) :
  lookup (req_action request) registry = Some func ->
  call func (req_params request) = Ok result ->
  dispatch registry request
  = match json_dumps (PDict (ok_response (req_request_id request) result)) with
    | Ok frame => ([Send frame], None)
    | Raise e => handled request e
    end.
Proof.
  intros Hlookup Hcall. unfold dispatch, handled.
  rewrite Hlookup, call_awaited, Hcall, make_response_ok.
  destruct (json_dumps _) as [frame|e]; [reflexivity|].
  destruct (isinstance_exn e "TypeError"); [reflexivity|].
  destruct (isinstance_exn e "Exception"); [|reflexivity].
  now destruct (send_json _).
Qed.

Lemma handle_message_parsed (raw : string) (request : Request) :
  parse_request raw = Ok request ->
  handle_message registry peer raw
  = (raw_message_record peer raw :: fst (dispatch registry request),
     snd (dispatch registry request)).
Proof.
  intros H. unfold handle_message. rewrite H.
  now destruct (dispatch registry request).
Qed.

Lemma message_loop_continue (raw : string) (done : list effect) :
  handle_message registry peer raw = (done, None) ->
  keeps_serving registry peer raw done.
Proof.
  intros H rest. simpl. rewrite H. now destruct (message_loop registry peer rest).
Qed.

(** A request answered by [answer] alone leaves the loop running. *)
Lemma answered_continues (request : Request) (answer : list effect) :
  dispatch registry request = (answer, None) ->
  forall raw,
    parse_request raw = Ok request ->
    keeps_serving registry peer raw (raw_message_record peer raw :: answer).
Proof.
  intros Hd raw Hparse. apply message_loop_continue.
  rewrite (handle_message_parsed raw request Hparse), Hd. reflexivity.
Qed.

(** The frames of a connection are those of its loop. *)
Lemma handle_connection_sent (events : list ws_event) :
  sent (fst (handle_connection registry peer events))
  = sent (fst (message_loop registry peer events)).
Proof.
  unfold handle_connection.
  destruct (message_loop registry peer events) as [done [e|]]; simpl;
    [|reflexivity].
  destruct (isinstance_exn e "ConnectionClosed"); simpl.
  - rewrite sent_app. simpl. apply app_nil_r.
  - destruct (isinstance_exn e "Exception"); simpl; [|reflexivity].
    rewrite sent_app. simpl. apply app_nil_r.
Qed.

Lemma keeps_serving_sent (raw : string) (done : list effect) :
  keeps_serving registry peer raw done ->
  forall rest,
    sent (fst (handle_connection registry peer (Recv raw :: rest)))
    = sent done ++ sent (fst (handle_connection registry peer rest)).
Proof.
  intros H rest. rewrite !handle_connection_sent, (H rest). simpl.
  apply sent_app.
Qed.

(** C3: a request for an action the registry does not hold is answered with
    the Error of code [unknown_action], message [Unknown action '<action>']
    and the identifier of the request, and the connection stays open.  The
    frame written is the encoding of that Error. *)
Theorem dispatch_unknown_action (request : Request) (frame : string) :
  lookup (req_action request) registry = None ->
  json_dumps
    (PDict [ ("request_id", req_request_id request);
             ("status", PStr "error");
             ("error",
              PDict [ ("code", PStr "unknown_action");
                      ("message",
                       PStr ("Unknown action '" ++ req_action request ++ "'")) ]) ])
  = Ok frame ->
  dispatch registry request = ([Send frame], None)
  /\ forall raw,
      parse_request raw = Ok request ->
      keeps_serving registry peer raw [raw_message_record peer raw; Send frame].
Proof.
  intros Hlookup Hframe.
  assert (Hd : dispatch registry request = ([Send frame], None)).
  { rewrite (dispatch_unknown request Hlookup). now apply send_json_ok. }
  split; [exact Hd | exact (answered_continues request _ Hd)].
Qed.

(** C4: a request whose parameters violate the contract of the handler found
    for it makes the call raise a [TypeError], and is answered with the
    Error of code [invalid_params], the text of that [TypeError] and the
    identifier of the request; nothing leaves the loop and the connection
    stays open. *)
Theorem dispatch_invalid_params (request : Request) (func : callable) :
  lookup (req_action request) registry = Some func ->
  contract_violation func (req_params request) ->
  exists e,
    call func (req_params request) = Raise e
    /\ isinstance_exn e "TypeError" = true
    /\ forall frame,
        json_dumps
          (PDict [ ("request_id", req_request_id request);
                   ("status", PStr "error");
                   ("error",
                    PDict [ ("code", PStr "invalid_params");
                            ("message", PStr (exn_str e)) ]) ])
        = Ok frame ->
        dispatch registry request = ([Send frame], None)
        /\ forall raw,
            parse_request raw = Ok request ->
            keeps_serving registry peer raw
              [raw_message_record peer raw; Send frame].
Proof.
  intros Hlookup Hviolation.
  destruct (contract_violation_raises _ _ Hviolation) as (e & Hcall & Hty).
  exists e. split; [exact Hcall|]. split; [exact Hty|]. intros frame Hframe.
  assert (Hd : dispatch registry request = ([Send frame], None)).
  { rewrite (dispatch_raised request func e Hlookup Hcall). unfold handled.
    rewrite Hty. now apply send_json_ok. }
  split; [exact Hd | exact (answered_continues request _ Hd)].
Qed.

(** C5, as amended: a request whose handler raises an [Exception] that is
    no [TypeError] is answered with the Error of code [server_error], the
    text of the exception and the identifier of the request, after the
    failure is logged; the connection stays open, and the frames written
    for the messages that follow come after this answer. *)
Theorem dispatch_server_error (request : Request) (func : callable) (e : exn)
        (frame : string) :
  lookup (req_action request) registry = Some func ->
  call func (req_params request) = Raise e ->
  isinstance_exn e "TypeError" = false ->
  isinstance_exn e "Exception" = true ->
  json_dumps
    (PDict [ ("request_id", req_request_id request);
             ("status", PStr "error");
             ("error",
              PDict [ ("code", PStr "server_error");
                      ("message", PStr (exn_str e)) ]) ])
  = Ok frame ->
  let answer :=
    [LogException
       ("Unhandled error while executing '" ++ req_action request ++ "'") e;
     Send frame] in
  dispatch registry request = (answer, None)
  /\ forall raw,
      parse_request raw = Ok request ->
      keeps_serving registry peer raw (raw_message_record peer raw :: answer)
      /\ forall rest,
          sent (fst (handle_connection registry peer (Recv raw :: rest)))
          = frame :: sent (fst (handle_connection registry peer rest)).
Proof.
  intros Hlookup Hcall Hty Hexc Hframe answer.
  assert (Hd : dispatch registry request = (answer, None)).
  { rewrite (dispatch_raised request func e Hlookup Hcall). unfold handled.
    rewrite Hty, Hexc. unfold error_response.
    now rewrite (send_json_ok _ frame Hframe). }
  split; [exact Hd|]. intros raw Hparse.
  pose proof (answered_continues request answer Hd raw Hparse) as Hserve.
  split; [exact Hserve|]. intros rest.
  now rewrite (keeps_serving_sent _ _ Hserve rest).
Qed.

End Dispatcher.

(** ** Order of the responses on one connection *)

Section Ordering.
Context {J : Json}.
Variable registry : list (string * callable).
Variable peer : string.

Lemma send_json_sent (d : dict) :
  match snd (send_json d) with
  | None => exists frame, sent (fst (send_json d)) = [frame]
  | Some _ => sent (fst (send_json d)) = []
  end.
Proof. unfold send_json. destruct (json_dumps (PDict d)); simpl; eauto. Qed.

Lemma handled_sent (request : Request) (e : exn) :
  match snd (handled request e) with
  | None => exists frame, sent (fst (handled request e)) = [frame]
  | Some _ => sent (fst (handled request e)) = []
  end.
Proof.
  unfold handled. destruct (isinstance_exn e "TypeError"); [apply send_json_sent|].
  destruct (isinstance_exn e "Exception"); [|reflexivity].
  cbn [fst snd sent]. apply send_json_sent.
Qed.

Lemma dispatch_sent (request : Request) :
  match snd (dispatch registry request) with
  | None => exists frame, sent (fst (dispatch registry request)) = [frame]
  | Some _ => sent (fst (dispatch registry request)) = []
  end.
Proof.
  destruct (lookup (req_action request) registry) as [func|] eqn:Hlookup.
  - destruct (call func (req_params request)) as [result|e] eqn:Hcall.
    + rewrite (dispatch_returned registry request func result Hlookup Hcall).
      destruct (json_dumps _) as [frame|e]; [simpl; eauto | apply handled_sent].
    + rewrite (dispatch_raised registry request func e Hlookup Hcall).
      apply handled_sent.
  - rewrite (dispatch_unknown registry request Hlookup). apply send_json_sent.
Qed.

(** The loop body writes one frame, or none when an exception leaves it. *)
Lemma handle_message_frames (raw : string) :
  match snd (handle_message registry peer raw) with
  | None => exists frame, sent (fst (handle_message registry peer raw)) = [frame]
  | Some _ => sent (fst (handle_message registry peer raw)) = []
  end.
Proof.
  unfold handle_message.
  destruct (parse_request raw) as [request|[err|e]].
  - pose proof (dispatch_sent request) as H.
    destruct (dispatch registry request) as [done exc]. exact H.
  - pose proof (send_json_sent (to_dict err)) as H.
    destruct (send_json (to_dict err)) as [done exc]. exact H.
  - reflexivity.
Qed.

Lemma message_loop_sent_cons (raw : string) (rest : list ws_event) :
  sent (fst (message_loop registry peer (Recv raw :: rest)))
  = match snd (handle_message registry peer raw) with
    | None => sent (fst (handle_message registry peer raw))
                ++ sent (fst (message_loop registry peer rest))
    | Some _ => []
    end.
Proof.
  pose proof (handle_message_frames raw) as Hframes. simpl.
  destruct (handle_message registry peer raw) as [done [e|]]; simpl in *;
    [assumption|].
  destruct (message_loop registry peer rest) as [more exc]. simpl.
  apply sent_app.
Qed.

(** The frames follow the messages, whatever the handlers are. *)
Lemma frames_follow_messages (events : list ws_event) (i : nat) (frame : string) :
  nth_error (sent (fst (message_loop registry peer events))) i = Some frame ->
  exists raw,
    nth_error (received events) i = Some raw
    /\ sent (fst (handle_message registry peer raw)) = [frame].
Proof.
  revert i. induction events as [|[raw|e] rest IH]; intros i Hnth.
  - destruct i; discriminate.
  - rewrite message_loop_sent_cons in Hnth.
    pose proof (handle_message_frames raw) as Hframes.
    destruct (snd (handle_message registry peer raw)).
    + destruct i; discriminate.
    + destruct Hframes as [first Hfirst]. rewrite Hfirst in Hnth.
      destruct i as [|i]; simpl in Hnth.
      * exists raw. split; [reflexivity | congruence].
      * destruct (IH i Hnth) as (raw' & Hraw' & Hsent). now exists raw'.
  - destruct i; discriminate.
Qed.

(** A message is answered unless an exception left the loop before. *)
Lemma messages_get_frames (events : list ws_event) (i : nat) (raw : string) :
  nth_error (received events) i = Some raw ->
  (forall j earlier, (j <= i)%nat -> nth_error (received events) j = Some earlier ->
                     snd (handle_message registry peer earlier) = None) ->
  exists frame,
    nth_error (sent (fst (message_loop registry peer events))) i = Some frame.
Proof.
  revert i. induction events as [|[first|e] rest IH]; intros i Hnth Hquiet.
  - destruct i; discriminate.
  - rewrite message_loop_sent_cons.
    pose proof (handle_message_frames first) as Hframes.
    rewrite (Hquiet 0%nat first (Nat.le_0_l i) eq_refl) in *.
    destruct Hframes as [frame0 ->].
    destruct i as [|i]; simpl in *; [eauto|].
    apply IH; [assumption|].
    intros j earlier Hj. apply (Hquiet (S j)). lia.
  - destruct i; discriminate.
Qed.

(** C9: with synchronous handlers, the i-th frame written on a connection is
    the answer to the i-th message received on it, and a message is answered
    unless an exception has left the loop by then. *)
Theorem responses_in_arrival_order (events : list ws_event) :
  synchronous registry ->
  let written := sent (fst (handle_connection registry peer events)) in
  (forall i frame,
      nth_error written i = Some frame ->
      exists raw,
        nth_error (received events) i = Some raw
        /\ sent (fst (handle_message registry peer raw)) = [frame])
  /\ (forall i raw,
         nth_error (received events) i = Some raw ->
         (forall j earlier,
             (j <= i)%nat -> nth_error (received events) j = Some earlier ->
             snd (handle_message registry peer earlier) = None) ->
         exists frame, nth_error written i = Some frame).
Proof.
  intros _ written. unfold written. rewrite handle_connection_sent. split.
  - intros i frame. apply frames_follow_messages.
  - intros i raw. apply messages_get_frames.
Qed.

End Ordering.

(** ** Booleans as numbers *)

(** C10: [add_numbers] of two booleans does not raise and returns their
    sum as an integer: 2 for [True] and [True], 1 when one of them is
    [True], 0 for [False] and [False]; a request for [add_numbers] whose
    parameters are two booleans is answered with status [ok] and that sum,
    not with [invalid_params]. *)
Theorem add_numbers_booleans :
  add_numbers (PBool true) (PBool true) = Ok (PInt 2)
  /\ add_numbers (PBool true) (PBool false) = Ok (PInt 1)
  /\ add_numbers (PBool false) (PBool true) = Ok (PInt 1)
  /\ add_numbers (PBool false) (PBool false) = Ok (PInt 0)
  /\ forall (J : Json) (request : Request) (a b : bool) (frame : string),
      req_action request = "add_numbers" ->
      lookup "a" (req_params request) = Some (PBool a) ->
      lookup "b" (req_params request) = Some (PBool b) ->
      (forall k, In k (keys (req_params request)) -> k = "a" \/ k = "b") ->
      json_dumps
        (PDict [ ("request_id", req_request_id request);
                 ("status", PStr "ok");
                 ("result",
                  PInt (match a, b with
                        | true, true => 2
                        | false, false => 0
                        | _, _ => 1
                        end)) ])
      = Ok frame ->
      dispatch FUNCTION_REGISTRY request = ([Send frame], None).
Proof.
  split; [reflexivity|]. split; [reflexivity|]. split; [reflexivity|].
  split; [reflexivity|].
  intros J request a b frame Haction Ha Hb Hkeys Hframe.
  assert (Hcall : call (def "add_numbers" ["a"; "b"]
                          (fun locals => add_numbers (locals "a") (locals "b")))
                       (req_params request)
                  = Ok (PInt (match a, b with
                              | true, true => 2
                              | false, false => 0
                              | _, _ => 1
                              end))).
  { cbn [call def]. rewrite bind_keywords_exact.
    - unfold get, get_default. rewrite Ha, Hb. now destruct a, b.
    - intros k Hk. destruct (Hkeys k Hk) as [-> | ->]; simpl; auto.
    - intros p [<- | [<- | []]]; congruence. }
  rewrite (dispatch_returned FUNCTION_REGISTRY request _ _
             ltac:(rewrite Haction; reflexivity) Hcall).
  unfold ok_response. now rewrite Hframe.
Qed.

(** ** The validator on the reference codec *)

Lemma keys_distinct2 (a b : string) (x y : value) :
  a <> b -> NoDup (keys [(a, x); (b, y)]).
Proof.
  intros Hab. simpl. repeat constructor; simpl; intuition congruence.
Qed.

Lemma keys_distinct3 (a b c : string) (x y z : value) :
  a <> b -> a <> c -> b <> c -> NoDup (keys [(a, x); (b, y); (c, z)]).
Proof.
  intros Hab Hac Hbc. simpl.
  repeat constructor; simpl; intuition congruence.
Qed.

Section OnTheCodec.
Import RefJson.
Variable describe : string -> string.
Variable decoding encoding : nat.

Local Abbreviation J := (codec describe decoding encoding).

(** The codec decodes what it encodes, within its limits. *)
Lemma codec_loads_dumps (depth : nat) (v : value) :
  encodable depth v -> (depth <= decoding)%nat -> (depth <= encoding)%nat ->
  exists text, @json_dumps J v = Ok text /\ @json_loads J text = Ok v.
Proof.
  intros Hv Hd He.
  destruct (dumps_total v encoding (encodable_mono v depth encoding Hv He))
    as [text Htext].
  exists text. split; [exact Htext|].
  exact (loads_dumps describe decoding encoding v text
           (encodable_mono v depth decoding Hv Hd) Htext).
Qed.

Lemma encodable_payload (depth : nat) (request : Request) :
  encodable depth (req_request_id request) ->
  encodable depth (PDict (req_params request)) ->
  encodable (S depth) (PDict (request_payload request)).
Proof.
  intros Hid Hparams. apply encodable_dict.
  - apply keys_distinct3; discriminate.
  - unfold request_payload.
    apply Forall_cons; [exact Hid|].
    apply Forall_cons; [apply encodable_str|].
    apply Forall_cons; [exact Hparams | apply Forall_nil].
Qed.



End OnTheCodec.

(** ** What the validator accepts and what it rejects *)

Section Validator.
Context {J : Json}.

Lemma str_truthy (v : value) :
  truthy v = true -> isinstance_str v = true ->
  exists action, v = PStr action /\ action <> EmptyString.
Proof.
  destruct v as [| | | |s| |]; try discriminate.
  destruct s as [|c s]; [discriminate|]. intros _ _.
  exists (String c s). split; [reflexivity | discriminate].
Qed.

Lemma get_str (key : string) (payload : dict) (s : string) :
  get key payload = PStr s <-> lookup key payload = Some (PStr s).
Proof.
  unfold get, get_default. destruct (lookup key payload) as [v|]; split;
    congruence.
Qed.

(** X1: [parse_request] returns a request exactly when the text decodes to
    an object whose [action] is a non-empty string and whose [params] is
    absent or an object; the request carries that action, the identifier
    found in the object (null when there is none) and the parameters (empty
    when absent). *)
Theorem parse_request_accepts (raw : string) (request : Request) :
  parse_request raw = Ok request <->
  exists payload,
    json_loads raw = Ok (PDict payload)
    /\ lookup "action" payload = Some (PStr (req_action request))
    /\ req_action request <> EmptyString
    /\ req_request_id request = extracted_id payload
    /\ get_default "params" (PDict []) payload = PDict (req_params request).
Proof.
  split.
  - intros H. destruct (json_loads raw) as [[| | | | | |payload]|e] eqn:Hload;
      try (unfold parse_request in H; rewrite Hload in H; discriminate H).
    + rewrite (parse_request_object raw payload Hload) in H. cbv zeta in H.
      exists payload. split; [reflexivity|].
      destruct (truthy (get "action" payload)) eqn:Htruthy; [|discriminate H].
      destruct (isinstance_str (get "action" payload)) eqn:Hstr; [|discriminate H].
      destruct (str_truthy _ Htruthy Hstr) as (action & Haction & Hnonempty).
      rewrite Haction in H. simpl in H.
      destruct (get_default "params" (PDict []) payload); try discriminate H.
      injection H as <-. simpl. apply get_str in Haction. auto.
    + rewrite (parse_request_decode_error raw e Hload) in H.
      destruct (isinstance_exn e "JSONDecodeError"); discriminate H.
  - intros (payload & Hload & Haction & Hnonempty & Hid & Hparams).
    rewrite (parse_request_valid_action raw payload _ Hload Haction Hnonempty).
    rewrite Hparams, <- Hid. now destruct request.
Qed.

(** X2: what [parse_request] raises.  It raises one of four errors of the
    protocol, checked in this order: [invalid_json] when [json.loads] raises
    a [JSONDecodeError], [invalid_payload] when the text decodes to
    something that is no object, [invalid_action] when [action] is missing,
    falsy or no string, [invalid_params] when [params] is no object; the
    first two carry a null identifier, the last two the identifier found in
    the object.  Anything else [json.loads] raises is raised as it is. *)
Theorem parse_request_rejects (raw : string) :
  (forall err,
      parse_request raw = Raise (RPC err) <->
      (exists e,
          json_loads raw = Raise e /\ isinstance_exn e "JSONDecodeError" = true
          /\ err = mk_RPCError PNone "invalid_json" "Payload is not valid JSON")
      \/ (exists v,
            json_loads raw = Ok v /\ isinstance_dict v = false
            /\ err = mk_RPCError PNone "invalid_payload"
                                 "Payload must be a JSON object")
      \/ (exists payload,
            json_loads raw = Ok (PDict payload)
            /\ (truthy (get "action" payload) = false
                \/ isinstance_str (get "action" payload) = false)
            /\ err = mk_RPCError (extracted_id payload) "invalid_action"
                                 "Missing or invalid 'action'")
      \/ (exists payload action,
            json_loads raw = Ok (PDict payload)
            /\ lookup "action" payload = Some (PStr action)
            /\ action <> EmptyString
            /\ isinstance_dict (get_default "params" (PDict []) payload) = false
            /\ err = mk_RPCError (extracted_id payload) "invalid_params"
                                 "'params' must be a dictionary"))
  /\ (forall e,
        parse_request raw = Raise (Exn e) <->
        json_loads raw = Raise e /\ isinstance_exn e "JSONDecodeError" = false).
Proof.
  split.
  - intros err. split.
    + intros H. destruct (json_loads raw) as [v|e] eqn:Hload.
      * destruct (isinstance_dict v) eqn:Hdict.
        -- destruct v as [| | | | | |payload]; try discriminate Hdict.
           rewrite (parse_request_object raw payload Hload) in H. cbv zeta in H.
           destruct (truthy (get "action" payload)) eqn:Htruthy;
             [|right; right; left; exists payload; simpl in H;
               injection H as <-; auto].
           destruct (isinstance_str (get "action" payload)) eqn:Hstr;
             [|right; right; left; exists payload; simpl in H;
               injection H as <-; auto].
           destruct (str_truthy _ Htruthy Hstr) as (action & Haction & Hnonempty).
           rewrite Haction in H. simpl in H. apply get_str in Haction.
           right; right; right. exists payload, action.
           destruct (get_default "params" (PDict []) payload);
             try discriminate H; injection H as <-; auto 6.
        -- right; left. exists v. unfold parse_request in H. rewrite Hload in H.
           destruct v; try discriminate Hdict; injection H as <-; auto.
      * left. rewrite (parse_request_decode_error raw e Hload) in H.
        destruct (isinstance_exn e "JSONDecodeError") eqn:He; [|discriminate H].
        injection H as <-. eauto.
    + intros [(e & Hload & He & ->) | [(v & Hload & Hdict & ->)
             | [(payload & Hload & Haction & ->)
               | (payload & action & Hload & Haction & Hnonempty & Hparams & ->)]]].
      * rewrite (parse_request_decode_error raw e Hload). now rewrite He.
      * unfold parse_request. rewrite Hload.
        destruct v; try reflexivity; discriminate Hdict.
      * rewrite (parse_request_object raw payload Hload). cbv zeta.
        destruct Haction as [-> | ->]; [reflexivity|].
        now rewrite orb_true_r.
      * rewrite (parse_request_valid_action raw payload _ Hload Haction Hnonempty).
        destruct (get_default "params" (PDict []) payload);
          try reflexivity; discriminate Hparams.
  - intros e. split.
    + intros H. destruct (json_loads raw) as [v|e'] eqn:Hload.
      * exfalso. destruct v as [| | | | | |payload];
          try (unfold parse_request in H; rewrite Hload in H; discriminate H).
        rewrite (parse_request_object raw payload Hload) in H. cbv zeta in H.
        destruct (negb _ || negb _); [discriminate H|].
        destruct (get "action" payload); try discriminate H.
        destruct (get_default "params" (PDict []) payload); discriminate H.
      * rewrite (parse_request_decode_error raw e' Hload) in H.
        destruct (isinstance_exn e' "JSONDecodeError") eqn:He; [discriminate H|].
        injection H as <-. auto.
    + intros [Hload He]. rewrite (parse_request_decode_error raw e Hload).
      now rewrite He.
Qed.

Lemma parse_request_empty_action (raw : string) (payload : dict) :
  json_loads raw = Ok (PDict payload) ->
  lookup "action" payload = Some (PStr EmptyString) ->
  parse_request raw
  = Raise (RPC (mk_RPCError (extracted_id payload) "invalid_action"
                            "Missing or invalid 'action'")).
Proof.
  intros Hload Haction. rewrite (parse_request_object raw payload Hload).
  unfold get, get_default. now rewrite Haction.
Qed.

End Validator.

(** ** The fields of a response *)

(** X3: a response has three fields: [request_id], [status], and [result] when
    the status is [ok], [error] for every other status. *)
Theorem make_response_status (request_id : value) (status : string) (result : value) :
  let resp := make_response request_id status result in
  lookup "request_id" resp = Some request_id
  /\ lookup "status" resp = Some (PStr status)
  /\ length resp = 3%nat
  /\ (status = "ok" ->
      lookup "result" resp = Some result /\ lookup "error" resp = None)
  /\ (status <> "ok" ->
      lookup "error" resp = Some result /\ lookup "result" resp = None).
Proof.
  unfold make_response.
  destruct (String.eqb_spec status "ok") as [-> | Hstatus]; simpl.
  - split; [reflexivity|]. split; [reflexivity|]. split; [reflexivity|].
    split; [intros _; split; reflexivity | intros Hne; now destruct Hne].
  - split; [reflexivity|]. split; [reflexivity|]. split; [reflexivity|].
    split; [intros Heq; now destruct Hstatus | intros _; split; reflexivity].
Qed.

(** X4: the dictionary of an [RPCError] is the response [make_response] builds
    with status [error] from the code and the message. *)
Theorem to_dict_make_response (request_id : value) (code message : string) :
  to_dict (mk_RPCError request_id code message)
  = make_response request_id "error"
      (PDict [("code", PStr code); ("message", PStr message)]).
Proof. reflexivity. Qed.

(** ** The functions of the registry *)

Lemma float_of_int_raises (n : Z) (e : exn) :
  float_of_int n = Raise e ->
  e = OverflowError "int too large to convert to float".
Proof.
  unfold float_of_int.
  destruct (binary_normalize _ _ _ _ _); intros H;
    try discriminate H; now injection H.
Qed.

Section Arithmetic.
Variable opZ : Z -> Z -> Z.
Variable opF : float -> float -> float.

(** The body shared by [add_numbers] and [multiply_numbers]. *)
Let numbers (a b : value) : result exn value :=
  if negb (isinstance_int_float a) || negb (isinstance_int_float b) then
    Raise (TypeError "'a' and 'b' must be numbers")
  else
    match as_number a, as_number b with
    | Some x, Some y => arith opZ opF x y
    | _, _ => Raise (TypeError "'a' and 'b' must be numbers")
    end.

Lemma numbers_integers (a b : value) (x y : Z) :
  as_number a = Some (NInt x) -> as_number b = Some (NInt y) ->
  numbers a b = Ok (PInt (opZ x y)).
Proof.
  intros Ha Hb. unfold numbers.
  destruct a; try discriminate Ha; destruct b; try discriminate Hb;
    cbn [isinstance_int_float negb orb];
    rewrite Ha, Hb; reflexivity.
Qed.

Lemma numbers_guard (a b : value) :
  numbers a b = Raise (TypeError "'a' and 'b' must be numbers") <->
  isinstance_int_float a = false \/ isinstance_int_float b = false.
Proof.
  unfold numbers. split.
  - destruct (isinstance_int_float a) eqn:Ha; [|auto].
    destruct (isinstance_int_float b) eqn:Hb; [|auto].
    cbn [negb orb]. intros H. exfalso.
    destruct a; try discriminate Ha; destruct b; try discriminate Hb;
      cbn [as_number arith] in H; try discriminate H;
      match type of H with
      | context [float_of_int ?n] =>
          destruct (float_of_int n) eqn:Hn; [discriminate H|];
          apply float_of_int_raises in Hn; subst; discriminate H
      end.
  - intros [-> | ->]; cbn [negb orb]; [reflexivity|].
    now rewrite orb_true_r.
Qed.

Lemma numbers_raises (a b : value) (e : exn) :
  numbers a b = Raise e ->
  (e = TypeError "'a' and 'b' must be numbers"
   /\ (isinstance_int_float a = false \/ isinstance_int_float b = false))
  \/ (e = OverflowError "int too large to convert to float"
      /\ ((exists n x, as_number a = Some (NInt n) /\ b = PFloat x)
          \/ (exists x n, a = PFloat x /\ as_number b = Some (NInt n)))).
Proof.
  unfold numbers.
  destruct (isinstance_int_float a) eqn:Ha;
    [|intros [= <-]; auto].
  destruct (isinstance_int_float b) eqn:Hb;
    [|cbn [negb orb]; intros [= <-]; auto].
  cbn [negb orb]. intros H. right.
  destruct a; try discriminate Ha; destruct b; try discriminate Hb;
    cbn [as_number arith] in H; try discriminate H;
    match type of H with
    | context [float_of_int ?n] =>
        destruct (float_of_int n) eqn:Hn; [discriminate H|];
        apply float_of_int_raises in Hn; injection H as <-
    end;
    (split; [assumption|]); cbn [as_number]; eauto 6.
Qed.

Lemma numbers_result (a b r : value) :
  numbers a b = Ok r ->
  (exists x y,
      as_number a = Some (NInt x) /\ as_number b = Some (NInt y)
      /\ r = PInt (opZ x y))
  \/ (exists z, r = PFloat z /\ ((exists x, a = PFloat x) \/ (exists y, b = PFloat y))).
Proof.
  unfold numbers.
  destruct (isinstance_int_float a) eqn:Ha; [|discriminate].
  destruct (isinstance_int_float b) eqn:Hb; [|discriminate].
  cbn [negb orb]. intros H.
  destruct a; try discriminate Ha; destruct b; try discriminate Hb;
    cbn [as_number arith] in H;
    first
      [ injection H as <-;
        first [ left; cbn [as_number]; solve [eauto 7] | right; solve [eauto 7] ]
      | match type of H with
        | context [float_of_int ?n] =>
            destruct (float_of_int n) eqn:Hn; [|discriminate H]
        end;
        injection H as <-; right; solve [eauto 7] ].
Qed.

End Arithmetic.

(** X5: on integers and booleans [add_numbers] and [multiply_numbers] never
    raise and return the exact sum and product. *)
Theorem integer_arithmetic_exact (a b : value) (x y : Z) :
  as_number a = Some (NInt x) -> as_number b = Some (NInt y) ->
  add_numbers a b = Ok (PInt (x + y))
  /\ multiply_numbers a b = Ok (PInt (x * y)).
Proof.
  intros Ha Hb. split.
  - exact (numbers_integers Z.add PrimFloat.add a b x y Ha Hb).
  - exact (numbers_integers Z.mul PrimFloat.mul a b x y Ha Hb).
Qed.

(** X6: [add_numbers] and [multiply_numbers] raise their [TypeError] exactly
    when an argument is no number; the only other exception they raise is
    the [OverflowError] of an integer too large for a float, in an
    operation that mixes an integer with a float. *)
Theorem arithmetic_failures (a b : value) :
  let rejected := TypeError "'a' and 'b' must be numbers" in
  let overflow := OverflowError "int too large to convert to float" in
  let mixed :=
    (exists n x, as_number a = Some (NInt n) /\ b = PFloat x)
    \/ (exists x n, a = PFloat x /\ as_number b = Some (NInt n)) in
  (add_numbers a b = Raise rejected
   <-> isinstance_int_float a = false \/ isinstance_int_float b = false)
  /\ (multiply_numbers a b = Raise rejected
      <-> isinstance_int_float a = false \/ isinstance_int_float b = false)
  /\ (forall e, add_numbers a b = Raise e ->
                e = rejected \/ (e = overflow /\ mixed))
  /\ (forall e, multiply_numbers a b = Raise e ->
                e = rejected \/ (e = overflow /\ mixed)).
Proof.
  intros rejected overflow mixed. split; [|split; [|split]].
  - exact (numbers_guard Z.add PrimFloat.add a b).
  - exact (numbers_guard Z.mul PrimFloat.mul a b).
  - intros e H.
    destruct (numbers_raises Z.add PrimFloat.add a b e H) as [[-> _] | H'];
      [now left | now right].
  - intros e H.
    destruct (numbers_raises Z.mul PrimFloat.mul a b e H) as [[-> _] | H'];
      [now left | now right].
Qed.

(** X7: the result of [add_numbers] and of [multiply_numbers] is an integer
    when both arguments are integers or booleans, and a float as soon as one
    argument is a float; it is never a boolean. *)
Theorem arithmetic_result_type (a b r : value) :
  add_numbers a b = Ok r \/ multiply_numbers a b = Ok r ->
  (exists x y n,
      as_number a = Some (NInt x) /\ as_number b = Some (NInt y)
      /\ r = PInt n)
  \/ (exists z,
        r = PFloat z /\ ((exists x, a = PFloat x) \/ (exists y, b = PFloat y))).
Proof.
  intros [H | H].
  - destruct (numbers_result Z.add PrimFloat.add a b r H)
      as [(x & y & Ha & Hb & ->) | H']; [left; eauto 6 | now right].
  - destruct (numbers_result Z.mul PrimFloat.mul a b r H)
      as [(x & y & Ha & Hb & ->) | H']; [left; eauto 6 | now right].
Qed.

(** X8: [echo] returns its argument, whatever string it is, and raises its
    [TypeError] on everything else. *)
Theorem echo_strings (message : value) :
  (forall r, echo message = Ok r <-> isinstance_str message = true /\ r = message)
  /\ (forall e, echo message = Raise e <->
                isinstance_str message = false
                /\ e = TypeError "'message' must be a string").
Proof.
  unfold echo. destruct (isinstance_str message); cbn [negb]; split.
  - intros r. split; [intros [= <-]; auto | now intros [_ ->]].
  - intros e. split; [discriminate | intros [H _]; discriminate H].
  - intros r. split; [discriminate | intros [H _]; discriminate H].
  - intros e. split; [intros [= <-]; auto | now intros [_ ->]].
Qed.

(** X9: the registry holds the three functions under their names, and nothing
    else; none of them is a coroutine function. *)
Theorem registry_names (action : string) :
  (lookup action FUNCTION_REGISTRY <> None
   <-> action = "add_numbers" \/ action = "multiply_numbers" \/ action = "echo")
  /\ synchronous FUNCTION_REGISTRY.
Proof.
  split; [|repeat constructor].
  unfold FUNCTION_REGISTRY. cbn [lookup].
  destruct (String.eqb_spec action "add_numbers") as [-> | H1];
    [split; [auto | discriminate]|].
  destruct (String.eqb_spec action "multiply_numbers") as [-> | H2];
    [split; [auto | discriminate]|].
  destruct (String.eqb_spec action "echo") as [-> | H3];
    [split; [auto | discriminate]|].
  split; [intros H; now destruct H | intros [H | [H | H]]; contradiction].
Qed.

Lemma bind_keywords_raises (name : string) (parameters : list string)
      (kwargs : dict) (e : exn) :
  bind_keywords name parameters kwargs = Raise e ->
  exists msg, e = TypeError msg.
Proof.
  unfold bind_keywords.
  destruct (find _ (keys kwargs)); [intros [= <-]; eauto|].
  destruct (filter _ parameters); [discriminate | intros [= <-]; eauto].
Qed.

(** What the functions of the registry raise. *)
Lemma registry_raises (action : string) (func : callable) (params : dict) (e : exn) :
  lookup action FUNCTION_REGISTRY = Some func ->
  call func params = Raise e ->
  (exists msg, e = TypeError msg)
  \/ e = OverflowError "int too large to convert to float".
Proof.
  unfold FUNCTION_REGISTRY. cbn [lookup].
  destruct (String.eqb action "add_numbers");
    [|destruct (String.eqb action "multiply_numbers");
      [|destruct (String.eqb action "echo"); [|discriminate]]];
    intros [= <-]; cbn [call def];
    (destruct (bind_keywords _ _ params) as [locals|e'] eqn:Hbind;
     [|intros [= <-]; left; exact (bind_keywords_raises _ _ _ _ Hbind)]);
    intros H.
  - destruct (numbers_raises Z.add PrimFloat.add _ _ e H) as [[-> _] | [-> _]];
      eauto.
  - destruct (numbers_raises Z.mul PrimFloat.mul _ _ e H) as [[-> _] | [-> _]];
      eauto.
  - unfold echo in H. destruct (isinstance_str _); [discriminate H|].
    injection H as <-. eauto.
Qed.

Lemma registry_raises_exceptions : raises_exceptions FUNCTION_REGISTRY.
Proof.
  intros action func params e Hlookup Hcall.
  destruct (registry_raises action func params e Hlookup Hcall) as [[msg ->] | ->];
    reflexivity.
Qed.

(** X10: whatever a function of the registry raises is answered, when the
    encoder writes the answer: a [TypeError] (an undeclared or a missing
    argument, a value of the wrong type) with [invalid_params] and its
    text, and the only other exception, the [OverflowError] of an integer
    too large for a float, with [server_error] after it is logged.  No
    exception of a function leaves the loop. *)
Theorem registry_dispatch_outcomes {J : Json} (request : Request)
        (func : callable) (e : exn) :
  lookup (req_action request) FUNCTION_REGISTRY = Some func ->
  call func (req_params request) = Raise e ->
  ((exists msg, e = TypeError msg)
   /\ forall frame,
       json_dumps
         (PDict (error_response (req_request_id request) "invalid_params"
                   (exn_str e)))
       = Ok frame ->
       dispatch FUNCTION_REGISTRY request = ([Send frame], None))
  \/ (e = OverflowError "int too large to convert to float"
      /\ forall frame,
          json_dumps
            (PDict (error_response (req_request_id request) "server_error"
                      "int too large to convert to float"))
          = Ok frame ->
          dispatch FUNCTION_REGISTRY request
          = ([LogException
                ("Unhandled error while executing '" ++ req_action request ++ "'")
                e;
              Send frame], None)).
Proof.
  intros Hlookup Hcall.
  rewrite (dispatch_raised FUNCTION_REGISTRY request func e Hlookup Hcall).
  destruct (registry_raises _ _ _ _ Hlookup Hcall) as [[msg ->] | ->].
  - left. split; [eauto|]. intros frame Hframe. unfold handled.
    cbn [isinstance_exn TypeError exn_mro existsb String.eqb Ascii.eqb Bool.eqb orb].
    now apply send_json_ok.
  - right. split; [reflexivity|]. intros frame Hframe. unfold handled.
    change (isinstance_exn (OverflowError "int too large to convert to float")
              "TypeError") with false.
    change (isinstance_exn (OverflowError "int too large to convert to float")
              "Exception") with true.
    cbv iota.
    change (exn_str (OverflowError "int too large to convert to float"))
      with "int too large to convert to float".
    now rewrite (send_json_ok _ frame Hframe).
Qed.

(** ** The handler of a connection *)

Section Connection.
Context {J : Json}.
Variable registry : list (string * callable).
Variable peer : string.

(** X11: a message that [parse_request] rejects with an error of the
    protocol is answered with that error: its identifier, its code and its
    message in an Error response, and the loop goes on.  When the encoder
    raises on that response, nothing is written and the exception leaves
    the loop. *)
Theorem parse_error_answered (raw : string) (err : RPCError) :
  parse_request raw = Raise (RPC err) ->
  let resp := error_response (request_id err) (code err) (message err) in
  (forall frame,
      json_dumps (PDict resp) = Ok frame ->
      handle_message registry peer raw
      = ([raw_message_record peer raw; Send frame], None)
      /\ keeps_serving registry peer raw [raw_message_record peer raw; Send frame])
  /\ (forall e,
         json_dumps (PDict resp) = Raise e ->
         handle_message registry peer raw = ([raw_message_record peer raw], Some e)).
Proof.
  intros Hparse resp. split.
  - intros frame Hframe.
    assert (Hm : handle_message registry peer raw
                 = ([raw_message_record peer raw; Send frame], None)).
    { unfold handle_message. rewrite Hparse, to_dict_error_response.
      fold resp. now rewrite (send_json_ok resp frame Hframe). }
    split; [exact Hm | exact (message_loop_continue registry peer raw _ Hm)].
  - intros e He. unfold handle_message.
    rewrite Hparse, to_dict_error_response. fold resp.
    now rewrite (send_json_raise resp e He).
Qed.


Lemma send_json_in (d : dict) (frame : string) :
  In frame (sent (fst (send_json d))) -> json_dumps (PDict d) = Ok frame.
Proof.
  unfold send_json. destruct (json_dumps (PDict d)) as [f|e]; simpl.
  - now intros [<- | []].
  - intros [].
Qed.

Lemma handled_in (request : Request) (e : exn) (frame : string) :
  In frame (sent (fst (handled request e))) ->
  exists code message,
    json_dumps (PDict (error_response (req_request_id request) code message))
    = Ok frame.
Proof.
  unfold handled. destruct (isinstance_exn e "TypeError").
  - intros H. apply send_json_in in H. eauto.
  - destruct (isinstance_exn e "Exception"); [|intros []].
    cbn [fst sent]. intros H. apply send_json_in in H. eauto.
Qed.

(** The frame of a request: the result of its function, or an error. *)
Lemma dispatch_frame (request : Request) (frame : string) :
  In frame (sent (fst (dispatch registry request))) ->
  (exists func result,
      lookup (req_action request) registry = Some func
      /\ call func (req_params request) = Ok result
      /\ json_dumps (PDict (ok_response (req_request_id request) result))
         = Ok frame)
  \/ (exists code message,
        json_dumps
          (PDict (error_response (req_request_id request) code message))
        = Ok frame).
Proof.
  destruct (lookup (req_action request) registry) as [func|] eqn:Hlookup.
  - destruct (call func (req_params request)) as [result|e] eqn:Hcall.
    + rewrite (dispatch_returned registry request func result Hlookup Hcall).
      destruct (json_dumps (PDict (ok_response _ result))) as [f|e] eqn:Hf.
      * intros [<- | []]. left. eauto.
      * intros H. right. exact (handled_in request e frame H).
    + rewrite (dispatch_raised registry request func e Hlookup Hcall).
      intros H. right. exact (handled_in request e frame H).
  - rewrite (dispatch_unknown registry request Hlookup).
    intros H. apply send_json_in in H. right. eauto.
Qed.

Lemma dispatch_response (request : Request) (frame : string) :
  In frame (sent (fst (dispatch registry request))) ->
  exists resp,
    json_dumps (PDict resp) = Ok frame
    /\ is_response (req_request_id request) resp.
Proof.
  intros Hin.
  destruct (dispatch_frame request frame Hin)
    as [(func & result & _ & _ & Hf) | (code & message & Hf)];
    eexists; (split; [exact Hf|]); [left | right]; eauto.
Qed.

Lemma handle_message_response (raw frame : string) :
  In frame (sent (fst (handle_message registry peer raw))) ->
  exists resp,
    json_dumps (PDict resp) = Ok frame /\ is_response (correlation_id raw) resp.
Proof.
  unfold handle_message, correlation_id.
  destruct (parse_request raw) as [request|[err|e]].
  - pose proof (dispatch_response request frame) as H.
    destruct (dispatch registry request) as [done exc]. exact H.
  - pose proof (send_json_in (to_dict err) frame) as H.
    destruct (send_json (to_dict err)) as [done exc]. cbn [fst sent].
    intros Hin. exists (to_dict err). split; [exact (H Hin)|].
    right. exists (code err), (message err). reflexivity.
  - intros [].
Qed.

(** X13: every frame written on a connection is the encoding of a response,
    and the i-th frame carries the identifier of the i-th message
    received. *)
Theorem frames_carry_request_ids (events : list ws_event) (i : nat) (frame : string) :
  nth_error (sent (fst (handle_connection registry peer events))) i = Some frame ->
  exists raw resp,
    nth_error (received events) i = Some raw
    /\ json_dumps (PDict resp) = Ok frame
    /\ is_response (correlation_id raw) resp.
Proof.
  rewrite handle_connection_sent. intros Hnth.
  destruct (frames_follow_messages registry peer events i frame Hnth)
    as (raw & Hraw & Hsent).
  destruct (handle_message_response raw frame) as (resp & Hframe & Hresp).
  - rewrite Hsent. now left.
  - now exists raw, resp.
Qed.

Lemma handled_logs (request : Request) (e e' : exn) (text : string) :
  In (LogException text e') (fst (handled request e)) ->
  e' = e /\ isinstance_exn e "TypeError" = false
  /\ isinstance_exn e "Exception" = true
  /\ text
     = ("Unhandled error while executing '" ++ req_action request ++ "'")%string.
Proof.
  unfold handled, send_json.
  destruct (isinstance_exn e "TypeError");
    [destruct (json_dumps _); simpl; intros [H | []] || intros []; discriminate H|].
  destruct (isinstance_exn e "Exception"); [|intros []].
  cbn [fst]. intros [H | H].
  - injection H as <- <-. auto.
  - destruct (json_dumps _); simpl in H; [destruct H as [H | []] | destruct H];
      discriminate H.
Qed.


Lemma message_loop_frames (events : list ws_event) :
  sent (fst (message_loop registry peer events))
  = flat_map (fun raw => sent (fst (handle_message registry peer raw)))
             (answered registry peer (received events)).
Proof.
  induction events as [|[raw|e] rest IH]; try reflexivity.
  rewrite message_loop_sent_cons. cbn [received answered].
  destruct (snd (handle_message registry peer raw)); [reflexivity|].
  cbn [flat_map]. now rewrite IH.
Qed.

Lemma answered_all (raws : list string) :
  (forall raw, In raw raws -> snd (handle_message registry peer raw) = None) ->
  answered registry peer raws = raws.
Proof.
  induction raws as [|raw raws IH]; intros H; [reflexivity|].
  cbn [answered]. rewrite (H raw (or_introl eq_refl)).
  rewrite IH; [reflexivity|]. intros r Hr. apply H. now right.
Qed.


Lemma answered_frames (raws : list string) :
  length (flat_map (fun raw => sent (fst (handle_message registry peer raw)))
            (answered registry peer raws))
  = length (answered registry peer raws).
Proof.
  induction raws as [|raw raws IH]; [reflexivity|].
  cbn [answered].
  pose proof (handle_message_frames registry peer raw) as Hframes.
  destruct (snd (handle_message registry peer raw)); [reflexivity|].
  destruct Hframes as [frame Hframe].
  cbn [flat_map]. rewrite length_app, IH, Hframe. reflexivity.
Qed.

(** X16: every message handled to its end is answered with one frame: as
    many frames are written as messages are received before the first one
    on which an exception leaves the body of the loop, and as many as
    messages are received when there is no such message. *)
Theorem one_frame_per_message (events : list ws_event) :
  length (sent (fst (handle_connection registry peer events)))
  = length (answered registry peer (received events))
  /\ ((forall raw, In raw (received events) ->
                   snd (handle_message registry peer raw) = None) ->
      length (sent (fst (handle_connection registry peer events)))
      = length (received events)).
Proof.
  rewrite handle_connection_sent, message_loop_frames, answered_frames.
  split; [reflexivity|]. intros H. now rewrite (answered_all _ H).
Qed.

Lemma message_loop_failure (raws : list string) (e : exn) (after : list ws_event) :
  snd (message_loop registry peer (map Recv raws)) = None ->
  message_loop registry peer (map Recv raws ++ Fail e :: after)
  = (fst (message_loop registry peer (map Recv raws)), Some e).
Proof.
  induction raws as [|raw raws IH]; [reflexivity|].
  cbn [map app message_loop].
  destruct (handle_message registry peer raw) as [done [exc|]];
    [discriminate|].
  destruct (message_loop registry peer (map Recv raws)) as [more exc'] eqn:Hloop.
  simpl. intros ->. rewrite (IH eq_refl). reflexivity.
Qed.

(** X17: when the iteration over the connection raises, the handler returns:
    after [ConnectionClosed] it logs the disconnection, after any other
    exception it logs the error.  Whatever would have been received later
    is not handled. *)
Theorem transport_failure_ends_handler
        (raws : list string) (e : exn) (after : list ws_event) :
  snd (message_loop registry peer (map Recv raws)) = None ->
  let handled := fst (message_loop registry peer (map Recv raws)) in
  let outcome :=
    handle_connection registry peer (map Recv raws ++ Fail e :: after) in
  (isinstance_exn e "ConnectionClosed" = true ->
   outcome
   = (LogInfo ("Client connected: " ++ peer)
        :: handled ++ [LogInfo ("Client disconnected: " ++ peer)], None))
  /\ (isinstance_exn e "ConnectionClosed" = false ->
      isinstance_exn e "Exception" = true ->
      outcome
      = (LogInfo ("Client connected: " ++ peer)
           :: handled
           ++ [LogException
                 ("Unexpected connection-level error for client " ++ peer) e],
         None)).
Proof.
  intros Hloop handled outcome. unfold outcome, handle_connection.
  rewrite (message_loop_failure raws e after Hloop). fold handled.
  split.
  - now intros ->.
  - now intros -> ->.
Qed.

(** X18: the handler of a connection lets no [Exception] out: what it raises, if
    anything, is no instance of [Exception]. *)
Theorem handle_connection_contains_exceptions (events : list ws_event) (e : exn) :
  snd (handle_connection registry peer events) = Some e ->
  isinstance_exn e "Exception" = false.
Proof.
  unfold handle_connection.
  destruct (message_loop registry peer events) as [done [e'|]]; [|discriminate].
  destruct (isinstance_exn e' "ConnectionClosed"); [discriminate|].
  destruct (isinstance_exn e' "Exception") eqn:He; [discriminate|].
  now intros [= <-].
Qed.

(** The frame written for the request a client encodes, when the codec
    decodes the request back. *)
Lemma served_frame (request : Request) (text reply : string) :
  json_loads text = Ok (PDict (request_payload request)) ->
  sent (fst (handle_connection registry peer [Recv text])) = [reply] ->
  (exists func result,
      lookup (req_action request) registry = Some func
      /\ call func (req_params request) = Ok result
      /\ json_dumps (PDict (ok_response (req_request_id request) result))
         = Ok reply)
  \/ (exists code message,
        json_dumps
          (PDict (error_response (req_request_id request) code message))
        = Ok reply).
Proof.
  intros Hload Hsent.
  rewrite handle_connection_sent, message_loop_sent_cons in Hsent.
  destruct (snd (handle_message registry peer text));
    [discriminate Hsent|].
  cbn [message_loop fst sent] in Hsent. rewrite List.app_nil_r in Hsent.
  assert (Hin : In reply (sent (fst (handle_message registry peer text))))
    by (rewrite Hsent; now left).
  clear Hsent. unfold handle_message in Hin.
  destruct (string_dec (req_action request) EmptyString) as [Hempty | Hnonempty].
  - rewrite (parse_request_empty_action _ _ Hload) in Hin.
    + pose proof (send_json_in
                    (to_dict (mk_RPCError (extracted_id (request_payload request))
                                "invalid_action" "Missing or invalid 'action'"))
                    reply) as H.
      destruct (send_json _) as [done exc]. cbn [fst sent] in Hin.
      right. eexists _, _. exact (H Hin).
    + unfold request_payload. rewrite Hempty. reflexivity.
  - rewrite (parse_request_decoded request text Hnonempty Hload) in Hin.
    destruct (dispatch registry request) as [done exc] eqn:Hd.
    cbn [sent fst] in Hin. apply dispatch_frame. now rewrite Hd.
Qed.

End Connection.

(** ** The client *)

Lemma ne_str_false (v : value) (s : string) :
  ne_str v s = false <-> v = PStr s.
Proof.
  destruct v as [| | | |t| |]; simpl; split; try discriminate.
  - intros H. apply negb_false_iff, String.eqb_eq in H. now subst.
  - intros [= ->]. now rewrite String.eqb_refl.
Qed.

Section ClientCalls.
Context {J : Json}.
Variable exchange : string -> result exn string.
Variable request_id : string.

Lemma call_action_accepts (action : string) (params : dict)
      (frame raw : string) (response : dict) :
  encode_request (mk_Request (PStr request_id) action params) = Ok frame ->
  exchange frame = Ok raw ->
  json_loads raw = Ok (PDict response) ->
  lookup "request_id" response = Some (PStr request_id) ->
  call_action None exchange request_id action params = Ok response.
Proof.
  unfold call_action, encode_request, request_payload.
  cbn [req_request_id req_action req_params].
  intros -> -> -> Hid. unfold get, get_default. rewrite Hid.
  now rewrite (proj2 (ne_str_false (PStr request_id) request_id) eq_refl).
Qed.

(** X19: [call_action] returns a response exactly when the connection
    opens, the request is encoded, and the message received decodes to an
    object whose [request_id] is the identifier sent; the request it sends
    is the encoding of its identifier, action and parameters. *)
Theorem call_action_returns (connect : option exn) (action : string)
        (params : dict) (response : dict) :
  call_action connect exchange request_id action params = Ok response <->
  connect = None
  /\ exists frame raw,
      encode_request (mk_Request (PStr request_id) action params) = Ok frame
      /\ exchange frame = Ok raw
      /\ json_loads raw = Ok (PDict response)
      /\ lookup "request_id" response = Some (PStr request_id).
Proof.
  split.
  - unfold call_action, encode_request, request_payload.
    cbn [req_request_id req_action req_params].
    destruct connect as [e|]; [discriminate|].
    destruct (json_dumps _) as [frame|e]; [|discriminate].
    destruct (exchange frame) as [raw|e] eqn:Hraw; [|discriminate].
    intros H. split; [reflexivity|]. exists frame, raw.
    split; [reflexivity|]. split; [exact Hraw|].
    destruct (json_loads raw) as [[| | | | | |d]|]; try discriminate H.
    destruct (ne_str (get "request_id" d) request_id) eqn:Hne;
      [discriminate H|].
    injection H as <-. split; [reflexivity|].
    apply ne_str_false in Hne. unfold get, get_default in Hne.
    destruct (lookup "request_id" d); [now subst | discriminate].
  - intros (-> & frame & raw & Hframe & Hraw & Hload & Hid).
    now apply (call_action_accepts _ _ frame raw).
Qed.

End ClientCalls.

(** ** Client and server together *)

Section EndToEnd.
Import RefJson.
Variable describe : string -> string.
Variable decoding encoding : nat.
Variable registry : list (string * callable).
Variable peer : string.

Local Abbreviation J := (codec describe decoding encoding).

Lemma encodable_error (depth : nat) (request_id : value) (code message : string) :
  encodable (S depth) request_id ->
  encodable (S (S depth)) (PDict (error_response request_id code message)).
Proof.
  intros Hid. apply encodable_dict.
  - apply keys_distinct3; discriminate.
  - apply Forall_cons; [exact Hid|].
    apply Forall_cons; [apply encodable_str|].
    apply Forall_cons; [|apply Forall_nil].
    apply encodable_dict.
    + apply keys_distinct2; discriminate.
    + apply Forall_cons; [apply encodable_str|].
      apply Forall_cons; [apply encodable_str | apply Forall_nil].
Qed.

Lemma encodable_result (depth : nat) (request_id result : value) :
  encodable depth request_id -> encodable depth result ->
  encodable (S depth) (PDict (ok_response request_id result)).
Proof.
  intros Hid Hresult. apply encodable_dict.
  - apply keys_distinct3; discriminate.
  - apply Forall_cons; [exact Hid|].
    apply Forall_cons; [apply encodable_str|].
    apply Forall_cons; [exact Hresult | apply Forall_nil].
Qed.


End EndToEnd.

(** ** Examples

    The cases of [tests/test_functions.py] and the exchanges the
    specification lists, on the reference codec. *)

Example test_add_numbers :
  add_numbers (PInt 1) (PInt 2) = Ok (PInt 3)
  /\ add_numbers (PFloat 1.5) (PFloat 2.5) = Ok (PFloat 4).
Proof. split; reflexivity. Qed.

Example test_multiply_numbers :
  multiply_numbers (PInt 3) (PInt 4) = Ok (PInt 12).
Proof. reflexivity. Qed.

Example test_echo : echo (PStr "hello") = Ok (PStr "hello").
Proof. reflexivity. Qed.

Example test_invalid_params :
  add_numbers (PStr "x") (PStr "y")
  = Raise (TypeError "'a' and 'b' must be numbers").
Proof. reflexivity. Qed.

(** Floats as [json.dumps] writes them and as [json.loads] reads them. *)
Example floats_written :
  RefJson.floatstr 4 = "4.0"
  /\ RefJson.floatstr 0.1 = "0.1"
  /\ RefJson.floatstr 1e16 = "1e+16"
  /\ RefJson.floatstr 5e-324 = "5e-324"
  /\ RefJson.floatstr (0.1 + 0.2) = "0.30000000000000004".
Proof. vm_compute. repeat split. Qed.

Example floats_read :
  @json_loads json "[1.5, 1e400, -0.0, 2e-324]"
  = Ok (PList [PFloat 1.5; PFloat infinity; PFloat (-0); PFloat 0]).
Proof. vm_compute. reflexivity. Qed.

Example exchange_add_numbers :
  sent (fst (@handle_connection json FUNCTION_REGISTRY "peer"
               [Recv (RefJson.dq "{'request_id':'r1','action':'add_numbers','params':{'a':10,'b':20}}")]))
  = [RefJson.dq "{'request_id': 'r1', 'status': 'ok', 'result': 30}"].
Proof. vm_compute. reflexivity. Qed.

Example exchange_add_floats :
  sent (fst (@handle_connection json FUNCTION_REGISTRY "peer"
               [Recv (RefJson.dq "{'request_id':'r1','action':'add_numbers','params':{'a':1.5,'b':2.5}}")]))
  = [RefJson.dq "{'request_id': 'r1', 'status': 'ok', 'result': 4.0}"].
Proof. vm_compute. reflexivity. Qed.

Example exchange_echo :
  sent (fst (@handle_connection json FUNCTION_REGISTRY "peer"
               [Recv (RefJson.dq "{'request_id':'r2','action':'echo','params':{'message':'hi'}}")]))
  = [RefJson.dq "{'request_id': 'r2', 'status': 'ok', 'result': 'hi'}"].
Proof. vm_compute. reflexivity. Qed.

Example exchange_unknown_action :
  sent (fst (@handle_connection json FUNCTION_REGISTRY "peer"
               [Recv (RefJson.dq "{'request_id':'r3','action':'bogus','params':{}}")]))
  = [RefJson.bq "{`request_id`: `r3`, `status`: `error`, `error`: {`code`: `unknown_action`, `message`: `Unknown action 'bogus'`}}"].
Proof. vm_compute. reflexivity. Qed.

Example exchange_not_an_object :
  sent (fst (@handle_connection json FUNCTION_REGISTRY "peer" [Recv "[1, 2]"]))
  = [RefJson.dq "{'request_id': null, 'status': 'error', 'error': {'code': 'invalid_payload', 'message': 'Payload must be a JSON object'}}"].
Proof. vm_compute. reflexivity. Qed.

(** The limits of the interpreter: the product of two integers of 2201
    digits is not written, and the request is answered with
    [server_error]; a text nested deeper than the decoder follows is not
    answered at all, and ends the handler. *)
Example exchange_large_product :
  let request :=
    mk_Request (PStr "r5") "multiply_numbers"
               [("a", PInt (10 ^ 2200)); ("b", PInt (10 ^ 2200))] in
  let e :=
    ValueError "Exceeds the limit (4300 digits) for integer string conversion; use sys.set_int_max_str_digits() to increase the limit" in
  @dispatch json FUNCTION_REGISTRY request
  = ([LogException "Unhandled error while executing 'multiply_numbers'" e;
      Send (RefJson.dq "{'request_id': 'r5', 'status': 'error', 'error': {'code': 'server_error', 'message': 'Exceeds the limit (4300 digits) for integer string conversion; use sys.set_int_max_str_digits() to increase the limit'}}")],
     None).
Proof. vm_compute. reflexivity. Qed.

Example exchange_deep_nesting :
  let e :=
    RecursionError "maximum recursion depth exceeded while decoding a JSON array from a unicode string" in
  @handle_connection (RefJson.codec (fun _ => EmptyString) 3 3)
    FUNCTION_REGISTRY "peer"
    [Recv "[[[["; Recv (RefJson.dq "{'request_id':'r2','action':'echo','params':{'message':'hi'}}")]
  = ([LogInfo "Client connected: peer";
      LogDebug "Raw message from peer: [[[[";
      LogException "Unexpected connection-level error for client peer" e],
     None).
Proof. vm_compute. reflexivity. Qed.

(** ** Instances of the properties *)

Lemma parse_request_invalid_action_witness :
  let raw := RefJson.dq "{'request_id': 'r9', 'action': 42}" in
  @parse_request json raw
  = Raise (RPC (mk_RPCError (PStr "r9") "invalid_action"
                            "Missing or invalid 'action'")).
Proof.
  apply (@parse_request_invalid_action json _
           [("request_id", PStr "r9"); ("action", PInt 42)]).
  - vm_compute. reflexivity.
  - right; left. exists (PInt 42). split; reflexivity.
Defined.

Lemma parse_request_params_witness :
  (let raw := RefJson.dq "{'request_id': 'r1', 'action': 'echo', 'params': [1]}" in
   @parse_request json raw
   = Raise (RPC (mk_RPCError (PStr "r1") "invalid_params"
                             "'params' must be a dictionary")))
  /\ (let raw := RefJson.dq "{'request_id': 'r2', 'action': 'echo'}" in
      @parse_request json raw = Ok (mk_Request (PStr "r2") "echo" [])).
Proof.
  split.
  - refine (proj1 (@parse_request_params json _
             [("request_id", PStr "r1"); ("action", PStr "echo");
              ("params", PList [PInt 1])] "echo" _ _ _) (PList [PInt 1]) _ _);
      try (vm_compute; reflexivity); discriminate.
  - refine (proj2 (@parse_request_params json _
             [("request_id", PStr "r2"); ("action", PStr "echo")] "echo" _ _ _) _);
      try (vm_compute; reflexivity); discriminate.
Defined.





Lemma dispatch_unknown_action_witness :
  let request := mk_Request (PStr "r3") "bogus" [] in
  let raw := RefJson.dq "{'request_id':'r3','action':'bogus','params':{}}" in
  let frame :=
    RefJson.bq "{`request_id`: `r3`, `status`: `error`, `error`: {`code`: `unknown_action`, `message`: `Unknown action 'bogus'`}}" in
  @dispatch json FUNCTION_REGISTRY request = ([Send frame], None)
  /\ @keeps_serving json FUNCTION_REGISTRY "peer" raw
       [raw_message_record "peer" raw; Send frame].
Proof.
  intros request raw frame.
  destruct (@dispatch_unknown_action json FUNCTION_REGISTRY "peer" request frame
              eq_refl ltac:(vm_compute; reflexivity)) as [Hd Hserve].
  split; [exact Hd | apply Hserve; vm_compute; reflexivity].
Defined.

Lemma dispatch_invalid_params_witness :
  (let request :=
     mk_Request (PStr "r4") "add_numbers" [("a", PStr "x"); ("b", PStr "y")] in
   @dispatch json FUNCTION_REGISTRY request
   = ([Send (RefJson.bq "{`request_id`: `r4`, `status`: `error`, `error`: {`code`: `invalid_params`, `message`: `'a' and 'b' must be numbers`}}")],
      None))
  /\ (let request :=
        mk_Request (PStr "r6") "add_numbers" [("x", PInt 1); ("y", PInt 2)] in
      @dispatch json FUNCTION_REGISTRY request
      = ([Send (RefJson.bq "{`request_id`: `r6`, `status`: `error`, `error`: {`code`: `invalid_params`, `message`: `add_numbers() got an unexpected keyword argument 'x'`}}")],
         None)).
Proof.
  split; intros request.
  - destruct (@dispatch_invalid_params json FUNCTION_REGISTRY "peer"
                request _ eq_refl) as (e & Hcall & _ & Hanswer).
    + apply (rejected_values _ _ (TypeError "'a' and 'b' must be numbers"));
        reflexivity.
    + vm_compute in Hcall. injection Hcall as <-.
      apply Hanswer. vm_compute. reflexivity.
  - destruct (@dispatch_invalid_params json FUNCTION_REGISTRY "peer"
                request _ eq_refl) as (e & Hcall & _ & Hanswer).
    + apply (unexpected_name _ _ _ _ "x"); simpl; [tauto|].
      intros [H | [H | []]]; discriminate.
    + vm_compute in Hcall. injection Hcall as <-.
      apply Hanswer. vm_compute. reflexivity.
Defined.

Lemma dispatch_server_error_witness :
  let request :=
    mk_Request (PStr "r7") "add_numbers"
               [("a", PInt (10 ^ 400)); ("b", PFloat 1.5)] in
  let next :=
    RefJson.dq "{'request_id':'r1','action':'add_numbers','params':{'a':10,'b':20}}" in
  let e := OverflowError "int too large to convert to float" in
  let frame :=
    RefJson.dq "{'request_id': 'r7', 'status': 'error', 'error': {'code': 'server_error', 'message': 'int too large to convert to float'}}" in
  @dispatch json FUNCTION_REGISTRY request
  = ([LogException "Unhandled error while executing 'add_numbers'" e;
      Send frame], None)
  /\ exists raw,
      @parse_request json raw = Ok request
      /\ sent (fst (@handle_connection json FUNCTION_REGISTRY "peer"
                      [Recv raw; Recv next]))
         = [frame; RefJson.dq "{'request_id': 'r1', 'status': 'ok', 'result': 30}"].
Proof.
  intros request next e frame.
  assert (Hcall : call (def "add_numbers" ["a"; "b"]
                          (fun locals => add_numbers (locals "a") (locals "b")))
                       (req_params request) = Raise e)
    by (vm_compute; reflexivity).
  destruct (@dispatch_server_error json FUNCTION_REGISTRY "peer"
              request _ e frame eq_refl Hcall eq_refl eq_refl
              ltac:(vm_compute; reflexivity)) as [Hd Hnext].
  split; [exact Hd|].
  destruct (@encode_request json request) as [raw|] eqn:Hraw;
    [|vm_compute in Hraw; discriminate Hraw].
  exists raw.
  assert (Hparse : @parse_request json raw = Ok request)
    by (vm_compute in Hraw; injection Hraw as <-; vm_compute; reflexivity).
  split; [exact Hparse|].
  destruct (Hnext _ Hparse) as [_ Hsent].
  rewrite Hsent. f_equal.
Defined.

(** C5 as first stated fails: a function that raises [SystemExit], which is
    no [Exception], is not answered; the exception leaves the handler of
    the connection, and the message that follows is not served. *)
Lemma dispatch_server_error_counterexample :
  let exit := mk_exn ["SystemExit"; "BaseException"; "object"] "1" in
  let registry := [("quit", def "quit" [] (fun _ => Raise exit))] in
  let request := mk_Request (PStr "r1") "quit" [] in
  let raw := RefJson.dq "{'request_id':'r1','action':'quit','params':{}}" in
  let next := RefJson.dq "{'request_id':'r2','action':'quit','params':{}}" in
  (exists func,
      lookup (req_action request) registry = Some func
      /\ call func (req_params request) = Raise exit)
  /\ isinstance_exn exit "TypeError" = false
  /\ @parse_request json raw = Ok request
  /\ @dispatch json registry request = ([], Some exit)
  /\ @handle_connection json registry "peer" [Recv raw; Recv next]
     = ([LogInfo "Client connected: peer";
         raw_message_record "peer" raw], Some exit).
Proof.
  intros exit registry request raw next.
  split; [eexists; split; reflexivity|].
  repeat split; vm_compute; reflexivity.
Defined.

Lemma responses_in_arrival_order_witness :
  let events :=
    [ Recv (RefJson.dq "{'request_id':'r1','action':'add_numbers','params':{'a':10,'b':20}}");
      Recv (RefJson.dq "{'request_id':'r2','action':'echo','params':{'message':'hi'}}");
      Recv (RefJson.dq "{'request_id':'r3','action':'bogus','params':{}}") ] in
  exists raw,
    nth_error (received events) 1 = Some raw
    /\ sent (fst (@handle_message json FUNCTION_REGISTRY "peer" raw))
       = [RefJson.dq "{'request_id': 'r2', 'status': 'ok', 'result': 'hi'}"].
Proof.
  intros events.
  refine (proj1 (@responses_in_arrival_order json FUNCTION_REGISTRY
                   "peer" events _) 1%nat _ _).
  - repeat constructor.
  - vm_compute. reflexivity.
Defined.

Lemma add_numbers_booleans_witness :
  let request (a b : bool) :=
    mk_Request (PStr "r8") "add_numbers" [("b", PBool b); ("a", PBool a)] in
  @dispatch json FUNCTION_REGISTRY (request true true)
  = ([Send (RefJson.dq "{'request_id': 'r8', 'status': 'ok', 'result': 2}")], None)
  /\ @dispatch json FUNCTION_REGISTRY (request true false)
     = ([Send (RefJson.dq "{'request_id': 'r8', 'status': 'ok', 'result': 1}")], None)
  /\ @dispatch json FUNCTION_REGISTRY (request false false)
     = ([Send (RefJson.dq "{'request_id': 'r8', 'status': 'ok', 'result': 0}")], None).
Proof.
  intros request.
  assert (Hkeys : forall a b k,
             In k (keys (req_params (request a b))) -> k = "a" \/ k = "b")
    by (intros a b k [<- | [<- | []]]; auto).
  pose proof (proj2 (proj2 (proj2 (proj2 add_numbers_booleans)))) as H.
  split; [|split].
  - exact (H json (request true true) true true _ eq_refl eq_refl eq_refl
             (Hkeys true true) ltac:(vm_compute; reflexivity)).
  - exact (H json (request true false) true false _ eq_refl eq_refl eq_refl
             (Hkeys true false) ltac:(vm_compute; reflexivity)).
  - exact (H json (request false false) false false _ eq_refl eq_refl eq_refl
             (Hkeys false false) ltac:(vm_compute; reflexivity)).
Defined.

Lemma make_response_status_witness :
  let resp := make_response (PStr "r1") "success" (PInt 1) in
  lookup "error" resp = Some (PInt 1) /\ lookup "result" resp = None.
Proof.
  intros resp.
  refine (proj2 (proj2 (proj2 (proj2
            (make_response_status (PStr "r1") "success" (PInt 1))))) _).
  discriminate.
Defined.

Lemma integer_arithmetic_exact_witness :
  add_numbers (PBool true) (PInt 41) = Ok (PInt 42)
  /\ multiply_numbers (PBool true) (PInt 41) = Ok (PInt 41).
Proof.
  exact (integer_arithmetic_exact (PBool true) (PInt 41) 1 41 eq_refl eq_refl).
Defined.

Lemma arithmetic_failures_witness :
  add_numbers (PStr "x") (PInt 1)
  = Raise (TypeError "'a' and 'b' must be numbers").
Proof.
  apply (proj1 (arithmetic_failures (PStr "x") (PInt 1))).
  left. reflexivity.
Defined.

Lemma arithmetic_result_type_witness :
  (exists x y n,
      as_number (PBool true) = Some (NInt x)
      /\ as_number (PFloat 0.5) = Some (NInt y)
      /\ PFloat 1.5 = PInt n)
  \/ (exists z,
        PFloat 1.5 = PFloat z
        /\ ((exists x, PBool true = PFloat x) \/ (exists y, PFloat 0.5 = PFloat y))).
Proof.
  apply (arithmetic_result_type (PBool true) (PFloat 0.5) (PFloat 1.5)).
  left. vm_compute. reflexivity.
Defined.

Lemma registry_dispatch_outcomes_witness :
  (let request := mk_Request (PStr "r4") "echo" [("message", PInt 1)] in
   @dispatch json FUNCTION_REGISTRY request
   = ([Send (RefJson.bq "{`request_id`: `r4`, `status`: `error`, `error`: {`code`: `invalid_params`, `message`: `'message' must be a string`}}")],
      None))
  /\ (let request :=
        mk_Request (PStr "r7") "multiply_numbers"
                   [("a", PFloat 1.5); ("b", PInt (10 ^ 400))] in
      @dispatch json FUNCTION_REGISTRY request
      = ([LogException "Unhandled error while executing 'multiply_numbers'"
            (OverflowError "int too large to convert to float");
          Send (RefJson.dq "{'request_id': 'r7', 'status': 'error', 'error': {'code': 'server_error', 'message': 'int too large to convert to float'}}")],
         None)).
Proof.
  split; intros request.
  - destruct (@registry_dispatch_outcomes json request _
                (TypeError "'message' must be a string") eq_refl eq_refl)
      as [[_ H] | [H _]]; [|discriminate H].
    apply H. vm_compute. reflexivity.
  - destruct (@registry_dispatch_outcomes json request _
                (OverflowError "int too large to convert to float") eq_refl
                ltac:(vm_compute; reflexivity))
      as [[[msg H] _] | [_ H]]; [discriminate H|].
    apply H. vm_compute. reflexivity.
Defined.

Lemma parse_error_answered_witness :
  let raw := "[1, 2]" in
  let done :=
    [raw_message_record "peer" raw;
     Send (RefJson.dq "{'request_id': null, 'status': 'error', 'error': {'code': 'invalid_payload', 'message': 'Payload must be a JSON object'}}")] in
  @handle_message json FUNCTION_REGISTRY "peer" raw = (done, None)
  /\ @keeps_serving json FUNCTION_REGISTRY "peer" raw done.
Proof.
  intros raw done.
  apply (proj1 (@parse_error_answered json FUNCTION_REGISTRY "peer" raw
                  (mk_RPCError PNone "invalid_payload"
                               "Payload must be a JSON object")
                  ltac:(vm_compute; reflexivity))).
  vm_compute. reflexivity.
Defined.

Lemma large_product_returned :
  call (def "multiply_numbers" ["a"; "b"]
          (fun locals => multiply_numbers (locals "a") (locals "b")))
       [("a", PInt (10 ^ 2200)); ("b", PInt (10 ^ 2200))]
  = Ok (PInt (10 ^ 4400)).
Proof. vm_compute. reflexivity. Qed.

Lemma large_product_not_written :
  @json_dumps json (PDict (ok_response (PStr "r5") (PInt (10 ^ 4400))))
  = Raise (ValueError "Exceeds the limit (4300 digits) for integer string conversion; use sys.set_int_max_str_digits() to increase the limit").
Proof. vm_compute. reflexivity. Qed.


Lemma frames_carry_request_ids_witness :
  let events :=
    [ Recv (RefJson.dq "{'request_id': 'r9', 'action': 42}");
      Recv (RefJson.dq "{'request_id':'r2','action':'echo','params':{'message':'hi'}}") ] in
  exists raw resp,
    nth_error (received events) 1 = Some raw
    /\ @json_dumps json (PDict resp)
       = Ok (RefJson.dq "{'request_id': 'r2', 'status': 'ok', 'result': 'hi'}")
    /\ is_response (@correlation_id json raw) resp.
Proof.
  intros events.
  apply (@frames_carry_request_ids json FUNCTION_REGISTRY "peer" events).
  vm_compute. reflexivity.
Defined.



Lemma one_frame_per_message_witness :
  let events :=
    [ Recv "{";
      Recv (RefJson.dq "{'request_id':'r2','action':'echo','params':{'message':'hi'}}");
      Recv (RefJson.dq "{'request_id':'r3','action':'bogus','params':{}}") ] in
  length (sent (fst (@handle_connection json FUNCTION_REGISTRY "peer" events)))
  = length (received events).
Proof.
  intros events.
  apply (proj2 (@one_frame_per_message json FUNCTION_REGISTRY "peer" events)).
  intros raw [<- | [<- | [<- | []]]]; vm_compute; reflexivity.
Defined.

Lemma transport_failure_ends_handler_witness :
  let raws :=
    [RefJson.dq "{'request_id':'r2','action':'echo','params':{'message':'hi'}}"] in
  let closed := ConnectionClosed "received 1000 (OK); then sent 1000 (OK)" in
  @handle_connection json FUNCTION_REGISTRY "peer"
    (map Recv raws ++ Fail closed :: [Recv "late"])
  = (LogInfo "Client connected: peer"
       :: fst (@message_loop json FUNCTION_REGISTRY "peer" (map Recv raws))
       ++ [LogInfo "Client disconnected: peer"], None).
Proof.
  intros raws closed.
  refine (proj1 (@transport_failure_ends_handler json FUNCTION_REGISTRY
                   "peer" raws closed [Recv "late"] _) eq_refl).
  vm_compute. reflexivity.
Defined.

Lemma handle_connection_contains_exceptions_witness :
  let cancelled := mk_exn ["CancelledError"; "BaseException"; "object"] EmptyString in
  snd (@handle_connection json FUNCTION_REGISTRY "peer" [Fail cancelled])
  = Some cancelled
  /\ isinstance_exn cancelled "Exception" = false.
Proof.
  intros cancelled. split; [reflexivity|].
  apply (@handle_connection_contains_exceptions json FUNCTION_REGISTRY
           "peer" [Fail cancelled] cancelled).
  reflexivity.
Defined.

